(** * Flow graph utilities of crewAI ([src/crewai/flow/utils.py])

    A shallow embedding of the graph queries of [utils.py] and the proofs
    of the properties its specification states about them:

    - [calculate_node_levels]: breadth-first level assignment,
    - [build_ancestor_dict] / [dfs_ancestors] / [is_ancestor],
    - [count_outgoing_edges],
    - [build_parent_children_dict] / [get_child_index],
    - [get_possible_return_constants]: the static scan of a router's body.

    Python dictionaries that are only looked up are [gmap]s, sets are
    [gset]s; dictionaries that the code iterates over ([flow._methods],
    [flow._listeners], [flow._router_paths]) are association lists in
    iteration order, since the traversals depend on that order.

    The file has three parts: the program, the invariants and
    specifications, and the proofs. *)

From Stdlib Require Import Ascii String.
From stdpp Require Import gmap strings list sorting fin_maps.

Set Default Proof Using "Type".
Set Warnings "-clear-no-such-hyp,-register-all".

(** * The program *)

(** ** Outcomes of a Python call

    A call returns, raises, or runs out of fuel.  For the [while] loop of
    [calculate_node_levels] the fuel is an artefact of the embedding: the
    loop is shown to end within [Levels.enough_fuel] iterations.  For the
    recursion of [dfs_ancestors] the fuel is the number of nested calls
    that the recursion limit of the interpreter still allows, and running
    out of it is Python's [RecursionError]. *)

Inductive exception :=
  | KeyError (key : string)
  | ValueError.

Inductive run (A : Type) :=
  | Done (a : A)
  | Raise (e : exception)
  | OutOfFuel.
Arguments Done {A} a.
Arguments Raise {A} e.
Arguments OutOfFuel {A}.

Definition run_bind {A B} (m : run A) (k : A → run B) : run B :=
  match m with
  | Done a => k a
  | Raise e => Raise e
  | OutOfFuel => OutOfFuel
  end.

Notation "x ←ᵣ m ; k" := (run_bind m (λ x, k))
  (at level 100, m at next level, right associativity).

(** [for a in l: st = body(st, a)], stopping at the first exception. *)
Fixpoint for_each {A S} (body : S → A → run S) (l : list A) (st : S) : run S :=
  match l with
  | [] => Done st
  | a :: l' => st' ←ᵣ body st a; for_each body l' st'
  end.

(** ** The graph model: the tables of a flow read by the queries *)

(** A registered method; only the presence of the attribute
    [__is_start_method__] is read. *)
Record method := { is_start_method : bool }.

(** A listener entry [(condition_type, trigger_methods)]. *)
Definition listener : Type := string * list string.

(** The four tables of a flow.  [_routers] is only tested for membership.
    The keys of a dictionary are distinct; the proofs that need this for
    [_listeners] assume [NoDup (listener_names f)]. *)
Record flow := {
  _methods : list (string * method);
  _listeners : list (string * listener);
  _routers : gset string;
  _router_paths : list (string * list string)
}.

(** [d.get(key, [])] on an association list. *)
Fixpoint get_or_empty (d : list (string * list string)) (key : string) : list string :=
  match d with
  | [] => []
  | (k, v) :: d' => if decide (k = key) then v else get_or_empty d' key
  end.

Definition method_names (f : flow) : list string := (_methods f).*1.
Definition listener_names (f : flow) : list string := (_listeners f).*1.
Definition start_methods (f : flow) : list string :=
  (filter (λ nm, is_start_method nm.2 = true) (_methods f)).*1.

(** ** [calculate_node_levels] *)

Module Levels.

Record state := {
  levels : gmap string nat;
  queue : list string;
  visited : gset string;
  pending_and_listeners : gmap string (gset string)
}.

(** The block that occurs three times in the source (OR branch, AND
    branch, router paths):
<<
    if listener_name not in levels or levels[listener_name] > current_level + 1:
        levels[listener_name] = current_level + 1
        if listener_name not in visited:
            queue.append(listener_name)
>> *)
Definition update_level (listener_name : string) (current_level : nat)
    (st : state) : state :=
  {| levels := <[listener_name := current_level + 1]> (levels st);
     queue := if decide (listener_name ∈ visited st) then queue st
              else queue st ++ [listener_name];
     visited := visited st;
     pending_and_listeners := pending_and_listeners st |}.

Definition propose (listener_name : string) (current_level : nat)
    (st : state) : state :=
  match levels st !! listener_name with
  | None => update_level listener_name current_level st
  | Some l =>
      if decide (current_level + 1 < l)
      then update_level listener_name current_level st
      else st
  end.

Definition set_pending (p : gmap string (gset string)) (st : state) : state :=
  {| levels := levels st; queue := queue st; visited := visited st;
     pending_and_listeners := p |}.

(** The AND branch, lines 108-120: create the accumulator, record
    [current] when it is a trigger, and test the accumulator against the
    whole trigger set.  The test is not nested under the membership
    test. *)
Definition and_branch (current : string) (current_level : nat)
    (listener_name : string) (trigger_methods : list string)
    (st : state) : state :=
  let p0 := pending_and_listeners st in
  let p1 := match p0 !! listener_name with
            | None => <[listener_name := ∅]> p0
            | Some _ => p0
            end in
  let p2 := if decide (current ∈ trigger_methods)
            then alter (λ s, s ∪ {[current]}) listener_name p1
            else p1 in
  let st2 := set_pending p2 st in
  if decide (p2 !! listener_name = Some (list_to_set trigger_methods))
  then propose listener_name current_level st2
  else st2.

(** One round of [for listener_name, (condition_type, trigger_methods) in
    flow._listeners.items()]. *)
Definition process_listener (current : string) (current_level : nat)
    (st : state) (entry : string * listener) : state :=
  let '(listener_name, (condition_type, trigger_methods)) := entry in
  if decide (condition_type = "OR") then
    if decide (current ∈ trigger_methods)
    then propose listener_name current_level st
    else st
  else if decide (condition_type = "AND") then
    and_branch current current_level listener_name trigger_methods st
  else st.

(** The inner loop of the router part, for one [path]. *)
Definition process_path_listener (path : string) (current_level : nat)
    (st : state) (entry : string * listener) : state :=
  let '(listener_name, (_, trigger_methods)) := entry in
  if decide (path ∈ trigger_methods)
  then propose listener_name current_level st
  else st.

Definition process_path (f : flow) (current_level : nat)
    (st : state) (path : string) : state :=
  foldl (process_path_listener path current_level) st (_listeners f).

Definition router_part (f : flow) (current : string) (current_level : nat)
    (st : state) : state :=
  if decide (current ∈ _routers f)
  then foldl (process_path f current_level) st (get_or_empty (_router_paths f) current)
  else st.

(** [queue.pop(0)] and [visited.add(current)]. *)
Definition dequeue (current : string) (rest : list string) (st : state) : state :=
  {| levels := levels st; queue := rest;
     visited := visited st ∪ {[current]};
     pending_and_listeners := pending_and_listeners st |}.

Definition loop_body (f : flow) (current : string) (current_level : nat)
    (st : state) : state :=
  router_part f current current_level
    (foldl (process_listener current current_level) st (_listeners f)).

(** One iteration of [while queue:]; [None] when the queue is empty. *)
Definition step (f : flow) (st : state) : option (run state) :=
  match queue st with
  | [] => None
  | current :: rest =>
      Some match levels st !! current with
           | None => Raise (KeyError current)
           | Some current_level =>
               Done (loop_body f current current_level (dequeue current rest st))
           end
  end.

Fixpoint while_queue (fuel : nat) (f : flow) (st : state) : run state :=
  match step f st with
  | None => Done st
  | Some r =>
      match fuel with
      | 0 => OutOfFuel
      | S fuel' => st' ←ᵣ r; while_queue fuel' f st'
      end
  end.

(** The first loop: every start method gets level 0 and is enqueued. *)
Definition seed (st : state) (entry : string * method) : state :=
  if is_start_method entry.2
  then {| levels := <[entry.1 := 0]> (levels st);
          queue := queue st ++ [entry.1];
          visited := visited st;
          pending_and_listeners := pending_and_listeners st |}
  else st.

Definition empty_state : state :=
  {| levels := ∅; queue := []; visited := ∅; pending_and_listeners := ∅ |}.

Definition initial (f : flow) : state := foldl seed empty_state (_methods f).

Definition calculate_node_levels (fuel : nat) (f : flow) : run (gmap string nat) :=
  st ←ᵣ while_queue fuel f (initial f); Done (levels st).

(** Iterations of the loop that suffice for [f] (shown below). *)
Definition enough_fuel (f : flow) : nat :=
  length (_methods f) + length (_listeners f).

End Levels.

(** ** [count_outgoing_edges] *)

Module Counts.

(** [flow._listeners[method_name]]. *)
Fixpoint listener_item (d : list (string * listener)) (key : string) : run listener :=
  match d with
  | [] => Raise (KeyError key)
  | (k, v) :: d' => if decide (k = key) then Done v else listener_item d' key
  end.

(** [counts[trigger] += 1]. *)
Definition increment (trigger : string) (counts : gmap string nat) :
    run (gmap string nat) :=
  match counts !! trigger with
  | Some n => Done (<[trigger := n + 1]> counts)
  | None => Raise (KeyError trigger)
  end.

(** The loop over [trigger_methods]. *)
Definition count_triggers (f : flow) (counts : gmap string nat)
    (trigger_methods : list string) : run (gmap string nat) :=
  for_each (λ counts trigger,
    if decide (trigger ∈ method_names f) then increment trigger counts
    else Done counts) trigger_methods counts.

(** [for method_name in flow._methods: counts[method_name] = 0]. *)
Definition zero_counts (f : flow) : gmap string nat :=
  foldl (λ counts nm, <[nm.1 := 0]> counts) ∅ (_methods f).

Definition count_outgoing_edges (f : flow) : run (gmap string nat) :=
  for_each (λ counts method_name,
    entry ←ᵣ listener_item (_listeners f) method_name;
    count_triggers f counts entry.2)
    (listener_names f) (zero_counts f).

End Counts.

(** ** [build_ancestor_dict], [dfs_ancestors], [is_ancestor] *)

Module Ancestors.

Record state := {
  ancestors : gmap string (gset string);
  visited : gset string
}.

(** [ancestors[key]], which raises [KeyError] for a missing key. *)
Definition item (ancestors : gmap string (gset string)) (key : string) :
    run (gset string) :=
  match ancestors !! key with
  | Some s => Done s
  | None => Raise (KeyError key)
  end.

(** [ancestors[listener_name].add(node)]. *)
Definition add_node (listener_name node : string)
    (ancestors : gmap string (gset string)) : run (gmap string (gset string)) :=
  s ←ᵣ item ancestors listener_name;
  Done (<[listener_name := s ∪ {[node]}]> ancestors).

(** [ancestors[listener_name].update(ancestors[node])]; the receiver is
    evaluated before the argument. *)
Definition update_from (listener_name node : string)
    (ancestors : gmap string (gset string)) : run (gmap string (gset string)) :=
  s ←ᵣ item ancestors listener_name;
  sn ←ᵣ item ancestors node;
  Done (<[listener_name := s ∪ sn]> ancestors).

Definition with_ancestors (a : gmap string (gset string)) (st : state) : state :=
  {| ancestors := a; visited := visited st |}.

(** [fuel] is the number of nested calls of [dfs_ancestors] that the
    recursion limit of the interpreter still allows.  A call made when
    none is left raises [RecursionError] on entry, whatever its
    arguments; no caller catches it, so it ends the whole computation:
    this is the outcome [OutOfFuel]. *)
Fixpoint dfs_ancestors (fuel : nat) (f : flow) (node : string) (st : state) :
    run state :=
  match fuel with
  | 0 => OutOfFuel
  | S fuel' =>
      if decide (node ∈ visited st) then Done st else
      let st0 := {| ancestors := ancestors st; visited := visited st ∪ {[node]} |} in
      (* Handle regular listeners *)
      st1 ←ᵣ for_each (λ st (entry : string * listener),
               let '(listener_name, (_, trigger_methods)) := entry in
               if decide (node ∈ trigger_methods) then
                 a1 ←ᵣ add_node listener_name node (ancestors st);
                 a2 ←ᵣ update_from listener_name node a1;
                 dfs_ancestors fuel' f listener_name (with_ancestors a2 st)
               else Done st) (_listeners f) st0;
      (* Handle router methods separately *)
      if decide (node ∈ _routers f) then
        for_each (λ st path,
          for_each (λ st (entry : string * listener),
            let '(listener_name, (_, trigger_methods)) := entry in
            if decide (path ∈ trigger_methods) then
              a ←ᵣ update_from listener_name node (ancestors st);
              dfs_ancestors fuel' f listener_name (with_ancestors a st)
            else Done st) (_listeners f) st)
          (get_or_empty (_router_paths f) node) st1
      else Done st1
  end.

(** [{node: set() for node in flow._methods}]. *)
Definition empty_sets (f : flow) : gmap string (gset string) :=
  foldl (λ a nm, <[nm.1 := ∅]> a) ∅ (_methods f).

Definition build_ancestor_dict (fuel : nat) (f : flow) :
    run (gmap string (gset string)) :=
  st ←ᵣ for_each (λ st (nm : string * method),
          if decide (nm.1 ∈ visited st) then Done st
          else dfs_ancestors fuel f nm.1 st)
        (_methods f) {| ancestors := empty_sets f; visited := ∅ |};
  Done (ancestors st).

(** [ancestor_candidate in ancestors.get(node, set())]. *)
Definition is_ancestor (node ancestor_candidate : string)
    (ancestors : gmap string (gset string)) : bool :=
  bool_decide (ancestor_candidate ∈ default ∅ (ancestors !! node)).

(** Recursion depth that suffices for [f] (shown below): with this many
    nested calls allowed, [RecursionError] is not raised. *)
Definition enough_fuel (f : flow) : nat := S (length (_methods f)).

End Ancestors.

(** ** [build_parent_children_dict], [get_child_index] *)

(** The order of [list.sort()] on strings. *)
Definition string_le (s1 s2 : string) : Prop := String.leb s1 s2 = true.

#[global] Instance string_le_dec : RelDecision string_le.
Proof. intros s1 s2. unfold string_le. apply _. Defined.

Module Children.

(** The two statements
<<
    if parent not in parent_children: parent_children[parent] = []
    if child not in parent_children[parent]: parent_children[parent].append(child)
>> *)
Definition add_child (parent child : string)
    (parent_children : gmap string (list string)) : gmap string (list string) :=
  let created := match parent_children !! parent with
                 | None => <[parent := []]> parent_children
                 | Some _ => parent_children
                 end in
  match created !! parent with
  | Some children =>
      if decide (child ∈ children) then created
      else <[parent := children ++ [child]]> created
  | None => created
  end.

(** Map listeners to their trigger methods. *)
Definition add_listener (parent_children : gmap string (list string))
    (entry : string * listener) : gmap string (list string) :=
  let '(listener_name, (_, trigger_methods)) := entry in
  foldl (λ pc trigger, add_child trigger listener_name pc)
        parent_children trigger_methods.

(** Map router methods to the listeners of each of their paths. *)
Definition add_router (f : flow) (parent_children : gmap string (list string))
    (entry : string * list string) : gmap string (list string) :=
  let '(router_method_name, paths) := entry in
  foldl (λ pc path,
    foldl (λ pc (e : string * listener),
      let '(listener_name, (_, trigger_methods)) := e in
      if decide (path ∈ trigger_methods)
      then add_child router_method_name listener_name pc
      else pc) pc (_listeners f))
    parent_children paths.

Definition build_parent_children_dict (f : flow) : gmap string (list string) :=
  foldl (add_router f) (foldl add_listener ∅ (_listeners f)) (_router_paths f).

(** [list.index]: the position of the first occurrence. *)
Fixpoint index (child : string) (children : list string) : option nat :=
  match children with
  | [] => None
  | c :: children' =>
      if decide (c = child) then Some 0 else S <$> index child children'
  end.

(** [children.sort()]; the result of sorting a list of strings does not
    depend on the algorithm. *)
Definition sort (children : list string) : list string :=
  merge_sort string_le children.

(** Returns the result of the call and the map after it: the list stored
    for [parent] is sorted in place; for a missing [parent] the list that
    is sorted is a fresh one. *)
Definition get_child_index (parent child : string)
    (parent_children : gmap string (list string)) :
    run nat * gmap string (list string) :=
  let children := sort (default [] (parent_children !! parent)) in
  let parent_children' :=
    match parent_children !! parent with
    | Some _ => <[parent := children]> parent_children
    | None => parent_children
    end in
  (match index child children with
   | Some i => Done i
   | None => Raise ValueError
   end, parent_children').

End Children.

(** ** [get_possible_return_constants] *)

Module Outcomes.

(** The value of an [ast.Constant]. *)
Inductive constant :=
  | CStr (s : string)
  | CBytes (b : string)
  | CNum (n : Z)
  | CBool (b : bool)
  | CNone
  | CEllipsis.

(** The nodes of the syntax tree that the two visitors tell apart; every
    other node is [Other] with its child nodes in field order.  Child
    nodes are listed in the order in which [generic_visit] visits them. *)
Inductive node :=
  | Assign (targets : list node) (value : node)
  | Return (value : option node)
  | Dict (keys : list (option node)) (values : list node)
  | Constant (value : constant)
  | Name (id : string)
  | Subscript (value slice : node)
  | Other (children : list node).

(** [NodeVisitor.visit] for a visitor with one [visit_X] method that ends
    with [self.generic_visit(node)]: [handler] is the body of the method
    and acts on the nodes of its class only.  This is the traversal as it
    runs while the interpreter's recursion limit is not reached;
    [visit_within] below is the traversal under a limit. *)
Fixpoint visit {S : Type} (handler : node → S → S) (n : node) (s : S) : S :=
  let s := handler n s in
  match n with
  | Assign targets value =>
      visit handler value (foldl (λ s c, visit handler c s) s targets)
  | Return value =>
      match value with Some v => visit handler v s | None => s end
  | Dict keys values =>
      foldl (λ s c, visit handler c s)
        (foldl (λ s k, match k with Some k => visit handler k s | None => s end)
               s keys)
        values
  | Subscript v sl => visit handler sl (visit handler v s)
  | Other children => foldl (λ s c, visit handler c s) s children
  | Constant _ | Name _ => s
  end.

(** The loop over [node.value.values] in [visit_Assign]. *)
Definition string_values (values : list node) : list string :=
  omap (λ val, match val with Constant (CStr s) => Some s | _ => None end) values.

(** [DictionaryAssignmentVisitor.visit_Assign], before [generic_visit]. *)
Definition visit_Assign (n : node) (dict_definitions : gmap string (list string)) :
    gmap string (list string) :=
  match n with
  | Assign [Name var_name] (Dict _ values) =>
      match string_values values with
      | [] => dict_definitions
      | dict_values => <[var_name := dict_values]> dict_definitions
      end
  | _ => dict_definitions
  end.

(** [ReturnVisitor.visit_Return], before [generic_visit]. *)
Definition visit_Return (dict_definitions : gmap string (list string))
    (n : node) (return_values : gset string) : gset string :=
  match n with
  | Return (Some (Constant (CStr s))) => return_values ∪ {[s]}
  | Return (Some (Subscript (Name var_name) _)) =>
      match dict_definitions !! var_name with
      | Some dict_values => return_values ∪ list_to_set dict_values
      | None => return_values
      end
  | _ => return_values
  end.

(** The exceptions of Python, told apart as the [except] clauses of the
    extractor tell them apart.  [OSError], [IndentationError] and
    [SyntaxError] stand for the class and its subclasses (an
    [IndentationError] is a [SyntaxError], but is caught first);
    [OtherException] is any other subclass of [Exception], and
    [NonException] an exception outside [Exception], such as
    [KeyboardInterrupt], which [except Exception] does not catch. *)
Inductive error :=
  | OSError
  | IndentationError
  | SyntaxError
  | AttributeError
  | RecursionError
  | OtherException
  | NonException.

(** A call of the extractor, or of a function it calls, returns or
    raises. *)
Inductive outcome (A : Type) :=
  | Returns (a : A)
  | Raises (e : error).
Arguments Returns {A} a.
Arguments Raises {A} e.

Definition outcome_bind {A B} (m : outcome A) (k : A → outcome B) : outcome B :=
  match m with
  | Returns a => k a
  | Raises e => Raises e
  end.

Notation "x ←ₒ m ; k" := (outcome_bind m (λ x, k))
  (at level 100, m at next level, right associativity).

(** [for a in l: s = body(s, a)], stopping at the first exception. *)
Definition each {A T} (body : T → A → outcome T) : list A → T → outcome T :=
  fix go l s :=
    match l with
    | [] => Returns s
    | a :: l' => s' ←ₒ body s a; go l' s'
    end.

(** [NodeVisitor.visit] under the recursion limit of the interpreter.
    [visit], the [visit_X] method and [generic_visit] call each other
    once for every level of nesting of the tree; [limit] is the number of
    levels that the recursion limit still allows, and the call that would
    exceed it raises [RecursionError]. *)
Fixpoint visit_within {T : Type} (handler : node → T → T) (limit : nat)
    (n : node) (s : T) {struct n} : outcome T :=
  match limit with
  | 0 => Raises RecursionError
  | S limit' =>
      let s := handler n s in
      match n with
      | Assign targets value =>
          s ←ₒ each (λ s c, visit_within handler limit' c s) targets s;
          visit_within handler limit' value s
      | Return value =>
          match value with
          | Some v => visit_within handler limit' v s
          | None => Returns s
          end
      | Dict keys values =>
          s ←ₒ each (λ s k, match k with
                            | Some k => visit_within handler limit' k s
                            | None => Returns s
                            end) keys s;
          each (λ s c, visit_within handler limit' c s) values s
      | Subscript v sl =>
          s ←ₒ visit_within handler limit' v s;
          visit_within handler limit' sl s
      | Other children => each (λ s c, visit_within handler limit' c s) children s
      | Constant _ | Name _ => Returns s
      end
  end.

Definition newline : string := String (ascii_of_nat 10) EmptyString.

Section extractor.
(** The environment of the function: the object passed to it with its
    attribute [__name__] (reading it may raise, [AttributeError] for an
    object without a name), [inspect.getsource], [textwrap.dedent],
    [ast.parse] and [print], each of which returns or raises, the text
    [show e] that an f-string gives for the exception [e], and the depth
    [recursion_limit] of nesting that the recursion limit allows to the
    two visitors. *)
Variable Function : Type.
Variable getsource : Function → outcome string.
Variable name : Function → outcome string.
Variable dedent : string → outcome string.
Variable parse : string → outcome node.
Variable print : string → outcome unit.
Variable show : error → string.
Variable recursion_limit : nat.

(** The handlers of the first [try]: [except OSError] returns [None];
    [except Exception as e] prints a message built from
    [function.__name__] and returns [None]; any other exception is not
    caught. *)
Definition retrieval_failed (function : Function) (e : error) :
    outcome (option (list string)) :=
  match e with
  | OSError => Returns None
  | NonException => Raises e
  | _ =>
      n ←ₒ name function;
      _ ←ₒ print ("Error retrieving source code for function " ++ n ++ ": "
                   ++ show e);
      Returns None
  end.

(** The handlers of the second [try], which differ in the first message
    only; [source] is the text as it is when the exception is raised. *)
Definition parsing_message (e : error) : string :=
  match e with
  | IndentationError => "IndentationError while parsing source code of "
  | SyntaxError => "SyntaxError while parsing source code of "
  | _ => "Unexpected error while parsing source code of "
  end.

Definition parsing_failed (function : Function) (source : string) (e : error) :
    outcome (option (list string)) :=
  match e with
  | NonException => Raises e
  | _ =>
      n ←ₒ name function;
      _ ←ₒ print (parsing_message e ++ n ++ ": " ++ show e);
      _ ←ₒ print ("Source code:" ++ newline ++ source);
      Returns None
  end.

(** The two passes and the result; they are outside the [try] blocks.
    The list returned enumerates the set [return_values]; Python fixes no
    order for it. *)
Definition scan (code_ast : node) : outcome (option (list string)) :=
  (* First pass: identify dictionary assignments *)
  dict_definitions ←ₒ visit_within visit_Assign recursion_limit code_ast ∅;
  (* Second pass: identify returns *)
  return_values ←ₒ
    visit_within (visit_Return dict_definitions) recursion_limit code_ast ∅;
  Returns (if decide (return_values = ∅) then None
           else Some (elements return_values)).

Definition get_possible_return_constants (function : Function) :
    outcome (option (list string)) :=
  match getsource function with
  | Raises e => retrieval_failed function e
  | Returns source =>
      match dedent source with
      | Raises e => parsing_failed function source e
      | Returns source =>
          match parse source with
          | Raises e => parsing_failed function source e
          | Returns code_ast => scan code_ast
          end
      end
  end.
End extractor.

(** All nodes of a tree, in the order in which a visitor meets them. *)
Fixpoint walk (n : node) : list node :=
  n :: match n with
       | Assign targets value => concat (map walk targets) ++ walk value
       | Return value => match value with Some v => walk v | None => [] end
       | Dict keys values =>
           concat (map (λ k, match k with Some k => walk k | None => [] end) keys)
           ++ concat (map walk values)
       | Subscript v sl => walk v ++ walk sl
       | Other children => concat (map walk children)
       | Constant _ | Name _ => []
       end.

(** The depth of nesting of a tree: 1 for a node without child nodes. *)
Fixpoint depth (n : node) : nat :=
  S match n with
    | Assign targets value => max_list (map depth targets) `max` depth value
    | Return value => match value with Some v => depth v | None => 0 end
    | Dict keys values =>
        max_list (map (λ k, match k with Some k => depth k | None => 0 end) keys)
        `max` max_list (map depth values)
    | Subscript v sl => depth v `max` depth sl
    | Other children => max_list (map depth children)
    | Constant _ | Name _ => 0
    end.

End Outcomes.

(** * Sample inputs *)

Definition start : method := {| is_start_method := true |}.
Definition plain : method := {| is_start_method := false |}.

(** The end-to-end example of the specification: entry points [A] and [C],
    [B] listens to [A], [D] listens to [B] and [C] (AND). *)
Definition flow_example : flow :=
  {| _methods := [("A", start); ("C", start); ("B", plain); ("D", plain)];
     _listeners := [("B", ("OR", ["A"])); ("D", ("AND", ["B"; "C"]))];
     _routers := ∅;
     _router_paths := [] |}.

(** [levels.get(name)] on the outcome of [calculate_node_levels]. *)
Definition level_of (r : run (gmap string nat)) (name : string) : option nat :=
  match r with Done lv => lv !! name | _ => None end.

(** [A] starts, [B] listens to [A], [C] listens to [B]; the class body
    defines the listener [B] before the start method [A]. *)
Definition flow_listener_first : flow :=
  {| _methods := [("B", plain); ("A", start); ("C", plain)];
     _listeners := [("B", ("OR", ["A"])); ("C", ("OR", ["B"]))];
     _routers := ∅;
     _router_paths := [] |}.

(** The same flow with the methods in dependency order. *)
Definition flow_start_first : flow :=
  {| _methods := [("A", start); ("B", plain); ("C", plain)];
     _listeners := [("B", ("OR", ["A"])); ("C", ("OR", ["B"]))];
     _routers := ∅;
     _router_paths := [] |}.

(** Two start methods [A] and [A2]; [B] listens to either, [C] listens to
    [B]; the methods are in dependency order. *)
Definition flow_two_starts : flow :=
  {| _methods := [("A", start); ("A2", start); ("B", plain); ("C", plain)];
     _listeners := [("B", ("OR", ["A"; "A2"])); ("C", ("OR", ["B"]))];
     _routers := ∅;
     _router_paths := [] |}.

(** A router [R] with the path [p]; [L] listens to [p]. *)
Definition flow_routed : flow :=
  {| _methods := [("A", start); ("R", plain); ("L", plain)];
     _listeners := [("R", ("OR", ["A"])); ("L", ("OR", ["p"]))];
     _routers := {["R"]};
     _router_paths := [("R", ["p"])] |}.

(** As [flow_routed], but [L] listens to the path [p] or to [R] itself. *)
Definition flow_router_named : flow :=
  {| _methods := [("A", start); ("R", plain); ("L", plain)];
     _listeners := [("R", ("OR", ["A"])); ("L", ("OR", ["p"; "R"]))];
     _routers := {["R"]};
     _router_paths := [("R", ["p"])] |}.

(** The listener [L] has a trigger, [ghost], that is no method, no
    listener and no router path. *)
Definition flow_ghost : flow :=
  {| _methods := [("A", start); ("L", plain)];
     _listeners := [("L", ("OR", ["A"; "ghost"]))];
     _routers := ∅;
     _router_paths := [] |}.

(** [L] waits for the path [p] of the router [R] AND for [B], which is
    never triggered. *)
Definition flow_and_path : flow :=
  {| _methods := [("A", start); ("R", plain); ("L", plain); ("B", plain)];
     _listeners := [("R", ("OR", ["A"])); ("L", ("AND", ["p"; "B"]))];
     _routers := {["R"]};
     _router_paths := [("R", ["p"])] |}.

(** [L] waits for the paths [q] and [p] of the routers [R0], of level 1,
    and [R], of level 3, AND for [B], which is never triggered. *)
Definition flow_two_routers : flow :=
  {| _methods := [("A", start); ("R0", plain); ("X", plain); ("Y", plain);
                  ("R", plain); ("L", plain); ("B", plain)];
     _listeners := [("R0", ("OR", ["A"])); ("X", ("OR", ["A"]));
                    ("Y", ("OR", ["X"])); ("R", ("OR", ["Y"]));
                    ("L", ("AND", ["p"; "q"; "B"]))];
     _routers := {["R0"; "R"]};
     _router_paths := [("R0", ["q"]); ("R", ["p"])] |}.

(** [L] listens to the path [p] of the router [R] OR to [Y], two levels
    below [R]. *)
Definition flow_or_path : flow :=
  {| _methods := [("A", start); ("R", plain); ("X", plain); ("Y", plain);
                  ("L", plain)];
     _listeners := [("R", ("OR", ["A"])); ("X", ("OR", ["R"]));
                    ("Y", ("OR", ["X"])); ("L", ("OR", ["p"; "Y"]))];
     _routers := {["R"]};
     _router_paths := [("R", ["p"])] |}.

(** A start method [S] that also listens to the start method [A]. *)
Definition flow_start_listener (condition_type : string) : flow :=
  {| _methods := [("A", start); ("S", start)];
     _listeners := [("S", (condition_type, ["A"]))];
     _routers := ∅;
     _router_paths := [] |}.

(** Triggers of an AND-listener at levels 1 and 2. *)
Definition flow_join : flow :=
  {| _methods := [("A", start); ("B", plain); ("C", plain); ("D", plain)];
     _listeners := [("B", ("OR", ["A"])); ("C", ("OR", ["B"]));
                    ("D", ("AND", ["B"; "C"]))];
     _routers := ∅;
     _router_paths := [] |}.

(** An AND-listener, [L], without any trigger. *)
Definition flow_and_empty : flow :=
  {| _methods := [("A", start); ("L", plain)];
     _listeners := [("L", ("AND", []))];
     _routers := ∅;
     _router_paths := [] |}.

(** The listener [L] of the start method [A] is not in [_methods]. *)
Definition flow_unregistered : flow :=
  {| _methods := [("A", start)];
     _listeners := [("L", ("OR", ["A"]))];
     _routers := ∅;
     _router_paths := [] |}.

(** [is_ancestor] on the outcome of [build_ancestor_dict]. *)
Definition ancestor_query (r : run (gmap string (gset string)))
    (node ancestor_candidate : string) : option bool :=
  match r with
  | Done anc => Some (Ancestors.is_ancestor node ancestor_candidate anc)
  | _ => None
  end.

(** [n] iterations of the loop, [None] if the queue runs empty before. *)
Fixpoint steps (n : nat) (f : flow) (st : Levels.state) : option Levels.state :=
  match n with
  | 0 => Some st
  | S n' =>
      match Levels.step f st with
      | Some (Done st') => steps n' f st'
      | _ => None
      end
  end.

(** [def route(self): return "done"]. *)
Definition body_literal : Outcomes.node :=
  Outcomes.Other [Outcomes.Other
    [Outcomes.Return (Some (Outcomes.Constant (Outcomes.CStr "done")))]].

(** [paths = {"x": "go", "y": "stop"}; return paths[result]]. *)
Definition body_dictionary : Outcomes.node :=
  Outcomes.Other [Outcomes.Other
    [Outcomes.Assign [Outcomes.Name "paths"]
       (Outcomes.Dict
          [Some (Outcomes.Constant (Outcomes.CStr "x"));
           Some (Outcomes.Constant (Outcomes.CStr "y"))]
          [Outcomes.Constant (Outcomes.CStr "go");
           Outcomes.Constant (Outcomes.CStr "stop")]);
     Outcomes.Return
       (Some (Outcomes.Subscript (Outcomes.Name "paths") (Outcomes.Name "result")))]].

(** [return 1]. *)
Definition body_number : Outcomes.node :=
  Outcomes.Other [Outcomes.Other
    [Outcomes.Return (Some (Outcomes.Constant (Outcomes.CNum 1)))]].

(** The extractor in an environment where [inspect.getsource] has the
    outcome [retrieved], [function.__name__] the outcome [named], parsing
    gives [tree], printing succeeds and the visitors may descend [limit]
    levels. *)
Definition extract_in (retrieved named : Outcomes.outcome string) (limit : nat)
    (tree : Outcomes.node) : Outcomes.outcome (option (list string)) :=
  Outcomes.get_possible_return_constants unit
    (λ _, retrieved) (λ _, named) Outcomes.Returns (λ _, Outcomes.Returns tree)
    (λ _, Outcomes.Returns tt) (λ _, "error") limit tt.

(** The extractor applied to a tree that was retrieved and parsed, with
    room for 100 levels of nesting. *)
Definition extract (tree : Outcomes.node) : Outcomes.outcome (option (list string)) :=
  extract_in (Outcomes.Returns EmptyString) (Outcomes.Returns "route") 100 tree.

(** The list returned, if any. *)
Definition returned (r : Outcomes.outcome (option (list string))) : list string :=
  match r with Outcomes.Returns (Some l) => l | _ => [] end.

(** * Invariants and specifications *)

(** ** The breadth-first loop *)

Section levels_specification.
Import Levels.
Variable f : flow.

(** The invariant while the step [current], of level [c], is processed:
    no level exceeds [c + 1], the steps already dequeued have level at
    most [c], and the queue holds steps of level [c] followed by steps
    of level [c + 1]. *)
Record frontier (c : nat) (st : state) : Prop := {
  fr_bound : ∀ x l, levels st !! x = Some l → l ≤ c + 1;
  fr_visited : ∀ v, v ∈ visited st → ∃ l, levels st !! v = Some l ∧ l ≤ c;
  fr_queue : ∃ qa qb, queue st = qa ++ qb ∧
    Forall (λ q, levels st !! q = Some c) qa ∧
    Forall (λ q, levels st !! q = Some (c + 1)) qb;
  fr_tracked : ∀ x, is_Some (levels st !! x) → x ∈ queue st ∨ x ∈ visited st;
  fr_dom : ∀ x, is_Some (levels st !! x) →
    x ∈ start_methods f ∨ x ∈ listener_names f;
  fr_start : ∀ x, x ∈ start_methods f → levels st !! x = Some 0
}.

(** What a round of an inner loop may change: levels are only added,
    the queue is only appended to, accumulators only grow. *)
Record extends (st st' : state) : Prop := {
  ex_levels : levels st ⊆ levels st';
  ex_visited : visited st' = visited st;
  ex_queue : ∃ q, queue st' = queue st ++ q ∧
    ∀ y, y ∈ q → levels st !! y = None ∧ is_Some (levels st' !! y);
  ex_pending : ∀ x P, pending_and_listeners st !! x = Some P →
    ∃ P', pending_and_listeners st' !! x = Some P' ∧ P ⊆ P'
}.

(** The termination measure: queued steps plus listener entries whose
    name has no level yet. *)
Definition unassigned (st : state) : nat :=
  length (filter (λ e, levels st !! e.1 = None) (_listeners f)).
Definition measure (st : state) : nat := length (queue st) + unassigned st.

(** The accumulator after the first two statements of the AND branch. *)
Definition recorded (current name : string) (trigger_methods : list string)
    (p0 : gmap string (gset string)) : gmap string (gset string) :=
  let p1 := match p0 !! name with
            | None => <[name := ∅]> p0
            | Some _ => p0
            end in
  if decide (current ∈ trigger_methods)
  then alter (λ s, s ∪ {[current]}) name p1
  else p1.

(** The states at the head of the [while] loop. *)
Inductive reachable : state → Prop :=
  | reachable_initial : reachable (initial f)
  | reachable_step st st' :
      reachable st → step f st = Some (Done st') → reachable st'.
End levels_specification.

(** ** Where a level comes from *)

(** [cause f lv s ls e]: the dequeued step [s], of level [ls], makes the
    loop body propose a level for the listener entry [e]. *)
Inductive cause (f : flow) (lv : gmap string nat) (s : string) (ls : nat) :
    listener → Prop :=
  | cause_or ts : s ∈ ts → cause f lv s ls ("OR", ts)
  | cause_and ts :
      s ∈ ts ∨ ts = [] →
      (∀ t, t ∈ ts → ∃ lt, lv !! t = Some lt ∧ lt ≤ ls) →
      cause f lv s ls ("AND", ts)
  | cause_router ct ts p :
      s ∈ _routers f → p ∈ get_or_empty (_router_paths f) s → p ∈ ts →
      cause f lv s ls (ct, ts).

(** The level [l] of [x] is 0 for a start method, or one more than the
    level of a dequeued step that caused it. *)
Definition origin (f : flow) (lv : gmap string nat) (vis : gset string)
    (x : string) (l : nat) : Prop :=
  (x ∈ start_methods f ∧ l = 0) ∨
  ∃ s ls e, (x, e) ∈ _listeners f ∧ s ∈ vis ∧ lv !! s = Some ls ∧
            l = ls + 1 ∧ cause f lv s ls e.

(** Every level has an origin; an accumulator holds dequeued triggers of
    its listener only; a listener whose accumulator is complete has a
    level. *)
Record history (f : flow) (st : Levels.state) : Prop := {
  hi_origin : ∀ x l, Levels.levels st !! x = Some l →
    origin f (Levels.levels st) (Levels.visited st) x l;
  hi_pending : ∀ x e P, (x, e) ∈ _listeners f →
    Levels.pending_and_listeners st !! x = Some P →
    P ⊆ list_to_set e.2 ∩ Levels.visited st;
  hi_satisfied : ∀ x e, (x, e) ∈ _listeners f →
    Levels.pending_and_listeners st !! x = Some (list_to_set e.2) →
    is_Some (Levels.levels st !! x)
}.

(** The step being processed. *)
Definition processing (current : string) (c : nat) (st : Levels.state) : Prop :=
  current ∈ Levels.visited st ∧ Levels.levels st !! current = Some c.

(** [s], once dequeued, has given [x] a level of at most its own plus one. *)
Definition leveled_after (lv : gmap string nat) (s x : string) : Prop :=
  ∃ l ls, lv !! x = Some l ∧ lv !! s = Some ls ∧ l ≤ ls + 1.

(** At the head of the loop every dequeued step has been propagated to
    all the listeners it triggers. *)
Record complete (f : flow) (st : Levels.state) : Prop := {
  co_or : ∀ x ts s, (x, ("OR", ts)) ∈ _listeners f →
    s ∈ Levels.visited st → s ∈ ts → leveled_after (Levels.levels st) s x;
  co_router : ∀ x e s p, (x, e) ∈ _listeners f →
    s ∈ Levels.visited st → s ∈ _routers f →
    p ∈ get_or_empty (_router_paths f) s → p ∈ e.2 →
    leveled_after (Levels.levels st) s x;
  co_pending : ∀ x ts s, (x, ("AND", ts)) ∈ _listeners f →
    s ∈ Levels.visited st → s ∈ ts →
    ∃ P, Levels.pending_and_listeners st !! x = Some P ∧ s ∈ P
}.

Section levels_rounds_specification.
Import Levels.
Variable f : flow.

(** The three facts every round of an inner loop keeps. *)
Definition keeps (c : nat) (st st' : state) : Prop :=
  frontier f c st' ∧ extends st st' ∧ measure f st' ≤ measure f st.

(** What the listener loop has done for the entry [e] when [current] is
    one of its triggers. *)
Definition listener_served (current : string) (e : string * listener)
    (st : state) : Prop :=
  current ∈ e.2.2 →
  (e.2.1 = "OR" → is_Some (levels st !! e.1)) ∧
  (e.2.1 = "AND" → ∃ P, pending_and_listeners st !! e.1 = Some P ∧ current ∈ P).

(** What the router loop has done for the entry [e] when [path] is one of
    its triggers. *)
Definition path_served (path : string) (e : string * listener) (st : state) : Prop :=
  path ∈ e.2.2 → is_Some (levels st !! e.1).

(** The invariant of the two inner loops while [current] is processed. *)
Definition mid (current : string) (c : nat) (st : state) : Prop :=
  frontier f c st ∧ history f st ∧ processing current c st.
End levels_rounds_specification.

(** [s] fires a listener with triggers [ts]: it is one of the triggers, or
    it is a router one of whose paths is. *)
Definition fires (f : flow) (s : string) (ts : list string) : Prop :=
  s ∈ ts ∨ (s ∈ _routers f ∧ ∃ p, p ∈ get_or_empty (_router_paths f) s ∧ p ∈ ts).

(** The greatest level among [ts] (0 for an empty list). *)
Definition max_level (lv : gmap string nat) (ts : list string) : nat :=
  foldr (λ t m, default 0 (lv !! t) `max` m) 0 ts.

(** The level and the accumulator of [x] are the same in both states. *)
Definition same_at (x : string) (st st' : Levels.state) : Prop :=
  Levels.levels st' !! x = Levels.levels st !! x ∧
  Levels.pending_and_listeners st' !! x = Levels.pending_and_listeners st !! x.

(** Every AND-listener has at least one trigger. *)
Definition and_listeners_have_triggers (f : flow) : Prop :=
  Forall (λ e : string * listener, e.2.1 = "AND" → e.2.2 ≠ []) (_listeners f).

(** Every listener is an OR-listener. *)
Definition or_listeners_only (f : flow) : Prop :=
  Forall (λ e : string * listener, e.2.1 = "OR") (_listeners f).

(** ** The ancestor propagation *)

(** [y] is directly upstream of [x]: [x] listens to [y] or to a path of
    the router [y]. *)
Definition edge (f : flow) (y x : string) : Prop :=
  ∃ ct ts, (x, (ct, ts)) ∈ _listeners f ∧ fires f y ts.

(** The listener [y] has the name [a] itself among its triggers. *)
Definition names_trigger (f : flow) (a y : string) : Prop :=
  ∃ ct ts, (y, (ct, ts)) ∈ _listeners f ∧ a ∈ ts.

(** The names on which [dfs_ancestors] is called. *)
Definition known (f : flow) (node : string) : Prop :=
  node ∈ method_names f ∨ node ∈ listener_names f.

(** Every element of an ancestor set is a known step that some listener
    names as a trigger, that listener being the owner of the set or
    upstream of it; the keys are the methods. *)
Record sound (f : flow) (anc : gmap string (gset string)) : Prop := {
  so_elem : ∀ x S a, anc !! x = Some S → a ∈ S →
    known f a ∧ ∃ y, names_trigger f a y ∧ rtc (edge f) y x;
  so_keys : ∀ x, is_Some (anc !! x) → x ∈ method_names f
}.

(** The state in which no [KeyError] can occur. *)
Record ready (f : flow) (st : Ancestors.state) : Prop := {
  re_keys : ∀ x, x ∈ method_names f → is_Some (Ancestors.ancestors st !! x);
  re_visited : Ancestors.visited st ⊆ list_to_set (method_names f)
}.

(** Every method is a key of the ancestor map. *)
Definition methods_present (f : flow) (anc : gmap string (gset string)) : Prop :=
  ∀ x, x ∈ method_names f → is_Some (anc !! x).

(** The ancestor map and the visited set only grow. *)
Definition grows (st st' : Ancestors.state) : Prop :=
  Ancestors.visited st ⊆ Ancestors.visited st' ∧
  ∀ x S, Ancestors.ancestors st !! x = Some S →
    ∃ S', Ancestors.ancestors st' !! x = Some S' ∧ S ⊆ S'.

(** The step [a] has been propagated to the listeners it fires: each of
    them is a key, and those that name [a] have it in their set. *)
Definition propagated (f : flow) (a : string)
    (anc : gmap string (gset string)) : Prop :=
  ∀ x ct ts, (x, (ct, ts)) ∈ _listeners f →
    (fires f a ts → is_Some (anc !! x)) ∧
    (a ∈ ts → ∃ S, anc !! x = Some S ∧ a ∈ S).

(** The listener [k] is fired by a method but is not itself a method. *)
Definition unregistered_fired (f : flow) (k : string) : Prop :=
  (k ∉ method_names f) ∧
  ∃ ct ts node, (k, (ct, ts)) ∈ _listeners f ∧ node ∈ method_names f ∧
                fires f node ts.

(** The keys of the ancestor map are the methods. *)
Definition keys_are_methods (f : flow) (anc : gmap string (gset string)) : Prop :=
  ∀ x, is_Some (anc !! x) ↔ x ∈ method_names f.

(** The map returned by [build_ancestor_dict], empty if it did not return. *)
Definition ancestors_of (r : run (gmap string (gset string))) :
    gmap string (gset string) :=
  match r with Done anc => anc | _ => ∅ end.

(** ** The outgoing-edge counts *)

(** The number of occurrences of [m] in a trigger list, and in all the
    trigger lists of a list of listener entries. *)
Definition occurrences (m : string) (ts : list string) : nat :=
  length (filter (λ t, t = m) ts).

Definition total_occurrences (m : string) (es : list (string * listener)) : nat :=
  foldr (λ e n, occurrences m e.2.2 + n) 0 es.

(** The keys of [counts] are the methods. *)
Definition counts_methods (f : flow) (counts : gmap string nat) : Prop :=
  ∀ x, is_Some (counts !! x) ↔ x ∈ method_names f.

(** ** The parent-children map *)

(** [child] is in the list stored for [parent]. *)
Definition has_child (parent child : string) (pc : gmap string (list string)) : Prop :=
  ∃ cs, pc !! parent = Some cs ∧ child ∈ cs.

(** ** The outcome extractor *)

(** [n] assigns to the single name [var] a dictionary literal, with the
    values [values], at least one of which is a string literal. *)
Definition binds (n : Outcomes.node) (var : string)
    (values : list Outcomes.node) : Prop :=
  ∃ keys,
    n = Outcomes.Assign [Outcomes.Name var] (Outcomes.Dict keys values) ∧
    ∃ s, Outcomes.Constant (Outcomes.CStr s) ∈ values.

(** The binding of [var] that the first pass records: the last one met. *)
Definition recorded_binding (tree : Outcomes.node) (var : string)
    (values : list Outcomes.node) : Prop :=
  ∃ l1 n l2, Outcomes.walk tree = l1 ++ n :: l2 ∧ binds n var values ∧
             ∀ m values', m ∈ l2 → ¬ binds m var values'.

(** [s] is contributed by a return statement of [tree]: a returned string
    literal, or a string literal among the values of the recorded
    dictionary that a return subscripts. *)
Definition contributes (tree : Outcomes.node) (s : string) : Prop :=
  ∃ n, n ∈ Outcomes.walk tree ∧
    (n = Outcomes.Return (Some (Outcomes.Constant (Outcomes.CStr s))) ∨
     ∃ var sl values,
       n = Outcomes.Return (Some (Outcomes.Subscript (Outcomes.Name var) sl)) ∧
       recorded_binding tree var values ∧
       Outcomes.Constant (Outcomes.CStr s) ∈ values).


Section outcomes_specification.
Import Outcomes.

(** The binding that [visit_Assign] records for a node, if any. *)
Definition binding_of (n : node) : option (string * list string) :=
  match n with
  | Assign [Name var_name] (Dict _ values) =>
      match string_values values with
      | [] => None
      | dict_values => Some (var_name, dict_values)
      end
  | _ => None
  end.
End outcomes_specification.

(** Induction on syntax trees, with the induction hypothesis for the
    nodes nested in lists and options. *)
Section node_induction.
Import Outcomes.
Variable P : node → Prop.
Hypothesis P_Assign : ∀ targets value,
  Forall P targets → P value → P (Assign targets value).
Hypothesis P_Return : ∀ value, from_option P True value → P (Return value).
Hypothesis P_Dict : ∀ keys values,
  Forall (from_option P True) keys → Forall P values → P (Dict keys values).
Hypothesis P_Constant : ∀ value, P (Constant value).
Hypothesis P_Name : ∀ id, P (Name id).
Hypothesis P_Subscript : ∀ value slice, P value → P slice → P (Subscript value slice).
Hypothesis P_Other : ∀ children, Forall P children → P (Other children).

Fixpoint node_nested_ind (n : node) : P n :=
  let all := fix all (l : list node) : Forall P l :=
    match l with
    | [] => List.Forall_nil P
    | c :: l' => List.Forall_cons P c l' (node_nested_ind c) (all l')
    end in
  let optional := λ (o : option node),
    match o return from_option P True o with
    | Some v => node_nested_ind v
    | None => I
    end in
  match n with
  | Assign targets value => P_Assign targets value (all targets) (node_nested_ind value)
  | Return value => P_Return value (optional value)
  | Dict keys values =>
      P_Dict keys values
        ((fix all_keys (l : list (option node)) : Forall (from_option P True) l :=
            match l with
            | [] => List.Forall_nil _
            | k :: l' => List.Forall_cons _ k l' (optional k) (all_keys l')
            end) keys)
        (all values)
  | Constant value => P_Constant value
  | Name id => P_Name id
  | Subscript value slice =>
      P_Subscript value slice (node_nested_ind value) (node_nested_ind slice)
  | Other children => P_Other children (all children)
  end.
End node_induction.

(** [child] listens to [parent]: to its name, or to a path that
    [flow._router_paths] lists for it. *)
Definition is_child_of (f : flow) (parent child : string) : Prop :=
  ∃ ct ts, (child, (ct, ts)) ∈ _listeners f ∧
    (parent ∈ ts ∨
     ∃ paths path, (parent, paths) ∈ _router_paths f ∧ path ∈ paths ∧ path ∈ ts).

(** The lists of a parent-children map are non-empty, free of duplicates
    and hold children only. *)
Definition children_sound (f : flow) (pc : gmap string (list string)) : Prop :=
  ∀ p cs, pc !! p = Some cs →
    NoDup cs ∧ cs ≠ [] ∧ ∀ c, c ∈ cs → is_child_of f p c.

(** Decidable closed goals. *)
Ltac by_computation := apply (bool_decide_unpack _); vm_compute; exact I.

(** * Proofs *)

(** ** Sample runs *)

Example flow_example_levels :
  let r := Levels.calculate_node_levels (Levels.enough_fuel flow_example) flow_example in
  level_of r "A" = Some 0 ∧ level_of r "C" = Some 0 ∧
  level_of r "B" = Some 1 ∧ level_of r "D" = Some 2.
Proof. vm_compute. done. Qed.

Example flow_join_levels :
  let r := Levels.calculate_node_levels (Levels.enough_fuel flow_join) flow_join in
  level_of r "B" = Some 1 ∧ level_of r "C" = Some 2 ∧ level_of r "D" = Some 3.
Proof. by vm_compute. Qed.

(** ** Auxiliary facts on lists and maps *)

Section list_facts.
Context {A : Type}.

Lemma foldl_invariant {S} (I : S → Prop) (g : S → A → S) (l : list A) (s : S) :
  I s → (∀ s a, a ∈ l → I s → I (g s a)) → I (foldl g s l).
Proof.
  revert s. induction l as [|a l IH]; intros s Hs Hg; simpl; [done|].
  apply IH.
  - apply Hg; [left | done].
  - intros s' a' Ha'. apply Hg. by right.
Qed.

(** Every element of the list gets its postcondition [Q], provided later
    rounds keep it. *)
Lemma foldl_establish {S} (I : S → Prop) (Q : A → S → Prop)
    (g : S → A → S) (l : list A) (s : S) :
  I s →
  (∀ s a, a ∈ l → I s → I (g s a)) →
  (∀ s a, a ∈ l → I s → Q a (g s a)) →
  (∀ s a b, b ∈ l → I s → Q a s → Q a (g s b)) →
  ∀ a, a ∈ l → Q a (foldl g s l).
Proof.
  revert s. induction l as [|b l IH]; intros s Hs HI HQ Hkeep a Ha.
  { by apply elem_of_nil in Ha. }
  simpl. apply elem_of_cons in Ha as [->|Ha].
  - apply (foldl_invariant (λ s, I s ∧ Q b s)).
    + split; [apply HI | apply HQ]; (done || left).
    + intros s' a' Ha' [??]. split; [apply HI | apply Hkeep]; (done || by right).
  - apply IH; try done.
    + apply HI; [left | done].
    + intros ????. apply HI; [by right | done].
    + intros ????. apply HQ; [by right | done].
    + intros ??????. apply Hkeep; [by right | done | done].
Qed.

Lemma filter_length_le (P Q : A → Prop) `{∀ x, Decision (P x)}
    `{∀ x, Decision (Q x)} (l : list A) :
  (∀ x, x ∈ l → Q x → P x) → length (filter Q l) ≤ length (filter P l).
Proof.
  induction l as [|x l IH]; intros HPQ; [done|].
  assert (length (filter Q l) ≤ length (filter P l)) as Hle.
  { apply IH. intros y Hy. apply HPQ. by right. }
  rewrite !filter_cons.
  destruct (decide (Q x)) as [HQ|HQ]; destruct (decide (P x)) as [HP|HP];
    simpl; try lia.
  exfalso. apply HP, HPQ; [left | done].
Qed.

Lemma filter_length_lt (P Q : A → Prop) `{∀ x, Decision (P x)}
    `{∀ x, Decision (Q x)} (l : list A) (a : A) :
  (∀ x, x ∈ l → Q x → P x) → a ∈ l → P a → ¬ Q a →
  length (filter Q l) < length (filter P l).
Proof.
  induction l as [|x l IH]; intros HPQ Ha HPa HQa.
  { by apply elem_of_nil in Ha. }
  assert (length (filter Q l) ≤ length (filter P l)) as Hle.
  { apply filter_length_le. intros y Hy. apply HPQ. by right. }
  rewrite !filter_cons.
  apply elem_of_cons in Ha as [<-|Ha].
  - destruct (decide (Q a)); [done|].
    destruct (decide (P a)); [simpl; lia | done].
  - assert (length (filter Q l) < length (filter P l)) as Hlt.
    { apply IH; try done. intros y Hy. apply HPQ. by right. }
    destruct (decide (Q x)) as [HQ|HQ]; destruct (decide (P x)) as [HP|HP];
      simpl; try lia.
    exfalso. apply HP, HPQ; [left | done].
Qed.
End list_facts.

Lemma lookup_insert_fresh {V} (m : gmap string V) (k x : string) (v w : V) :
  m !! k = None → m !! x = Some v → <[k := w]> m !! x = Some v.
Proof. intros Hk Hx. rewrite lookup_insert_ne; [done | congruence]. Qed.

Lemma get_or_empty_elem (d : list (string * list string)) (key p : string) :
  p ∈ get_or_empty d key → ∃ ps, (key, ps) ∈ d ∧ p ∈ ps.
Proof.
  induction d as [|[k v] d IH]; simpl; intros Hp.
  { by apply elem_of_nil in Hp. }
  case_decide as Hk.
  - subst k. exists v. split; [left | done].
  - destruct (IH Hp) as (ps & ? & ?). exists ps. split; [by right | done].
Qed.

(** ** The breadth-first loop: levels are written once, in level order *)

Section levels_frontier.
Import Levels.
Variable f : flow.

Lemma extends_refl st : extends st st.
Proof.
  split; [done | done | |].
  - exists []. rewrite app_nil_r. split; [done|]. intros y Hy. by apply elem_of_nil in Hy.
  - intros x P HP. by exists P.
Qed.

Lemma extends_trans st1 st2 st3 : extends st1 st2 → extends st2 st3 → extends st1 st3.
Proof.
  intros H12 H23. split.
  - etrans; [apply H12 | apply H23].
  - rewrite (ex_visited _ _ H23). apply H12.
  - destruct (ex_queue _ _ H12) as (q1 & Hq1 & Hnew1).
    destruct (ex_queue _ _ H23) as (q2 & Hq2 & Hnew2).
    exists (q1 ++ q2). split; [by rewrite Hq2, Hq1, app_assoc|].
    intros y Hy. apply elem_of_app in Hy as [Hy|Hy].
    + destruct (Hnew1 y Hy) as [? [l Hl]]. split; [done|]. exists l.
      eapply lookup_weaken; [done | apply H23].
    + destruct (Hnew2 y Hy) as [Hnone ?]. split; [|done].
      destruct (levels st1 !! y) as [l|] eqn:Hl; [|done].
      assert (levels st2 !! y = Some l); [|congruence].
      eapply lookup_weaken; [done | apply H12].
  - intros x P HP. destruct (ex_pending _ _ H12 _ _ HP) as (P' & HP' & ?).
    destruct (ex_pending _ _ H23 _ _ HP') as (P'' & HP'' & ?).
    exists P''. split; [done|set_solver].
Qed.

Lemma extends_lookup st st' x l :
  extends st st' → levels st !! x = Some l → levels st' !! x = Some l.
Proof. intros Hext Hx. eapply lookup_weaken; [done | apply Hext]. Qed.

Lemma update_level_frontier c name st :
  frontier f c st → name ∈ listener_names f → levels st !! name = None →
  frontier f c (update_level name c st) ∧ extends st (update_level name c st) ∧
  measure f (update_level name c st) ≤ measure f st.
Proof.
  intros [Hb Hv (qa & qb & Hq & Hqa & Hqb) Ht Hd Hs] Hname Hnone.
  assert (name ∉ visited st) as Hnv.
  { intros Hin. destruct (Hv _ Hin) as (l & Hl & _). congruence. }
  split; [split|split]; simpl.
  - intros x l. rewrite lookup_insert. case_decide; [|by apply Hb].
    intros [= <-]. lia.
  - intros v Hin. destruct (Hv _ Hin) as (l & Hl & ?). exists l.
    split; [by apply lookup_insert_fresh | done].
  - rewrite decide_False by done.
    exists qa, (qb ++ [name]). split; [by rewrite Hq, app_assoc|]. split.
    + eapply Forall_impl; [exact Hqa|]. intros q Hq'. simpl in *.
      by apply lookup_insert_fresh.
    + apply Forall_app. split.
      * eapply Forall_impl; [exact Hqb|]. intros q Hq'. simpl in *.
        by apply lookup_insert_fresh.
      * apply Forall_singleton. apply lookup_insert_eq.
  - intros x. rewrite decide_False by done. rewrite lookup_insert.
    case_decide as Hx.
    + intros _. left. subst x. apply elem_of_app. right. by left.
    + intros Hsome. destruct (Ht _ Hsome) as [?|?]; [left|by right].
      apply elem_of_app. by left.
  - intros x. rewrite lookup_insert. case_decide as Hx; [|by apply Hd].
    intros _. subst x. by right.
  - intros x Hx. apply lookup_insert_fresh; [done | by apply Hs].
  - split; simpl.
    + by apply insert_subseteq.
    + done.
    + rewrite decide_False by done. exists [name]. split; [done|].
      intros y Hy. apply list_elem_of_singleton in Hy as ->.
      split; [done|]. rewrite lookup_insert_eq. by eexists.
    + intros x P HP. by exists P.
  - unfold measure, unassigned. simpl. rewrite decide_False by done.
    rewrite length_app. simpl.
    apply list_elem_of_fmap in Hname as ([n e] & -> & Hin). simpl in *.
    assert (length (filter (λ e : string * listener,
               <[n := c + 1]> (levels st) !! e.1 = None) (_listeners f)) <
            length (filter (λ e : string * listener,
               levels st !! e.1 = None) (_listeners f))) as Hlt; [|lia].
    apply (filter_length_lt _ _ _ (n, e)); simpl; try done.
    + intros x _. rewrite lookup_insert. by case_decide.
    + by rewrite lookup_insert_eq.
Qed.

Lemma propose_frontier c name st :
  frontier f c st → name ∈ listener_names f →
  frontier f c (propose name c st) ∧ extends st (propose name c st) ∧
  measure f (propose name c st) ≤ measure f st.
Proof.
  intros Hfr Hname. unfold propose.
  destruct (levels st !! name) as [l|] eqn:Hl.
  - pose proof (fr_bound _ _ _ Hfr _ _ Hl). rewrite decide_False by lia.
    split; [done|]. split; [apply extends_refl | done].
  - by apply update_level_frontier.
Qed.

(** During the processing of a step, a proposal writes a level only to a
    name that has none: the branch that lowers a level never runs. *)
Lemma propose_written_once c name st x l :
  frontier f c st → levels st !! x = Some l →
  levels (propose name c st) !! x = Some l.
Proof.
  intros Hfr Hx. unfold propose.
  destruct (levels st !! name) as [l'|] eqn:Hl.
  - pose proof (fr_bound _ _ _ Hfr _ _ Hl). by rewrite decide_False by lia.
  - simpl. by apply lookup_insert_fresh.
Qed.
End levels_frontier.

Section levels_rounds.
Import Levels.
Variable f : flow.

Lemma and_branch_unfold current c name ts st :
  and_branch current c name ts st =
  let st2 := set_pending (recorded current name ts (pending_and_listeners st)) st in
  if decide (pending_and_listeners st2 !! name = Some (list_to_set ts))
  then propose name c st2 else st2.
Proof. done. Qed.

Lemma recorded_other current name ts p x :
  x ≠ name → recorded current name ts p !! x = p !! x.
Proof.
  intros Hx. unfold recorded.
  assert (match p !! name with
          | None => <[name := ∅]> p
          | Some _ => p
          end !! x = p !! x) as Hp1.
  { destruct (p !! name); [done|]. by rewrite lookup_insert_ne. }
  case_decide; [|done]. by rewrite lookup_alter_ne.
Qed.

Lemma recorded_same current name ts p :
  recorded current name ts p !! name =
  Some (default ∅ (p !! name) ∪
        (if decide (current ∈ ts) then {[current]} else ∅)).
Proof.
  unfold recorded. destruct (p !! name) as [P|] eqn:HP; simpl.
  - case_decide.
    + by rewrite lookup_alter_eq, HP.
    + rewrite HP. by rewrite (right_id_L ∅ (∪)).
  - case_decide.
    + by rewrite lookup_alter_eq, lookup_insert_eq.
    + rewrite lookup_insert_eq. by rewrite (right_id_L ∅ (∪)).
Qed.

Lemma set_pending_recorded_extends current name ts st :
  extends st (set_pending (recorded current name ts (pending_and_listeners st)) st).
Proof.
  split; simpl; [done | done | |].
  { exists []. rewrite app_nil_r. split; [done|]. intros y Hy. by apply elem_of_nil in Hy. }
  intros x P HP. destruct (decide (x = name)) as [->|Hx].
  - rewrite recorded_same, HP. simpl. eexists. split; [done | set_solver].
  - rewrite recorded_other by done. by exists P.
Qed.

Lemma frontier_set_pending c p st : frontier f c st → frontier f c (set_pending p st).
Proof. intros [??????]. by split. Qed.

Lemma measure_set_pending p st : measure f (set_pending p st) = measure f st.
Proof. done. Qed.

Lemma keeps_refl c st : frontier f c st → keeps f c st st.
Proof. intros. split; [done|]. split; [apply extends_refl | done]. Qed.

Lemma keeps_trans c st1 st2 st3 : keeps f c st1 st2 → keeps f c st2 st3 → keeps f c st1 st3.
Proof.
  intros (? & ? & ?) (? & ? & ?). split; [done|].
  split; [by eapply extends_trans | lia].
Qed.

Lemma and_branch_keeps current c name ts st :
  frontier f c st → name ∈ listener_names f →
  keeps f c st (and_branch current c name ts st).
Proof.
  intros Hfr Hname. rewrite and_branch_unfold. simpl.
  set (st2 := set_pending _ st).
  assert (keeps f c st st2) as Hst2.
  { split; [by apply frontier_set_pending|].
    split; [apply set_pending_recorded_extends | done]. }
  case_decide; [|done].
  eapply keeps_trans; [exact Hst2|].
  apply propose_frontier; [apply Hst2 | done].
Qed.

Lemma process_listener_keeps current c st e :
  frontier f c st → e ∈ _listeners f →
  keeps f c st (process_listener current c st e).
Proof.
  intros Hfr He. destruct e as [name [ct ts]].
  assert (name ∈ listener_names f) as Hname.
  { apply list_elem_of_fmap. by exists (name, (ct, ts)). }
  unfold process_listener. repeat case_decide;
    first [ by apply propose_frontier | by apply and_branch_keeps
          | by apply keeps_refl ].
Qed.

Lemma process_path_listener_keeps path c st e :
  frontier f c st → e ∈ _listeners f →
  keeps f c st (process_path_listener path c st e).
Proof.
  intros Hfr He. destruct e as [name [ct ts]].
  assert (name ∈ listener_names f) as Hname.
  { apply list_elem_of_fmap. by exists (name, (ct, ts)). }
  unfold process_path_listener. case_decide;
    [by apply propose_frontier | by apply keeps_refl].
Qed.

Lemma foldl_keeps {A} (g : state → A → state) (l : list A) c st :
  frontier f c st →
  (∀ s a, a ∈ l → frontier f c s → keeps f c s (g s a)) →
  keeps f c st (foldl g st l).
Proof.
  intros Hfr Hg. apply (foldl_invariant (keeps f c st)).
  - by apply keeps_refl.
  - intros s a Ha Hs. eapply keeps_trans; [exact Hs|]. apply Hg; [done | apply Hs].
Qed.

Lemma process_path_keeps c st path :
  frontier f c st → keeps f c st (process_path f c st path).
Proof.
  intros Hfr. apply foldl_keeps; [done|].
  intros s e He Hs. by apply process_path_listener_keeps.
Qed.

Lemma router_part_keeps current c st :
  frontier f c st → keeps f c st (router_part f current c st).
Proof.
  intros Hfr. unfold router_part. case_decide; [|by apply keeps_refl].
  apply foldl_keeps; [done|]. intros s p _ Hs. by apply process_path_keeps.
Qed.

Lemma listeners_round_keeps current c st :
  frontier f c st →
  keeps f c st (foldl (process_listener current c) st (_listeners f)).
Proof.
  intros Hfr. apply foldl_keeps; [done|].
  intros s e He Hs. by apply process_listener_keeps.
Qed.

Lemma loop_body_keeps current c st :
  frontier f c st → keeps f c st (loop_body f current c st).
Proof.
  intros Hfr. unfold loop_body.
  eapply keeps_trans; [by apply listeners_round_keeps|].
  apply router_part_keeps. by apply listeners_round_keeps.
Qed.

(** Dequeuing: the head of the queue has a level, which becomes the
    level of the frontier. *)
Lemma dequeue_frontier c st current rest :
  frontier f c st → queue st = current :: rest →
  ∃ cl, levels st !! current = Some cl ∧
        frontier f cl (dequeue current rest st) ∧
        measure f (dequeue current rest st) < measure f st.
Proof.
  intros [Hb Hv (qa & qb & Hq & Hqa & Hqb) Ht Hd Hs] Hqueue.
  assert (∀ x, is_Some (levels st !! x) →
            x ∈ rest ∨ x ∈ visited st ∪ {[current]}) as Ht'.
  { intros x Hx. destruct (Ht _ Hx) as [Hin|Hin]; [|right; set_solver].
    rewrite Hqueue in Hin. apply elem_of_cons in Hin as [->|Hin];
      [right; set_solver | by left]. }
  assert (measure f (dequeue current rest st) < measure f st) as Hm.
  { unfold measure, unassigned. simpl. rewrite Hqueue. simpl. lia. }
  rewrite Hqueue in Hq. destruct qa as [|a qa]; simpl in Hq.
  - subst qb. apply Forall_cons in Hqb as [Hcur Hrest].
    exists (c + 1). split; [done|]. split; [|done]. split; simpl; try done.
    + intros x l Hl. specialize (Hb _ _ Hl). lia.
    + intros v Hin. apply elem_of_union in Hin as [Hin|Hin].
      * destruct (Hv _ Hin) as (l & ? & ?). exists l. split; [done | lia].
      * apply elem_of_singleton in Hin as ->. by exists (c + 1).
    + exists rest, []. rewrite app_nil_r. split; [done|]. by split.
  - injection Hq as <- ->. apply Forall_cons in Hqa as [Hcur Hrest].
    exists c. split; [done|]. split; [|done]. split; simpl; try done.
    + intros v Hin. apply elem_of_union in Hin as [Hin|Hin]; [by apply Hv|].
      apply elem_of_singleton in Hin as ->. by exists c.
    + by exists qa, qb.
Qed.

(** The loop terminates within [measure] iterations and never raises;
    the frontier invariant holds in the state it returns. *)
Lemma while_queue_terminates fuel c st :
  frontier f c st → measure f st ≤ fuel →
  ∃ st' c', while_queue fuel f st = Done st' ∧ frontier f c' st' ∧ queue st' = [].
Proof.
  revert c st. induction fuel as [|fuel IH]; intros c st Hfr Hm.
  - destruct (queue st) as [|current rest] eqn:Hq.
    + exists st, c. simpl. unfold step. by rewrite Hq.
    + unfold measure in Hm. rewrite Hq in Hm. simpl in Hm. lia.
  - simpl. unfold step. destruct (queue st) as [|current rest] eqn:Hq.
    + by exists st, c.
    + destruct (dequeue_frontier _ _ _ _ Hfr Hq) as (cl & -> & Hfr' & Hlt).
      simpl. destruct (loop_body_keeps current cl _ Hfr') as (Hfr'' & _ & Hle).
      apply (IH cl); [done | lia].
Qed.
End levels_rounds.

Section levels_loop.
Import Levels.
Variable f : flow.

Lemma seed_fold (l : list (string * method)) (st : state) :
  let starts := (filter (λ nm, is_start_method nm.2 = true) l).*1 in
  let st' := foldl seed st l in
  queue st' = queue st ++ starts ∧ visited st' = visited st ∧
  pending_and_listeners st' = pending_and_listeners st ∧
  ∀ x, levels st' !! x = if decide (x ∈ starts) then Some 0 else levels st !! x.
Proof.
  revert st. induction l as [|[n m] l IH]; intros st; simpl.
  { by rewrite app_nil_r. }
  destruct (IH (seed st (n, m))) as (Hq & Hv & Hp & Hl).
  rewrite Hq, Hv, Hp. rewrite filter_cons. simpl.
  assert (seed st (n, m) =
          if is_start_method m
          then {| levels := <[n := 0]> (levels st); queue := queue st ++ [n];
                  visited := visited st;
                  pending_and_listeners := pending_and_listeners st |}
          else st) as Hseed by done.
  rewrite Hseed in *. clear Hseed.
  destruct (is_start_method m) eqn:Hm.
  - rewrite decide_True by done. rewrite fmap_cons. cbn [fst levels queue visited
      pending_and_listeners].
    rewrite <- app_assoc. repeat split; try done. intros x. rewrite Hl.
    cbn [levels].
    destruct (decide (x = n)) as [->|Hx].
    + rewrite (decide_True (P := n ∈ n :: _)) by left.
      case_decide; [done | by rewrite lookup_insert_eq].
    + rewrite lookup_insert_ne by done.
      repeat case_decide; try done.
      * exfalso. set_solver.
      * exfalso. set_solver.
  - rewrite decide_False by done.
    repeat split; try done.
Qed.

Lemma initial_queue : queue (initial f) = start_methods f.
Proof. apply (seed_fold (_methods f) empty_state). Qed.

Lemma initial_levels x :
  levels (initial f) !! x = if decide (x ∈ start_methods f) then Some 0 else None.
Proof.
  destruct (seed_fold (_methods f) empty_state) as (_ & _ & _ & Hl).
  unfold initial, start_methods. rewrite Hl. by case_decide.
Qed.

Lemma initial_visited : visited (initial f) = ∅.
Proof. apply (seed_fold (_methods f) empty_state). Qed.

Lemma initial_pending : pending_and_listeners (initial f) = ∅.
Proof. apply (seed_fold (_methods f) empty_state). Qed.

Lemma initial_frontier : frontier f 0 (initial f).
Proof.
  split.
  - intros x l. rewrite initial_levels. case_decide; [|done]. intros [= <-]. lia.
  - intros v. rewrite initial_visited. set_solver.
  - exists (start_methods f), []. rewrite app_nil_r, initial_queue.
    split; [done|]. split; [|done]. apply Forall_forall. intros x Hx.
    rewrite initial_levels. by rewrite decide_True.
  - intros x. rewrite initial_levels, initial_queue.
    case_decide; [by left | by intros [??]].
  - intros x. rewrite initial_levels. case_decide; [by left | by intros [??]].
  - intros x Hx. rewrite initial_levels. by rewrite decide_True.
Qed.

Lemma initial_measure : measure f (initial f) ≤ enough_fuel f.
Proof.
  unfold measure, unassigned, enough_fuel. rewrite initial_queue.
  unfold start_methods. rewrite length_fmap.
  pose proof (length_filter (λ nm : string * method, is_start_method nm.2 = true)
                (_methods f)).
  pose proof (length_filter
                (λ e : string * listener, levels (initial f) !! e.1 = None)
                (_listeners f)).
  lia.
Qed.

Lemma step_frontier c st st' :
  frontier f c st → step f st = Some (Done st') → ∃ c', frontier f c' st'.
Proof.
  intros Hfr. unfold step. destruct (queue st) as [|current rest] eqn:Hq; [done|].
  destruct (dequeue_frontier f _ _ _ _ Hfr Hq) as (cl & -> & Hfr' & _).
  intros [= <-]. exists cl. by apply loop_body_keeps.
Qed.

Lemma reachable_frontier st : reachable f st → ∃ c, frontier f c st.
Proof.
  induction 1 as [|st st' _ [c IH] Hstep].
  - exists 0. apply initial_frontier.
  - by eapply step_frontier.
Qed.

(** Levels are written once: an iteration only adds levels. *)
Lemma step_keeps_levels st st' :
  reachable f st → step f st = Some (Done st') → levels st ⊆ levels st'.
Proof.
  intros Hreach. destruct (reachable_frontier st Hreach) as [c Hfr].
  unfold step. destruct (queue st) as [|current rest] eqn:Hq; [done|].
  destruct (dequeue_frontier f _ _ _ _ Hfr Hq) as (cl & -> & Hfr' & _).
  intros [= <-]. destruct (loop_body_keeps f current cl _ Hfr') as (_ & Hext & _).
  apply (ex_levels _ _ Hext).
Qed.

Lemma while_queue_reachable fuel st st' :
  reachable f st → while_queue fuel f st = Done st' → reachable f st'.
Proof.
  revert st. induction fuel as [|fuel IH]; intros st Hst; simpl.
  - destruct (step f st); [done|]. by intros [= <-].
  - destruct (step f st) as [[st1| |]|] eqn:Hstep; simpl; try done.
    + apply IH. by eapply reachable_step.
    + by intros [= <-].
Qed.

Lemma while_queue_more_fuel fuel fuel' st st' :
  while_queue fuel f st = Done st' → fuel ≤ fuel' →
  while_queue fuel' f st = Done st'.
Proof.
  revert fuel' st. induction fuel as [|fuel IH]; intros fuel' st; simpl.
  - destruct (step f st) eqn:Hstep; [done|]. intros <- _.
    destruct fuel'; simpl; by rewrite Hstep.
  - destruct (step f st) as [r|] eqn:Hstep.
    + intros Hrun Hle. destruct fuel' as [|fuel']; [lia|]. simpl. rewrite Hstep.
      destruct r; simpl in *; try done. apply IH; [done | lia].
    + intros <- _. destruct fuel'; simpl; by rewrite Hstep.
Qed.

(** The loop returns, in a reachable state with an empty queue, for
    every fuel from [enough_fuel] on. *)
Lemma while_queue_returns :
  ∃ st, reachable f st ∧ queue st = [] ∧
    ∀ fuel, enough_fuel f ≤ fuel → while_queue fuel f (initial f) = Done st.
Proof.
  destruct (while_queue_terminates f (enough_fuel f) 0 (initial f))
    as (st & c & Hrun & _ & Hq).
  { apply initial_frontier. }
  { apply initial_measure. }
  exists st. split; [|split; [done|]].
  - eapply while_queue_reachable; [apply reachable_initial | done].
  - intros fuel Hfuel. by eapply while_queue_more_fuel.
Qed.
End levels_loop.

(** ** Where a level comes from *)

Lemma NoDup_fst_unique {A B} (l : list (A * B)) (k : A) (v v' : B) :
  NoDup l.*1 → (k, v) ∈ l → (k, v') ∈ l → v = v'.
Proof.
  induction l as [|[k0 v0] l IH]; simpl; intros Hnd Hv Hv'.
  { by apply elem_of_nil in Hv. }
  apply NoDup_cons in Hnd as [Hk0 Hnd].
  apply elem_of_cons in Hv as [Hv|Hv]; apply elem_of_cons in Hv' as [Hv'|Hv'].
  - congruence.
  - exfalso. apply Hk0. injection Hv as -> ->.
    apply list_elem_of_fmap. by exists (k0, v').
  - exfalso. apply Hk0. injection Hv' as -> ->.
    apply list_elem_of_fmap. by exists (k0, v).
  - by apply IH.
Qed.

Lemma list_to_set_nil_inv (ts : list string) :
  (list_to_set ts : gset string) = ∅ → ts = [].
Proof.
  destruct ts as [|t ts]; [done|]. intros Hempty. exfalso.
  assert (t ∈ (list_to_set (t :: ts) : gset string)) as Hin by set_solver.
  rewrite Hempty in Hin. set_solver.
Qed.

Section levels_history.
Import Levels.
Variable f : flow.
Hypothesis listeners_nodup : NoDup (listener_names f).

Lemma listener_unique x e e' :
  (x, e) ∈ _listeners f → (x, e') ∈ _listeners f → e = e'.
Proof using listeners_nodup. by apply NoDup_fst_unique. Qed.

Lemma cause_mono lv lv' s ls e : lv ⊆ lv' → cause f lv s ls e → cause f lv' s ls e.
Proof.
  intros Hsub [ts Hs|ts Hs Hts|ct ts p Hr Hp Hpt].
  - by apply cause_or.
  - apply cause_and; [done|]. intros t Ht. destruct (Hts t Ht) as (lt & Hlt & ?).
    exists lt. split; [by eapply lookup_weaken | done].
  - by eapply cause_router.
Qed.

Lemma origin_mono lv lv' vis vis' x l :
  lv ⊆ lv' → vis ⊆ vis' → origin f lv vis x l → origin f lv' vis' x l.
Proof.
  intros Hlv Hvis [?|(s & ls & e & He & Hs & Hls & Hl & Hc)]; [by left|].
  right. exists s, ls, e. repeat split; try done.
  - by apply Hvis.
  - by eapply lookup_weaken.
  - by eapply cause_mono.
Qed.

Lemma processing_extends current c st st' :
  extends st st' → processing current c st → processing current c st'.
Proof.
  intros Hext [Hin Hl]. split.
  - by rewrite (ex_visited _ _ Hext).
  - by eapply extends_lookup.
Qed.

Lemma propose_history current c name e st :
  frontier f c st → history f st → processing current c st →
  (name, e) ∈ _listeners f →
  (levels st !! name = None → cause f (levels st) current c e) →
  history f (propose name c st).
Proof.
  intros Hfr Hhi [Hcur Hcl] He Hcause. unfold propose.
  destruct (levels st !! name) as [l|] eqn:Hl.
  { pose proof (fr_bound _ _ _ Hfr _ _ Hl). by rewrite decide_False by lia. }
  assert (levels st ⊆ <[name := c + 1]> (levels st)) as Hsub
    by by apply insert_subseteq.
  split; simpl.
  - intros x l'. rewrite lookup_insert. case_decide as Hx.
    + intros [= <-]. subst x. right. exists current, c, e.
      repeat split; try done.
      * by apply lookup_insert_fresh.
      * eapply cause_mono; [done | by apply Hcause].
    + intros Hx'. eapply origin_mono; [done | done | by apply Hhi].
  - apply Hhi.
  - intros x e' He' HP. destruct (hi_satisfied _ _ Hhi _ _ He' HP) as [l' Hl'].
    exists l'. by apply lookup_insert_fresh.
Qed.

Lemma recorded_pending current c name ct ts st x e P :
  history f st → processing current c st →
  (name, (ct, ts)) ∈ _listeners f → (x, e) ∈ _listeners f →
  recorded current name ts (pending_and_listeners st) !! x = Some P →
  P ⊆ list_to_set e.2 ∩ visited st.
Proof using listeners_nodup.
  intros Hhi [Hcur _] Hname He. destruct (decide (x = name)) as [->|Hx].
  - rewrite (listener_unique _ _ _ He Hname). simpl.
    rewrite recorded_same. intros [= <-].
    assert (default ∅ (pending_and_listeners st !! name) ⊆
            list_to_set ts ∩ visited st) as Hold.
    { destruct (pending_and_listeners st !! name) as [P0|] eqn:HP0; simpl.
      - apply (hi_pending _ _ Hhi _ _ _ Hname HP0).
      - set_solver. }
    case_decide; set_solver.
  - rewrite recorded_other by done. by apply Hhi.
Qed.

Lemma and_branch_history current c name ts st :
  frontier f c st → history f st → processing current c st →
  (name, ("AND", ts)) ∈ _listeners f →
  history f (and_branch current c name ts st).
Proof using listeners_nodup.
  intros Hfr Hhi Hproc Hname. rewrite and_branch_unfold. simpl.
  set (p2 := recorded current name ts (pending_and_listeners st)).
  assert (∀ x e P, (x, e) ∈ _listeners f → p2 !! x = Some P →
                   P ⊆ list_to_set e.2 ∩ visited st) as Hpend.
  { intros x e P. by eapply recorded_pending. }
  assert (∀ x e, x ≠ name → (x, e) ∈ _listeners f →
                 p2 !! x = Some (list_to_set e.2) →
                 is_Some (levels st !! x)) as Hother.
  { intros x e Hx He. unfold p2. rewrite recorded_other by done. by apply Hhi. }
  case_decide as Hsat.
  - assert (history f (set_pending p2 st) ∨ levels st !! name = None) as [Hhi2|Hnone].
    { destruct (levels st !! name) as [l|] eqn:Hl; [left | by right].
      split; simpl; [apply Hhi | done |].
      intros x e He HP. destruct (decide (x = name)) as [->|Hx]; [by eexists|].
      by eapply Hother. }
    + eapply propose_history; try done.
      * by apply frontier_set_pending.
      * simpl. intros Hnone. destruct Hhi2 as [_ _ Hs].
        destruct (Hs _ _ Hname Hsat) as [l Hl]. simpl in Hl. congruence.
    + unfold propose. simpl. rewrite Hnone.
      assert (levels st ⊆ <[name := c + 1]> (levels st)) as Hsub
        by by apply insert_subseteq.
      destruct Hproc as [Hcur Hcl].
      split; simpl.
      * intros x l'. rewrite lookup_insert. case_decide as Hx.
        -- intros [= <-]. subst x. right. exists current, c, ("AND", ts).
           repeat split; try done.
           { by apply lookup_insert_fresh. }
           apply cause_and.
           ++ destruct (decide (current ∈ ts)) as [?|Hnot]; [by left | right].
              unfold p2 in Hsat. rewrite recorded_same in Hsat.
              rewrite decide_False in Hsat by done.
              rewrite (right_id_L ∅ (∪)) in Hsat. injection Hsat as Hsat.
              destruct (pending_and_listeners st !! name) as [P0|] eqn:HP0;
                simpl in Hsat.
              ** subst P0. destruct (hi_satisfied _ _ Hhi _ _ Hname HP0).
                 congruence.
              ** by apply list_to_set_nil_inv.
           ++ intros t Ht.
              assert (t ∈ visited st) as Htv.
              { specialize (Hpend _ _ _ Hname Hsat). simpl in Hpend. set_solver. }
              destruct (fr_visited _ _ _ Hfr _ Htv) as (lt & Hlt & ?).
              exists lt. split; [by apply lookup_insert_fresh | done].
        -- intros Hx'. eapply origin_mono; [done | done | by apply Hhi].
      * done.
      * intros x e He HP. destruct (decide (x = name)) as [->|Hx].
        -- rewrite lookup_insert_eq. by eexists.
        -- rewrite lookup_insert_ne by done. by eapply Hother.
  - split; simpl; [apply Hhi | done |].
    intros x e He HP. destruct (decide (x = name)) as [->|Hx].
    + rewrite (listener_unique _ _ _ He Hname) in HP. done.
    + by eapply Hother.
Qed.
End levels_history.

Section levels_propagation.
Import Levels.
Variable f : flow.

Lemma keeps_frontier c st st' : keeps f c st st' → frontier f c st'.
Proof. by intros (? & ? & ?). Qed.

Lemma keeps_extends c st st' : keeps f c st st' → extends st st'.
Proof. by intros (? & ? & ?). Qed.

Lemma propose_is_Some name c st : is_Some (levels (propose name c st) !! name).
Proof.
  unfold propose. destruct (levels st !! name) as [l|] eqn:Hl.
  - case_decide; simpl; [rewrite lookup_insert_eq | rewrite Hl]; by eexists.
  - simpl. rewrite lookup_insert_eq. by eexists.
Qed.

Lemma propose_pending name c st :
  pending_and_listeners (propose name c st) = pending_and_listeners st.
Proof. unfold propose. destruct (levels st !! name); [case_decide|]; done. Qed.

Lemma and_branch_pending current c name ts st :
  pending_and_listeners (and_branch current c name ts st) =
  recorded current name ts (pending_and_listeners st).
Proof.
  rewrite and_branch_unfold. simpl. case_decide; [|done].
  by rewrite propose_pending.
Qed.

Lemma listener_served_extends current e st st' :
  extends st st' → listener_served current e st → listener_served current e st'.
Proof.
  intros Hext Hserved Hcur. destruct (Hserved Hcur) as [Hor Hand]. split.
  - intros Hct. destruct (Hor Hct) as [l Hl]. exists l. by eapply extends_lookup.
  - intros Hct. destruct (Hand Hct) as (P & HP & ?).
    destruct (ex_pending _ _ Hext _ _ HP) as (P' & ? & ?). exists P'.
    split; [done | set_solver].
Qed.

Lemma process_listener_serves current c st e :
  listener_served current e (process_listener current c st e).
Proof.
  destruct e as [name [ct ts]]. intros Hcur. simpl in *.
  unfold process_listener. split; intros ->.
  - rewrite decide_True by done. rewrite decide_True by done.
    apply propose_is_Some.
  - rewrite decide_False by done. rewrite decide_True by done.
    rewrite and_branch_pending, recorded_same. rewrite decide_True by done.
    eexists. split; [done | set_solver].
Qed.

Lemma listeners_round_serves current c st e :
  frontier f c st → e ∈ _listeners f →
  listener_served current e (foldl (process_listener current c) st (_listeners f)).
Proof.
  intros Hfr He.
  apply (foldl_establish (frontier f c) (listener_served current)); try done.
  - intros s a Ha Hs. eapply keeps_frontier. by apply process_listener_keeps.
  - intros s a _ _. apply process_listener_serves.
  - intros s a b Hb Hs. apply listener_served_extends.
    eapply keeps_extends. by apply process_listener_keeps.
Qed.

Lemma path_served_extends path e st st' :
  extends st st' → path_served path e st → path_served path e st'.
Proof.
  intros Hext Hserved Hp. destruct (Hserved Hp) as [l Hl]. exists l.
  by eapply extends_lookup.
Qed.

Lemma process_path_serves c st path e :
  frontier f c st → e ∈ _listeners f →
  path_served path e (process_path f c st path).
Proof.
  intros Hfr He.
  apply (foldl_establish (frontier f c) (path_served path)); try done.
  - intros s a Ha Hs. eapply keeps_frontier. by apply process_path_listener_keeps.
  - intros s [name [ct ts]] _ _ Hp. simpl in *.
    unfold process_path_listener. rewrite decide_True by done.
    apply propose_is_Some.
  - intros s a b Hb Hs. apply path_served_extends.
    eapply keeps_extends. by apply process_path_listener_keeps.
Qed.

Lemma router_part_serves current c st path e :
  frontier f c st → current ∈ _routers f →
  path ∈ get_or_empty (_router_paths f) current → e ∈ _listeners f →
  path_served path e (router_part f current c st).
Proof.
  intros Hfr Hr Hp He. unfold router_part. rewrite decide_True by done.
  apply (foldl_establish (frontier f c)
           (λ p st, path_served p e st) (process_path f c)); try done.
  - intros s p _ Hs. eapply keeps_frontier. by apply process_path_keeps.
  - intros s p _ Hs. by apply process_path_serves.
  - intros s p q _ Hs. apply path_served_extends.
    eapply keeps_extends. by apply process_path_keeps.
Qed.

Lemma leveled_after_extends st st' s x :
  extends st st' → leveled_after (levels st) s x → leveled_after (levels st') s x.
Proof.
  intros Hext (l & ls & Hl & Hls & ?). exists l, ls.
  repeat split; [by eapply extends_lookup | by eapply extends_lookup | done].
Qed.

(** One iteration re-establishes [complete] for the enlarged set of
    dequeued steps. *)
Lemma loop_body_complete current c rest st :
  complete f st → frontier f c (dequeue current rest st) →
  levels st !! current = Some c →
  complete f (loop_body f current c (dequeue current rest st)).
Proof.
  intros Hco Hfr Hcl.
  set (dq := dequeue current rest st) in *.
  pose proof (loop_body_keeps f current c dq Hfr) as (Hfr2 & Hext2 & _).
  pose proof (listeners_round_keeps f current c dq Hfr) as (Hfr1 & Hext1 & _).
  pose proof (router_part_keeps f current c _ Hfr1) as (_ & Hext12 & _).
  fold (loop_body f current c dq) in Hext12.
  assert (visited (loop_body f current c dq) = visited st ∪ {[current]}) as Hvis.
  { by rewrite (ex_visited _ _ Hext2). }
  assert (levels (loop_body f current c dq) !! current = Some c) as Hcl2.
  { eapply extends_lookup; [exact Hext2 | done]. }
  assert (∀ x, is_Some (levels (loop_body f current c dq) !! x) →
               leveled_after (levels (loop_body f current c dq)) current x) as Hnew.
  { intros x [l Hl]. exists l, c. repeat split; try done.
    apply (fr_bound _ _ _ Hfr2 _ _ Hl). }
  split.
  - intros x ts s He. rewrite Hvis. intros Hs Hts.
    apply elem_of_union in Hs as [Hs|Hs].
    + eapply leveled_after_extends; [exact Hext2|]. simpl. by eapply co_or.
    + apply elem_of_singleton in Hs as ->. apply Hnew.
      pose proof (listeners_round_serves current c dq _ Hfr He) as Hserved.
      apply (listener_served_extends _ _ _ _ Hext12) in Hserved.
      by apply Hserved.
  - intros x e s p He. rewrite Hvis. intros Hs Hr Hp Hpe.
    apply elem_of_union in Hs as [Hs|Hs].
    + eapply leveled_after_extends; [exact Hext2|]. simpl. by eapply co_router.
    + apply elem_of_singleton in Hs as ->. apply Hnew.
      by apply (router_part_serves current c _ p (x, e) Hfr1).
  - intros x ts s He. rewrite Hvis. intros Hs Hts.
    apply elem_of_union in Hs as [Hs|Hs].
    + destruct (co_pending _ _ Hco _ _ _ He Hs Hts) as (P & HP & ?).
      destruct (ex_pending _ _ Hext2 x P) as (P' & ? & ?); [done|].
      exists P'. split; [done | set_solver].
    + apply elem_of_singleton in Hs as ->.
      pose proof (listeners_round_serves current c dq _ Hfr He) as Hserved.
      apply (listener_served_extends _ _ _ _ Hext12) in Hserved.
      by apply Hserved.
Qed.
End levels_propagation.

Section levels_reachable.
Import Levels.
Variable f : flow.
Hypothesis listeners_nodup : NoDup (listener_names f).

Lemma process_listener_mid current c st e :
  e ∈ _listeners f → mid f current c st →
  mid f current c (process_listener current c st e).
Proof using listeners_nodup.
  intros He (Hfr & Hhi & Hproc).
  pose proof (process_listener_keeps f current c st _ Hfr He) as (Hfr' & Hext & _).
  split; [done|]. split; [|by eapply processing_extends].
  destruct e as [name [ct ts]]. unfold process_listener.
  case_decide as Hor.
  - subst ct. case_decide; [|done].
    eapply propose_history; try done. intros _. by apply cause_or.
  - case_decide as Hand; [|done]. subst ct. by apply and_branch_history.
Qed.

Lemma process_path_listener_mid current path c st e :
  current ∈ _routers f → path ∈ get_or_empty (_router_paths f) current →
  e ∈ _listeners f → mid f current c st →
  mid f current c (process_path_listener path c st e).
Proof.
  intros Hr Hp He (Hfr & Hhi & Hproc).
  pose proof (process_path_listener_keeps f path c st _ Hfr He) as (Hfr' & Hext & _).
  split; [done|]. split; [|by eapply processing_extends].
  destruct e as [name [ct ts]]. unfold process_path_listener.
  case_decide; [|done].
  eapply propose_history; try done. intros _. by eapply cause_router.
Qed.

Lemma listeners_prefix_mid current c st done_ todo :
  _listeners f = done_ ++ todo → mid f current c st →
  mid f current c (foldl (process_listener current c) st done_).
Proof using listeners_nodup.
  intros Hsplit Hmid. apply (foldl_invariant (mid f current c)); [done|].
  intros s e He. apply process_listener_mid. rewrite Hsplit.
  apply elem_of_app. by left.
Qed.

Lemma loop_body_mid current c st :
  mid f current c st → mid f current c (loop_body f current c st).
Proof using listeners_nodup.
  intros Hmid. unfold loop_body, router_part.
  assert (mid f current c (foldl (process_listener current c) st (_listeners f)))
    as Hmid1.
  { apply (listeners_prefix_mid _ _ _ _ []); [by rewrite app_nil_r | done]. }
  case_decide as Hr; [|done].
  apply (foldl_invariant (mid f current c)); [done|]. intros s p Hp Hs.
  apply (foldl_invariant (mid f current c)); [done|]. intros s' e He.
  by apply process_path_listener_mid.
Qed.

Lemma dequeue_mid c0 st current rest :
  frontier f c0 st → history f st → queue st = current :: rest →
  ∃ c, levels st !! current = Some c ∧ mid f current c (dequeue current rest st).
Proof.
  clear listeners_nodup. intros Hfr Hhi Hq.
  destruct (dequeue_frontier f _ _ _ _ Hfr Hq) as (c & Hc & Hfr' & _).
  exists c. split; [done|]. split; [done|]. split.
  - split; simpl.
    + intros x l Hl. eapply origin_mono; [done | | by apply Hhi]. set_solver.
    + intros x e P He HP. pose proof (hi_pending _ _ Hhi _ _ _ He HP). set_solver.
    + apply Hhi.
  - split; simpl; [set_solver | done].
Qed.

Lemma initial_history : history f (initial f).
Proof.
  split.
  - intros x l. rewrite initial_levels. case_decide; [|done].
    intros [= <-]. by left.
  - intros x e P _. by rewrite initial_pending.
  - intros x e _. by rewrite initial_pending.
Qed.

Lemma initial_complete : complete f (initial f).
Proof.
  clear listeners_nodup. split; intros *; rewrite initial_visited; set_solver.
Qed.

Lemma reachable_invariants st :
  reachable f st → (∃ c, frontier f c st) ∧ history f st ∧ complete f st.
Proof using listeners_nodup.
  induction 1 as [|st st' _ ([c0 Hfr] & Hhi & Hco) Hstep].
  - split; [exists 0; apply initial_frontier|].
    split; [apply initial_history | apply initial_complete].
  - unfold step in Hstep. destruct (queue st) as [|current rest] eqn:Hq; [done|].
    destruct (dequeue_mid _ _ _ _ Hfr Hhi Hq) as (c & Hc & Hmid).
    rewrite Hc in Hstep. injection Hstep as <-.
    pose proof (loop_body_mid _ _ _ Hmid) as (Hfr' & Hhi' & _).
    split; [by exists c|]. split; [done|].
    apply loop_body_complete; [done | apply Hmid | done].
Qed.

(** The state in which the loop ends, with everything known about it. *)
Lemma final_state :
  ∃ st, (∀ fuel, enough_fuel f ≤ fuel →
           calculate_node_levels fuel f = Done (levels st)) ∧
        reachable f st ∧ queue st = [] ∧
        (∀ x, is_Some (levels st !! x) → x ∈ visited st).
Proof.
  destruct (while_queue_returns f) as (st & Hreach & Hq & Hrun).
  exists st. split; [|split; [done|split; [done|]]].
  - intros fuel Hfuel. unfold calculate_node_levels. by rewrite Hrun.
  - intros x Hx. destruct (reachable_frontier f st Hreach) as [c Hfr].
    destruct (fr_tracked _ _ _ Hfr _ Hx) as [Hin|Hin]; [|done].
    rewrite Hq in Hin. by apply elem_of_nil in Hin.
Qed.

(** In the AND branch a level is written only by a step that is one of
    the triggers (or for an empty trigger list). *)
Lemma and_branch_fires current name ts st :
  history f st → (name, ("AND", ts)) ∈ _listeners f →
  levels st !! name = None →
  recorded current name ts (pending_and_listeners st) !! name =
    Some (list_to_set ts) →
  current ∈ ts ∨ ts = [].
Proof.
  intros Hhi Hname Hnone Hsat.
  destruct (decide (current ∈ ts)) as [?|Hnot]; [by left | right].
  rewrite recorded_same in Hsat. rewrite decide_False in Hsat by done.
  rewrite (right_id_L ∅ (∪)) in Hsat. injection Hsat as Hsat.
  destruct (pending_and_listeners st !! name) as [P0|] eqn:HP0; simpl in Hsat.
  - subst P0. destruct (hi_satisfied _ _ Hhi _ _ Hname HP0). congruence.
  - by apply list_to_set_nil_inv.
Qed.
End levels_reachable.

Lemma max_level_eq lv ts m :
  (∀ t, t ∈ ts → ∃ lt, lv !! t = Some lt ∧ lt ≤ m) →
  (∃ t, t ∈ ts ∧ lv !! t = Some m) →
  max_level lv ts = m.
Proof.
  intros Hle (t & Ht & Hm).
  assert (max_level lv ts ≤ m) as Hub.
  { clear t Ht Hm. induction ts as [|t ts IH]; simpl; [lia|].
    destruct (Hle t) as (lt & -> & ?); [left|]. simpl.
    assert (max_level lv ts ≤ m); [|lia]. apply IH. intros t' Ht'. apply Hle. by right. }
  assert (m ≤ max_level lv ts) as Hlb; [|lia].
  clear Hle Hub. induction ts as [|t' ts IH]; [by apply elem_of_nil in Ht|].
  simpl. apply elem_of_cons in Ht as [<-|Ht].
  - rewrite Hm. simpl. lia.
  - specialize (IH Ht). lia.
Qed.

(** ** A whole iteration seen from one AND-listener *)

Section levels_iteration.
Import Levels.
Variable f : flow.

Lemma steps_reachable n st st' :
  reachable f st → steps n f st = Some st' → reachable f st'.
Proof.
  revert st. induction n as [|n IH]; intros st Hst; simpl; [by intros [= <-]|].
  destruct (step f st) as [[st1| |]|] eqn:Hstep; try done.
  apply IH. by eapply reachable_step.
Qed.

Lemma same_at_refl x st : same_at x st st.
Proof. done. Qed.

Lemma same_at_trans x st1 st2 st3 :
  same_at x st1 st2 → same_at x st2 st3 → same_at x st1 st3.
Proof. intros [??] [??]. split; congruence. Qed.

Lemma propose_same_at name c st x : x ≠ name → same_at x st (propose name c st).
Proof.
  intros Hx. split; [|by rewrite propose_pending]. unfold propose.
  destruct (levels st !! name); [case_decide|]; simpl; try done;
    by rewrite lookup_insert_ne.
Qed.

Lemma and_branch_same_at current c name ts st x :
  x ≠ name → same_at x st (and_branch current c name ts st).
Proof.
  intros Hx. rewrite and_branch_unfold. simpl.
  assert (same_at x st
            (set_pending (recorded current name ts (pending_and_listeners st)) st)).
  { split; simpl; [done | by apply recorded_other]. }
  case_decide; [|done]. eapply same_at_trans; [done|]. by apply propose_same_at.
Qed.

Lemma process_listener_same_at current c st e x :
  e.1 ≠ x → same_at x st (process_listener current c st e).
Proof.
  destruct e as [name [ct ts]]. simpl. intros Hx. unfold process_listener.
  repeat case_decide; try done.
  - by apply propose_same_at.
  - by apply and_branch_same_at.
Qed.

Lemma process_path_listener_same_at path c st e x :
  (e.1 = x → path ∉ e.2.2) → same_at x st (process_path_listener path c st e).
Proof.
  destruct e as [name [ct ts]]. simpl. intros Hx. unfold process_path_listener.
  case_decide; [|done]. apply propose_same_at. intros ->. by apply Hx.
Qed.

Lemma foldl_same_at {A} (g : state → A → state) (l : list A) x st :
  (∀ s a, a ∈ l → same_at x s (g s a)) → same_at x st (foldl g st l).
Proof.
  intros Hg. apply (foldl_invariant (same_at x st)); [done|].
  intros s a Ha Hs. eapply same_at_trans; [done | by apply Hg].
Qed.
End levels_iteration.

(** ** The levels written in one iteration *)

Section levels_written.
Import Levels.
Variable f : flow.

Lemma propose_level name c st y l :
  levels (propose name c st) !! y = Some l →
  levels st !! y = Some l ∨ l = c + 1.
Proof.
  unfold propose. destruct (levels st !! name) as [l0|] eqn:Hname.
  - case_decide; [|by left]. simpl. rewrite lookup_insert.
    case_decide; [intros [= <-]; by right | by left].
  - simpl. rewrite lookup_insert.
    case_decide; [intros [= <-]; by right | by left].
Qed.

Lemma process_listener_level current c st e y l :
  levels (process_listener current c st e) !! y = Some l →
  levels st !! y = Some l ∨ l = c + 1.
Proof.
  destruct e as [name [ct ts]]. unfold process_listener.
  repeat case_decide; try by left.
  - apply propose_level.
  - rewrite and_branch_unfold. cbn zeta. case_decide; [|by left].
    intros Hl. by apply propose_level in Hl.
Qed.

Lemma process_path_listener_level path c st e y l :
  levels (process_path_listener path c st e) !! y = Some l →
  levels st !! y = Some l ∨ l = c + 1.
Proof.
  destruct e as [name [ct ts]]. unfold process_path_listener.
  case_decide; [apply propose_level | by left].
Qed.

(** A level that an iteration for a step of level [c] adds is [c + 1]. *)
Lemma loop_body_level current c st y l :
  levels (loop_body f current c st) !! y = Some l →
  levels st !! y = Some l ∨ l = c + 1.
Proof.
  revert y l.
  set (I := λ s : state, ∀ y l, levels s !! y = Some l →
                           levels st !! y = Some l ∨ l = c + 1).
  change (I (loop_body f current c st)). unfold loop_body, router_part.
  assert (I (foldl (process_listener current c) st (_listeners f))) as Hround.
  { apply (foldl_invariant I); [by left|]. intros s e _ Hs y l Hl.
    apply process_listener_level in Hl as [Hl|?]; [by apply Hs | by right]. }
  case_decide; [|done].
  apply (foldl_invariant I); [done|]. intros s p _ Hs.
  apply (foldl_invariant I); [done|]. intros s' e _ Hs' y l Hl.
  apply process_path_listener_level in Hl as [Hl|?]; [by apply Hs' | by right].
Qed.

Lemma router_part_pending current c st :
  pending_and_listeners (router_part f current c st) = pending_and_listeners st.
Proof.
  unfold router_part. case_decide; [|done].
  apply (foldl_invariant
    (λ s, pending_and_listeners s = pending_and_listeners st)); [done|].
  intros s p _ Hs.
  apply (foldl_invariant
    (λ s, pending_and_listeners s = pending_and_listeners st)); [done|].
  intros s' [name [ct ts]] _ Hs'. unfold process_path_listener.
  case_decide; [|done]. by rewrite propose_pending.
Qed.
End levels_written.

(** ** Claims on the level map *)

Section levels_claims.
Import Levels.

(** C9. Every start method seeds the queue and has level 0: the first
    loop enqueues exactly the start methods, in the order of
    [flow._methods], each with level 0, and the level map returned by
    [calculate_node_levels] gives every start method level 0. *)
Theorem start_methods_have_level_zero (f : flow) :
  queue (initial f) = start_methods f ∧
  (∀ m, m ∈ start_methods f → levels (initial f) !! m = Some 0) ∧
  ∃ lv, (∀ fuel, enough_fuel f ≤ fuel →
           calculate_node_levels fuel f = Done lv) ∧
        ∀ m, m ∈ start_methods f → lv !! m = Some 0.
Proof.
  split; [apply initial_queue|]. split.
  - intros m Hm. rewrite initial_levels. by rewrite decide_True.
  - destruct (final_state f) as (st & Hrun & Hreach & _).
    exists (levels st). split; [done|]. intros m Hm.
    destruct (reachable_frontier f st Hreach) as [c Hfr].
    by apply (fr_start _ _ _ Hfr).
Qed.

(** One round of the AND branch, for a listener with a non-empty trigger
    list: a level is written or the listener enqueued only if [current] is
    one of its triggers and the accumulator, after [current] is recorded,
    equals the whole trigger set; otherwise the round changes neither the
    levels nor the queue. *)
Lemma and_branch_round (f : flow)
    (current : string) (rest : list string) (c : nat)
    (x : string) (ts : list string)
    (before after : list (string * listener)) (st : state) :
  NoDup (listener_names f) →
  reachable f st →
  queue st = current :: rest →
  levels st !! current = Some c →
  _listeners f = before ++ (x, ("AND", ts)) :: after →
  ts ≠ [] →
  let st1 := foldl (process_listener current c) (dequeue current rest st) before in
  let st2 := process_listener current c st1 (x, ("AND", ts)) in
  ∃ P, pending_and_listeners st2 !! x = Some P ∧ P ⊆ list_to_set ts ∧
    (levels st2 ≠ levels st1 ∨ queue st2 ≠ queue st1 →
       current ∈ ts ∧ P = list_to_set ts ∧
       levels st2 = <[x := c + 1]> (levels st1)) ∧
    (P ≠ list_to_set ts → levels st2 = levels st1 ∧ queue st2 = queue st1).
Proof.
  intros Hnd Hreach Hq Hc Hsplit Hts st1 st2.
  destruct (reachable_invariants f Hnd st Hreach) as ([c0 Hfr] & Hhi & _).
  destruct (dequeue_mid f _ _ _ _ Hfr Hhi Hq) as (c' & Hc' & Hdq).
  assert (c' = c) as -> by congruence.
  assert (mid f current c st1) as (Hfr1 & Hhi1 & Hproc1).
  { by eapply listeners_prefix_mid. }
  assert ((x, ("AND", ts)) ∈ _listeners f) as Hx.
  { rewrite Hsplit. apply elem_of_app. right. left. }
  set (p2 := recorded current x ts (pending_and_listeners st1)).
  assert (st2 = let s := set_pending p2 st1 in
                if decide (p2 !! x = Some (list_to_set ts))
                then propose x c s else s) as Hst2.
  { unfold st2, process_listener. rewrite decide_False by done.
    rewrite decide_True by done. apply and_branch_unfold. }
  destruct (p2 !! x) as [P|] eqn:HP; [|by unfold p2 in HP; rewrite recorded_same in HP].
  assert (P ⊆ list_to_set ts) as Hsub.
  { pose proof (recorded_pending f Hnd current c x "AND" ts st1 x ("AND", ts) P
                  Hhi1 Hproc1 Hx Hx HP) as Hsub. simpl in Hsub. set_solver. }
  exists P. simpl in Hst2. case_decide as Hsat.
  - injection Hsat as ->.
    destruct (levels st1 !! x) as [l|] eqn:Hl.
    + assert (st2 = set_pending p2 st1) as ->.
      { rewrite Hst2. unfold propose. simpl. rewrite Hl.
        pose proof (fr_bound _ _ _ Hfr1 _ _ Hl). by rewrite decide_False by lia. }
      simpl. split; [done|]. split; [done|]. split; [|done]. by intros [?|?].
    + assert (st2 = update_level x c (set_pending p2 st1)) as ->.
      { rewrite Hst2. unfold propose. simpl. by rewrite Hl. }
      simpl. split; [done|]. split; [done|]. split; [|done]. intros _.
      destruct (and_branch_fires f current x ts st1 Hhi1 Hx Hl HP) as [?|?]; done.
  - rewrite Hst2. simpl. split; [done|]. split; [done|].
    split; [by intros [?|?] | done].
Qed.

(** C1, as stated, fails: when the router [R] is dequeued, the listener
    [L] (AND of [p] and [B]) is given level 2 by the router part of the
    iteration, although [R] is not one of its triggers and its accumulator
    is empty. *)
Lemma and_listener_assigned_by_router_path :
  ∃ st, reachable flow_and_path st ∧ queue st = ["R"] ∧
    levels st !! "R" = Some 1 ∧ levels st !! "L" = None ∧
    ("L", ("AND", ["p"; "B"])) ∈ _listeners flow_and_path ∧ ("R" ∉ ["p"; "B"]) ∧
    let st' := loop_body flow_and_path "R" 1 (dequeue "R" [] st) in
    levels st' !! "L" = Some 2 ∧ pending_and_listeners st' !! "L" = Some ∅.
Proof.
  exists (default empty_state (steps 1 flow_and_path (initial flow_and_path))).
  split.
  { apply (steps_reachable flow_and_path 1 (initial flow_and_path));
      [apply reachable_initial | by vm_compute]. }
  split; [by vm_compute|]. split; [by vm_compute|]. split; [by vm_compute|].
  split; [by_computation|]. split; [by_computation|]. by vm_compute.
Qed.

(** C1 (as amended). In an iteration for a step [current] and an
    AND-listener [x] whose trigger list is not empty:

    - if [current] is not a router with a path among the triggers of [x],
      then [x] is given a level, or enqueued, only if [current] is one of
      its triggers and its accumulator, after [current] is recorded,
      equals its whole trigger set; the level is then [current_level + 1];
      while the accumulator is a proper subset of the trigger set, the
      iteration leaves the level of [x] as it is;
    - if [current] is a router with a path among the triggers of [x], the
      router part of the iteration proposes [current_level + 1] whatever
      the accumulator holds: a listener without a level gets
      [current_level + 1] and is enqueued, a listener with a level keeps
      it. *)
Theorem and_listener_assigned_when_satisfied (f : flow)
    (current : string) (rest : list string) (c : nat)
    (x : string) (ts : list string) (st : state) :
  NoDup (listener_names f) →
  reachable f st →
  queue st = current :: rest →
  levels st !! current = Some c →
  (x, ("AND", ts)) ∈ _listeners f →
  ts ≠ [] →
  let st' := loop_body f current c (dequeue current rest st) in
  ∃ P q, pending_and_listeners st' !! x = Some P ∧ P ⊆ list_to_set ts ∧
    queue st' = rest ++ q ∧
    ((current ∈ _routers f →
      ∀ p, p ∈ get_or_empty (_router_paths f) current → p ∉ ts) →
       (levels st' !! x ≠ levels st !! x ∨ x ∈ q →
          current ∈ ts ∧ P = list_to_set ts ∧ levels st' !! x = Some (c + 1)) ∧
       (P ≠ list_to_set ts → levels st' !! x = levels st !! x ∧ x ∉ q)) ∧
    (current ∈ _routers f →
     (∃ p, p ∈ get_or_empty (_router_paths f) current ∧ p ∈ ts) →
       levels st' !! x = Some (default (c + 1) (levels st !! x)) ∧
       (levels st !! x = None → x ∈ q)).
Proof.
  intros Hnd Hreach Hq Hc Hx Hts st'.
  pose proof Hx as Hx0.
  apply list_elem_of_split in Hx as (before & after & Hsplit).
  assert (NoDup (before.*1 ++ x :: after.*1)) as Hnd'.
  { unfold listener_names in Hnd. by rewrite Hsplit, fmap_app, fmap_cons in Hnd. }
  apply NoDup_app in Hnd' as (_ & Hbefore & Hafter).
  apply NoDup_cons in Hafter as [Hafter _].
  assert (∀ e, e ∈ before → e.1 ≠ x) as Hbefore'.
  { intros e He Heq. apply (Hbefore x); [|left].
    apply list_elem_of_fmap. by exists e. }
  assert (∀ e, e ∈ after → e.1 ≠ x) as Hafter'.
  { intros e He Heq. apply Hafter. apply list_elem_of_fmap. by exists e. }
  set (dq := dequeue current rest st) in *.
  set (st1 := foldl (process_listener current c) dq before).
  set (st2 := process_listener current c st1 (x, ("AND", ts))).
  set (st3 := foldl (process_listener current c) st2 after).
  assert (st' = router_part f current c st3) as Hst'.
  { unfold st', loop_body. by rewrite Hsplit, foldl_app. }
  assert (same_at x dq st1) as [Hl1 Hp1].
  { apply foldl_same_at. intros s e He. by apply process_listener_same_at, Hbefore'. }
  assert (same_at x st2 st3) as [Hl23 Hp23].
  { apply foldl_same_at. intros s e He. by apply process_listener_same_at, Hafter'. }
  assert (pending_and_listeners st' !! x = pending_and_listeners st2 !! x) as Hp2.
  { by rewrite Hst', router_part_pending. }
  destruct (and_branch_round f current rest c x ts before after st
              Hnd Hreach Hq Hc Hsplit Hts)
    as (P & HP & Hsub & Hchange & Hsame).
  fold dq st1 st2 in HP, Hchange, Hsame.
  destruct (reachable_frontier f st Hreach) as [c0 Hfr].
  destruct (dequeue_frontier f _ _ _ _ Hfr Hq) as (c' & Hc' & Hfr' & _).
  assert (c' = c) as -> by congruence.
  destruct (loop_body_keeps f current c dq Hfr') as (Hfr'' & Hext & _).
  destruct (ex_queue _ _ Hext) as (q & Hqueue & Hnew).
  exists P, q. split; [by rewrite Hp2|]. split; [done|]. split; [done|]. split.
  - intros Hrouter.
    assert (same_at x st3 st') as [Hl3' _].
    { rewrite Hst'. unfold router_part. case_decide as Hr; [|done].
      apply foldl_same_at. intros s p Hp. apply foldl_same_at. intros s' e He.
      apply process_path_listener_same_at. destruct e as [n e]. simpl. intros ->.
      assert (e = ("AND", ts)) as ->; [|by apply Hrouter].
      by apply (NoDup_fst_unique (_listeners f) x). }
    assert (levels st' !! x = levels st2 !! x) as Hl2 by by rewrite Hl3'.
    assert (levels st' !! x ≠ levels st !! x →
            current ∈ ts ∧ P = list_to_set ts ∧ levels st' !! x = Some (c + 1))
      as Hchanged.
    { intros Hne. destruct Hchange as (? & ? & Hins).
      - left. intros Heq. apply Hne. rewrite Hl2, Heq. exact Hl1.
      - split; [done|]. split; [done|]. by rewrite Hl2, Hins, lookup_insert_eq. }
    split.
    + intros [Hne|Hin]; [by apply Hchanged|]. apply Hchanged.
      destruct (Hnew x Hin) as [Hnone [l Hl]]. simpl in Hnone.
      fold st' in Hl. rewrite Hl, Hnone. done.
    + intros HP'. destruct (Hsame HP') as [Heq _].
      assert (levels st' !! x = levels st !! x) as Hkept.
      { rewrite Hl2, Heq. exact Hl1. }
      split; [done|]. intros Hin. destruct (Hnew x Hin) as [Hnone [l Hl]].
      simpl in Hnone. fold st' in Hl. congruence.
  - intros Hr (p & Hp & Hpts).
    assert (is_Some (levels st' !! x)) as [l Hl].
    { rewrite Hst'.
      apply (router_part_serves f current c st3 p (x, ("AND", ts))); try done.
      assert (st3 = foldl (process_listener current c) dq (_listeners f)) as ->.
      { by rewrite Hsplit, foldl_app. }
      eapply keeps_frontier. by apply listeners_round_keeps. }
    destruct (levels st !! x) as [l0|] eqn:Hl0; simpl.
    + split; [|done]. by apply (extends_lookup dq st').
    + assert (l = c + 1) as ->.
      { fold st' in Hl. unfold st' in Hl.
        apply loop_body_level in Hl as [Hl|?]; [|done]. simpl in Hl. congruence. }
      split; [done|]. intros _.
      assert (∀ y, y ∈ rest ∨ y ∈ visited dq → is_Some (levels st !! y)) as Hold.
      { intros y [Hy|Hy].
        - destruct (fr_queue _ _ _ Hfr) as (qa & qb & Hqq & Hqa & Hqb).
          assert (y ∈ queue st) as Hyq by (rewrite Hq; by right).
          rewrite Hqq in Hyq. rewrite Forall_forall in Hqa, Hqb.
          apply elem_of_app in Hyq as [Hyq|Hyq]; eexists; eauto.
        - destruct (fr_visited _ _ _ Hfr' _ Hy) as (ly & Hly & _). by eexists. }
      assert (x ∈ queue st' ∨ x ∈ visited st') as [Hin|Hin].
      { apply (fr_tracked _ _ _ Hfr''). by eexists. }
      * unfold st' in Hin. rewrite Hqueue in Hin. simpl in Hin.
        apply elem_of_app in Hin as [Hin|Hin]; [|done].
        destruct (Hold x) as [? ?]; [by left | congruence].
      * unfold st' in Hin. rewrite (ex_visited _ _ Hext) in Hin.
        destruct (Hold x) as [? ?]; [by right | congruence].
Qed.

Lemma and_listener_assigned_when_satisfied_witness :
  let st := default empty_state (steps 2 flow_example (initial flow_example)) in
  let st' := loop_body flow_example "B" 1 (dequeue "B" [] st) in
  ∃ P q, pending_and_listeners st' !! "D" = Some P ∧
    P ⊆ list_to_set ["B"; "C"] ∧
    queue st' = [] ++ q ∧
    ((("B" : string) ∈ _routers flow_example →
      ∀ p, p ∈ get_or_empty (_router_paths flow_example) "B" → p ∉ ["B"; "C"]) →
       (levels st' !! "D" ≠ levels st !! "D" ∨ "D" ∈ q →
          "B" ∈ ["B"; "C"] ∧ P = list_to_set ["B"; "C"] ∧
          levels st' !! "D" = Some (1 + 1)) ∧
       (P ≠ list_to_set ["B"; "C"] →
          levels st' !! "D" = levels st !! "D" ∧ "D" ∉ q)) ∧
    (("B" : string) ∈ _routers flow_example →
     (∃ p, p ∈ get_or_empty (_router_paths flow_example) "B" ∧ p ∈ ["B"; "C"]) →
       levels st' !! "D" = Some (default (1 + 1) (levels st !! "D")) ∧
       (levels st !! "D" = None → "D" ∈ q)).
Proof.
  apply (and_listener_assigned_when_satisfied flow_example "B" [] 1 "D"
           ["B"; "C"]
           (default empty_state (steps 2 flow_example (initial flow_example)))).
  - by_computation.
  - apply (steps_reachable flow_example 2 (initial flow_example));
      [apply reachable_initial | by vm_compute].
  - by vm_compute.
  - by vm_compute.
  - by_computation.
  - done.
Defined.

(** An AND-listener keeps the level that the path of a first router gave
    it when a second router, of a higher level, is dequeued. *)
Example and_listener_keeps_lower_level :
  let r := calculate_node_levels (enough_fuel flow_two_routers) flow_two_routers in
  level_of r "R0" = Some 1 ∧ level_of r "R" = Some 3 ∧
  level_of r "L" = Some 2 ∧ level_of r "B" = None.
Proof. repeat split; by vm_compute. Qed.

(** C2, as stated, fails: the AND-listener [L] gets level 2 from the path
    [p] of the router [R] while its trigger [B] has no level (and [p] never
    has one); and the AND-listener [S], a start method, has level 0, not
    one more than its trigger [A]. *)
Lemma and_listener_level_without_triggers :
  let r := calculate_node_levels (enough_fuel flow_and_path) flow_and_path in
  let r' := calculate_node_levels (enough_fuel (flow_start_listener "AND"))
              (flow_start_listener "AND") in
  ("L", ("AND", ["p"; "B"])) ∈ _listeners flow_and_path ∧
  level_of r "L" = Some 2 ∧ level_of r "B" = None ∧ level_of r "p" = None ∧
  ("S", ("AND", ["A"])) ∈ _listeners (flow_start_listener "AND") ∧
  level_of r' "S" = Some 0 ∧ level_of r' "A" = Some 0.
Proof.
  split; [by_computation|]. split; [by vm_compute|]. split; [by vm_compute|].
  split; [by vm_compute|]. split; [by_computation|]. by vm_compute.
Qed.

(** C2 (as amended). An AND-listener with a non-empty trigger list that
    is not a start method and has no router path among its triggers has
    no level before all its triggers have one, and its level is one plus
    the greatest level of its triggers; levels, once assigned, do not
    change, so these are the levels at which the triggers were first
    reached.  When the loop ends the listener has a level exactly when
    all its triggers have one.

    An AND-listener with a path of a router among its triggers has, from
    the iteration that dequeues the router on, a level of at most the
    level of the router plus one, whatever its other triggers are (a lower
    level that it already has is kept); an AND-listener that is a start
    method keeps level 0. *)
Theorem and_listener_level (f : flow) (x : string) (ts : list string) :
  NoDup (listener_names f) →
  (x, ("AND", ts)) ∈ _listeners f →
  (∀ st st', reachable f st → step f st = Some (Done st') →
     levels st ⊆ levels st') ∧
  ∃ lv, (∀ fuel, enough_fuel f ≤ fuel →
           calculate_node_levels fuel f = Done lv) ∧
    (ts ≠ [] → x ∉ start_methods f →
     (∀ r p, r ∈ _routers f → p ∈ get_or_empty (_router_paths f) r → p ∉ ts) →
       (∀ st l, reachable f st → levels st !! x = Some l →
          (∀ t, t ∈ ts → is_Some (levels st !! t)) ∧
          l = max_level (levels st) ts + 1) ∧
       (is_Some (lv !! x) ↔ ∀ t, t ∈ ts → is_Some (lv !! t)) ∧
       (∀ l, lv !! x = Some l → l = max_level lv ts + 1)) ∧
    (∀ r p, r ∈ _routers f → p ∈ get_or_empty (_router_paths f) r → p ∈ ts →
       (∀ st, reachable f st → r ∈ visited st →
          ∃ l lr, levels st !! x = Some l ∧ levels st !! r = Some lr ∧
                  l ≤ lr + 1) ∧
       (∀ lr, lv !! r = Some lr → ∃ l, lv !! x = Some l ∧ l ≤ lr + 1)) ∧
    (x ∈ start_methods f → lv !! x = Some 0).
Proof.
  intros Hnd Hx.
  split; [apply step_keeps_levels|].
  destruct (final_state f) as (st & Hrun & Hreach & Hq & Hvis).
  exists (levels st). split; [done|].
  destruct (reachable_invariants f Hnd st Hreach) as ([c Hfr] & Hhi & Hco).
  split; [|split].
  - intros Hts Hstart Hpaths.
    assert (∀ st l, reachable f st → levels st !! x = Some l →
       (∀ t, t ∈ ts → is_Some (levels st !! t)) ∧
       l = max_level (levels st) ts + 1) as Hsafe.
    { intros st0 l Hreach0 Hl.
      destruct (reachable_invariants f Hnd st0 Hreach0) as (_ & Hhi0 & _).
      destruct (hi_origin _ _ Hhi0 _ _ Hl)
        as [[? _]|(s & ls & e & He & Hs & Hls & -> & Hc)]; [done|].
      rewrite (listener_unique f Hnd _ _ _ He Hx) in Hc.
      inversion Hc as [|ts' Hin Hall|ct ts' p Hr Hp Hpt]; subst.
      - destruct Hin as [Hin|?]; [|done]. split.
        + intros t Ht. destruct (Hall t Ht) as (lt & -> & _). by eexists.
        + f_equal. symmetry. apply max_level_eq; [done|]. by exists s.
      - by destruct (Hpaths s p). }
    split; [done|]. split; [|by intros l; apply Hsafe].
    split.
    + intros [l Hl]. by apply (Hsafe st l).
    + intros Hall. destruct ts as [|t0 ts0] eqn:Hts0; [done|]. rewrite <- Hts0 in *.
      assert (t0 ∈ ts) as Ht0 by (rewrite Hts0; left).
      destruct (co_pending _ _ Hco _ _ t0 Hx) as (P & HP & _); [by auto | done |].
      apply (hi_satisfied _ _ Hhi x ("AND", ts) Hx). simpl. rewrite HP. f_equal.
      pose proof (hi_pending _ _ Hhi _ _ _ Hx HP) as Hsub. simpl in Hsub.
      apply set_eq. intros t. split; [set_solver|]. intros Ht.
      apply elem_of_list_to_set in Ht.
      destruct (co_pending _ _ Hco _ _ t Hx) as (P' & HP' & ?); [by auto | done |].
      congruence.
  - intros r p Hr Hp Hpts. split.
    + intros st0 Hreach0 Hvis0.
      destruct (reachable_invariants f Hnd st0 Hreach0) as (_ & _ & Hco0).
      exact (co_router _ _ Hco0 x ("AND", ts) r p Hx Hvis0 Hr Hp Hpts).
    + intros lr Hlr.
      assert (r ∈ visited st) as Hvr by (apply Hvis; by eexists).
      destruct (co_router _ _ Hco x ("AND", ts) r p Hx Hvr Hr Hp Hpts)
        as (l & lr' & Hl & Hlr' & ?).
      exists l. split; [done|]. assert (lr' = lr) by congruence. lia.
  - intros Hstart. by apply (fr_start _ _ _ Hfr).
Qed.

Lemma and_listener_level_witness :
  (∀ st st', reachable flow_join st → step flow_join st = Some (Done st') →
     levels st ⊆ levels st') ∧
  ∃ lv, (∀ fuel, enough_fuel flow_join ≤ fuel →
           calculate_node_levels fuel flow_join = Done lv) ∧
    (["B"; "C"] ≠ [] → ("D" ∉ start_methods flow_join) →
     (∀ r p, r ∈ _routers flow_join →
             p ∈ get_or_empty (_router_paths flow_join) r → p ∉ ["B"; "C"]) →
       (∀ st l, reachable flow_join st → levels st !! "D" = Some l →
          (∀ t, t ∈ ["B"; "C"] → is_Some (levels st !! t)) ∧
          l = max_level (levels st) ["B"; "C"] + 1) ∧
       (is_Some (lv !! "D") ↔ ∀ t, t ∈ ["B"; "C"] → is_Some (lv !! t)) ∧
       (∀ l, lv !! "D" = Some l → l = max_level lv ["B"; "C"] + 1)) ∧
    (∀ r p, r ∈ _routers flow_join →
            p ∈ get_or_empty (_router_paths flow_join) r → p ∈ ["B"; "C"] →
       (∀ st, reachable flow_join st → r ∈ visited st →
          ∃ l lr, levels st !! "D" = Some l ∧ levels st !! r = Some lr ∧
                  l ≤ lr + 1) ∧
       (∀ lr, lv !! r = Some lr → ∃ l, lv !! "D" = Some l ∧ l ≤ lr + 1)) ∧
    ("D" ∈ start_methods flow_join → lv !! "D" = Some 0).
Proof.
  apply (and_listener_level flow_join "D" ["B"; "C"]).
  - by_computation.
  - by_computation.
Defined.

(** C6, as stated, fails: the OR-listener [L] has level 2, one more than
    the router [R] whose path [p] it listens to, while [p] has no level and
    its only trigger with a level, [Y], has level 3; and the OR-listener
    [S], a start method, has level 0, not one more than its trigger [A]. *)
Lemma or_listener_level_from_router_path :
  let r := calculate_node_levels (enough_fuel flow_or_path) flow_or_path in
  let r' := calculate_node_levels (enough_fuel (flow_start_listener "OR"))
              (flow_start_listener "OR") in
  ("L", ("OR", ["p"; "Y"])) ∈ _listeners flow_or_path ∧
  level_of r "L" = Some 2 ∧ level_of r "Y" = Some 3 ∧ level_of r "p" = None ∧
  level_of r "R" = Some 1 ∧
  ("S", ("OR", ["A"])) ∈ _listeners (flow_start_listener "OR") ∧
  level_of r' "S" = Some 0 ∧ level_of r' "A" = Some 0.
Proof.
  split; [by_computation|]. split; [by vm_compute|]. split; [by vm_compute|].
  split; [by vm_compute|]. split; [by vm_compute|]. split; [by_computation|].
  by vm_compute.
Qed.

(** C6 (as amended). The level of an OR-listener that is not a start
    method is one plus the least level among the steps that fire it: its
    trigger steps and the routers with one of its triggers as a path.
    A proposal never raises a level that is already assigned. *)
Theorem or_listener_level (f : flow) (x : string) (ts : list string) :
  NoDup (listener_names f) →
  (x, ("OR", ts)) ∈ _listeners f →
  x ∉ start_methods f →
  (∀ st name c y l, levels st !! y = Some l →
     ∃ l', levels (propose name c st) !! y = Some l' ∧ l' ≤ l) ∧
  ∃ lv, (∀ fuel, enough_fuel f ≤ fuel →
           calculate_node_levels fuel f = Done lv) ∧
        ∀ l, lv !! x = Some l →
          (∃ s ls, fires f s ts ∧ lv !! s = Some ls ∧ l = ls + 1) ∧
          (∀ s ls, fires f s ts → lv !! s = Some ls → l ≤ ls + 1).
Proof.
  intros Hnd Hx Hstart. split.
  { intros st name c y l Hy. unfold propose.
    destruct (levels st !! name) as [l0|] eqn:Hname.
    - case_decide; [|by exists l]. simpl. rewrite lookup_insert.
      case_decide as Hy'; [|by exists l]. subst y. exists (c + 1).
      split; [done|]. assert (l0 = l) by congruence. lia.
    - simpl. exists l. split; [|done]. by apply lookup_insert_fresh. }
  destruct (final_state f) as (st & Hrun & Hreach & Hq & Hvis).
  exists (levels st). split; [done|]. intros l Hl.
  destruct (reachable_invariants f Hnd st Hreach) as (_ & Hhi & Hco).
  split.
  - destruct (hi_origin _ _ Hhi _ _ Hl) as [[? _]|(s & ls & e & He & Hs & Hls & -> & Hc)];
      [done|].
    rewrite (listener_unique f Hnd _ _ _ He Hx) in Hc.
    exists s, ls. split; [|done].
    inversion Hc as [ts' Hin| |ct ts' p Hr Hp Hpt]; subst.
    + by left.
    + right. split; [done|]. by exists p.
  - intros s ls Hfires Hls.
    assert (s ∈ visited st) as Hs by (apply Hvis; by eexists).
    assert (leveled_after (levels st) s x) as (l' & ls' & Hl' & Hls' & ?).
    { destruct Hfires as [Hin|(Hr & p & Hp & Hpt)].
      - by eapply co_or.
      - by eapply (co_router _ _ Hco x ("OR", ts) s p). }
    assert (l' = l) by congruence. assert (ls' = ls) by congruence. lia.
Qed.

Lemma or_listener_level_witness :
  (∀ st name c y l, levels st !! y = Some l →
     ∃ l', levels (propose name c st) !! y = Some l' ∧ l' ≤ l) ∧
  ∃ lv, (∀ fuel, enough_fuel flow_or_path ≤ fuel →
           calculate_node_levels fuel flow_or_path = Done lv) ∧
        ∀ l, lv !! "L" = Some l →
          (∃ s ls, fires flow_or_path s ["p"; "Y"] ∧ lv !! s = Some ls ∧ l = ls + 1) ∧
          (∀ s ls, fires flow_or_path s ["p"; "Y"] → lv !! s = Some ls → l ≤ ls + 1).
Proof.
  apply (or_listener_level flow_or_path "L" ["p"; "Y"]).
  - by_computation.
  - by_computation.
  - by_computation.
Defined.
End levels_claims.

(** ** The depth-first ancestor propagation *)

Lemma run_bind_Done {A B} (m : run A) (k : A → run B) (b : B) :
  run_bind m k = Done b → ∃ a, m = Done a ∧ k a = Done b.
Proof. destruct m as [a| |]; simpl; [|done..]. intros Hk. by exists a. Qed.

Lemma for_each_invariant {A S} (I : S → Prop) (body : S → A → run S)
    (l : list A) (st st' : S) :
  I st →
  (∀ s a s', a ∈ l → I s → body s a = Done s' → I s') →
  for_each body l st = Done st' → I st'.
Proof.
  revert st. induction l as [|a l IH]; simpl; intros st Hst Hbody.
  - by intros [= <-].
  - intros Hrun. apply run_bind_Done in Hrun as (s1 & Ha & Hrest).
    apply (IH s1); [| |done].
    + eapply Hbody; [left | done | done].
    + intros s b s' Hb. apply Hbody. by right.
Qed.

Lemma for_each_total {A S} (J : S → Prop) (body : S → A → run S)
    (l : list A) (st : S) :
  J st →
  (∀ s a, a ∈ l → J s → ∃ s', body s a = Done s' ∧ J s') →
  ∃ st', for_each body l st = Done st' ∧ J st'.
Proof.
  revert st. induction l as [|a l IH]; simpl; intros st Hst Hbody.
  - by exists st.
  - destruct (Hbody st a) as (s1 & -> & Hs1); [left | done |]. simpl.
    apply IH; [done|]. intros s b Hb. apply Hbody. by right.
Qed.

Section ancestors_facts.
Import Ancestors.
Variable f : flow.

Lemma add_node_sound name ct ts node anc anc' :
  sound f anc → known f node → (name, (ct, ts)) ∈ _listeners f → node ∈ ts →
  add_node name node anc = Done anc' → sound f anc'.
Proof.
  intros [Helem Hkeys] Hnode Hname Hts. unfold add_node, item.
  destruct (anc !! name) as [s|] eqn:Hs; simpl; [|done]. intros [= <-]. split.
  - intros x S a. rewrite lookup_insert. case_decide as Hx; [|by apply Helem].
    subst x. intros [= <-] Ha. apply elem_of_union in Ha as [Ha|Ha].
    + by eapply Helem.
    + apply elem_of_singleton in Ha as ->. split; [done|].
      exists name. split; [by exists ct, ts | done].
  - intros x. rewrite lookup_insert. case_decide as Hx; [|by apply Hkeys].
    subst x. intros _. apply Hkeys. by eexists.
Qed.

Lemma update_from_sound name node anc anc' :
  sound f anc → edge f node name →
  update_from name node anc = Done anc' → sound f anc'.
Proof.
  intros [Helem Hkeys] Hedge. unfold update_from, item.
  destruct (anc !! name) as [s|] eqn:Hs; simpl; [|done].
  destruct (anc !! node) as [sn|] eqn:Hsn; simpl; [|done]. intros [= <-]. split.
  - intros x S a. rewrite lookup_insert. case_decide as Hx; [|by apply Helem].
    subst x. intros [= <-] Ha. apply elem_of_union in Ha as [Ha|Ha].
    + by eapply Helem.
    + destruct (Helem _ _ _ Hsn Ha) as (? & y & ? & Hrtc). split; [done|].
      exists y. split; [done|]. by eapply rtc_r.
  - intros x. rewrite lookup_insert. case_decide as Hx; [|by apply Hkeys].
    subst x. intros _. apply Hkeys. by eexists.
Qed.

Lemma listener_known name e : (name, e) ∈ _listeners f → known f name.
Proof. intros He. right. apply list_elem_of_fmap. by exists (name, e). Qed.

Lemma dfs_ancestors_sound fuel node st st' :
  known f node → sound f (ancestors st) →
  dfs_ancestors fuel f node st = Done st' → sound f (ancestors st').
Proof.
  revert node st st'. induction fuel as [|fuel IH]; intros node st st' Hnode Hst;
    simpl; [done|].
  case_decide as Hvis; [by intros [= <-]|].
  intros Hrun. apply run_bind_Done in Hrun as (st1 & Hregular & Hrouter).
  assert (sound f (ancestors st1)) as Hst1.
  { revert Hregular. apply (for_each_invariant (λ s, sound f (ancestors s))); [done|].
    intros s [name [ct ts]] s' He Hs.
    destruct (decide (node ∈ ts)) as [Hts|Hts]; [|by intros [= <-]].
    intros Hrun. apply run_bind_Done in Hrun as (a1 & Ha1 & Hrun).
    apply run_bind_Done in Hrun as (a2 & Ha2 & Hrun).
    eapply IH; [by eapply listener_known | | exact Hrun]. simpl.
    eapply update_from_sound; [|by exists ct, ts; split; [|left] | exact Ha2].
    by eapply add_node_sound. }
  destruct (decide (node ∈ _routers f)) as [Hr|Hr]; [|by injection Hrouter as <-].
  revert Hrouter. apply (for_each_invariant (λ s, sound f (ancestors s))); [done|].
  intros s path s' Hpath Hs.
  apply (for_each_invariant (λ s, sound f (ancestors s))); [done|].
  intros s2 [name [ct ts]] s2' He Hs2.
  destruct (decide (path ∈ ts)) as [Hts|Hts]; [|by intros [= <-]].
  intros Hrun. apply run_bind_Done in Hrun as (a & Ha & Hrun).
  eapply IH; [by eapply listener_known | | exact Hrun]. simpl.
  eapply update_from_sound; [done | | exact Ha].
  exists ct, ts. split; [done|]. right. split; [done|]. by exists path.
Qed.

Lemma empty_sets_lookup x :
  empty_sets f !! x = if decide (x ∈ method_names f) then Some ∅ else None.
Proof.
  unfold empty_sets, method_names.
  assert (∀ l (a0 : gmap string (gset string)),
    foldl (λ a (nm : string * method), <[nm.1 := ∅]> a) a0 l !! x =
    if decide (x ∈ l.*1) then Some ∅ else a0 !! x) as Hfold.
  { induction l as [|[n m] l IH]; intros a0; [done|].
    cbn [foldl]. rewrite IH, fmap_cons. cbn [fst].
    destruct (decide (x = n)) as [->|Hx].
    - rewrite lookup_insert_eq. rewrite (decide_True (P := n ∈ n :: _)) by left.
      by case_decide.
    - rewrite lookup_insert_ne by done.
      repeat case_decide; try done; exfalso; set_solver. }
  rewrite Hfold. by case_decide.
Qed.

Lemma empty_sets_sound : sound f (empty_sets f).
Proof.
  split.
  - intros x S a. rewrite empty_sets_lookup. case_decide; [|done].
    intros [= <-]. set_solver.
  - intros x. rewrite empty_sets_lookup. case_decide; [done | by intros [??]].
Qed.

Lemma build_ancestor_dict_sound fuel anc :
  build_ancestor_dict fuel f = Done anc → sound f anc.
Proof.
  unfold build_ancestor_dict. intros Hrun.
  apply run_bind_Done in Hrun as (st & Hrun & [= <-]).
  revert Hrun. apply (for_each_invariant (λ s, sound f (ancestors s))).
  - apply empty_sets_sound.
  - intros s [n m] s' Hnm Hs. simpl. case_decide; [by intros [= <-]|].
    apply dfs_ancestors_sound; [|done]. left. apply list_elem_of_fmap.
    by exists (n, m).
Qed.
End ancestors_facts.

Lemma size_list_to_set_le (l : list string) :
  size (list_to_set l : gset string) ≤ length l.
Proof.
  induction l as [|x l IH].
  - change (size (∅ : gset string) ≤ 0). by rewrite size_empty.
  - rewrite list_to_set_cons. cbn [length].
    rewrite size_union_alt, size_singleton.
    assert (size (list_to_set l ∖ {[x]} : gset string) ≤ size (list_to_set l : gset string)).
    { apply subseteq_size. set_solver. }
    lia.
Qed.

Section ancestors_termination.
Import Ancestors.
Variable f : flow.
Hypothesis listeners_registered : ∀ x, x ∈ listener_names f → x ∈ method_names f.

Lemma insert_methods_present name s anc :
  methods_present f anc → methods_present f (<[name := s]> anc).
Proof.
  intros Hanc x Hx. rewrite lookup_insert. case_decide; [by eexists | by apply Hanc].
Qed.

Lemma add_node_total name node anc :
  methods_present f anc → name ∈ method_names f →
  ∃ anc', add_node name node anc = Done anc' ∧ methods_present f anc'.
Proof.
  intros Hanc Hname. unfold add_node, item.
  destruct (Hanc _ Hname) as [s ->]. simpl. eexists. split; [done|].
  by apply insert_methods_present.
Qed.

Lemma update_from_total name node anc :
  methods_present f anc → name ∈ method_names f → node ∈ method_names f →
  ∃ anc', update_from name node anc = Done anc' ∧ methods_present f anc'.
Proof.
  intros Hanc Hname Hnode. unfold update_from, item.
  destruct (Hanc _ Hname) as [s ->]. destruct (Hanc _ Hnode) as [sn ->]. simpl.
  eexists. split; [done|]. by apply insert_methods_present.
Qed.

Lemma listener_registered name e : (name, e) ∈ _listeners f → name ∈ method_names f.
Proof using listeners_registered.
  intros He. apply listeners_registered. apply list_elem_of_fmap. by exists (name, e).
Qed.

Lemma dfs_ancestors_total fuel node st :
  node ∈ method_names f → ready f st →
  size (list_to_set (method_names f) ∖ visited st) < fuel →
  ∃ st', dfs_ancestors fuel f node st = Done st' ∧ ready f st' ∧
         visited st ⊆ visited st'.
Proof using listeners_registered.
  revert node st. induction fuel as [|fuel IH]; intros node st Hnode Hst Hfuel;
    [lia|].
  simpl. destruct (decide (node ∈ visited st)) as [Hvis|Hvis]; [by exists st|].
  set (J := λ s : state, ready f s ∧ visited st ∪ {[node]} ⊆ visited s).
  assert (∀ s, J s → size (list_to_set (method_names f) ∖ visited s) < fuel) as Hsize.
  { intros s [_ Hsub].
    assert (size (list_to_set (method_names f) ∖ visited s) <
            size (list_to_set (method_names f) ∖ visited st)); [|lia].
    apply subset_size. split; [set_solver|]. intros Hsub'.
    assert (node ∈ list_to_set (method_names f) ∖ visited s) by set_solver.
    set_solver. }
  assert (∀ s name e a, J s → (name, e) ∈ _listeners f →
            methods_present f a →
            ∃ s', dfs_ancestors fuel f name (with_ancestors a s) = Done s' ∧ J s')
    as Hcall.
  { intros s name e a [[Hk Hv] Hsub] He Ha.
    destruct (IH name (with_ancestors a s)) as (s' & Hs' & Hready & Hmono).
    - by eapply listener_registered.
    - by split.
    - apply Hsize. by split.
    - exists s'. split; [done|]. split; [done|]. simpl in Hmono. set_solver. }
  destruct (for_each_total J
    (λ st (entry : string * listener),
       let '(listener_name, (_, trigger_methods)) := entry in
       if decide (node ∈ trigger_methods) then
         a1 ←ᵣ add_node listener_name node (ancestors st);
         a2 ←ᵣ update_from listener_name node a1;
         dfs_ancestors fuel f listener_name (with_ancestors a2 st)
       else Done st)
    (_listeners f)
    {| ancestors := ancestors st; visited := visited st ∪ {[node]} |})
    as (st1 & -> & Hst1).
  { split; [|done]. destruct Hst as [Hk Hv]. split; [done|]. simpl.
    assert (node ∈ (list_to_set (method_names f) : gset string)) by set_solver.
    set_solver. }
  { intros s [name [ct ts]] He Hs.
    destruct (decide (node ∈ ts)); [|by exists s].
    destruct (add_node_total name node (ancestors s)) as (a1 & -> & Ha1).
    { exact (re_keys _ _ (proj1 Hs)). } { by eapply listener_registered. }
    cbn [run_bind]. destruct (update_from_total name node a1) as (a2 & -> & Ha2);
      [done | by eapply listener_registered | done |].
    simpl. by eapply Hcall. }
  simpl.
  assert (∃ st', (if decide (node ∈ _routers f) then
      for_each (λ st path,
        for_each (λ st (entry : string * listener),
          let '(listener_name, (_, trigger_methods)) := entry in
          if decide (path ∈ trigger_methods) then
            a ←ᵣ update_from listener_name node (ancestors st);
            dfs_ancestors fuel f listener_name (with_ancestors a st)
          else Done st) (_listeners f) st)
        (get_or_empty (_router_paths f) node) st1
    else Done st1) = Done st' ∧ J st') as (st' & -> & Hst').
  { destruct (decide (node ∈ _routers f)); [|by exists st1].
    apply for_each_total; [done|]. intros s path _ Hs.
    apply for_each_total; [done|]. intros s2 [name [ct ts]] He Hs2.
    destruct (decide (path ∈ ts)); [|by exists s2].
    destruct (update_from_total name node (ancestors s2)) as (a & -> & Ha);
      [exact (re_keys _ _ (proj1 Hs2)) | by eapply listener_registered | done |].
    simpl. by eapply Hcall. }
  exists st'. split; [done|]. destruct Hst' as [? ?]. split; [done | set_solver].
Qed.

Lemma build_ancestor_dict_total fuel :
  enough_fuel f ≤ fuel → ∃ anc, build_ancestor_dict fuel f = Done anc.
Proof using listeners_registered.
  intros Hfuel. unfold build_ancestor_dict.
  destruct (for_each_total (ready f)
    (λ st (nm : string * method),
       if decide (nm.1 ∈ visited st) then Done st
       else dfs_ancestors fuel f nm.1 st)
    (_methods f) {| ancestors := empty_sets f; visited := ∅ |}) as (st & -> & _).
  - split; simpl; [|set_solver]. intros x Hx. rewrite empty_sets_lookup.
    rewrite decide_True by done. by eexists.
  - intros s [n m] Hnm Hs. simpl. destruct (decide (n ∈ visited s)); [by exists s|].
    destruct (dfs_ancestors_total fuel n s) as (s' & ? & ? & _); [|done| |by exists s'].
    + apply list_elem_of_fmap. by exists (n, m).
    + pose proof (size_list_to_set_le (method_names f)) as Hle.
      assert (size (list_to_set (method_names f) ∖ visited s) ≤
              size (list_to_set (method_names f) : gset string)).
      { apply subseteq_size. set_solver. }
      unfold enough_fuel, method_names in *. rewrite length_fmap in Hle. lia.
  - simpl. by eexists.
Qed.
End ancestors_termination.

(** ** Claims on the ancestor map *)

Section ancestors_claims.
Import Ancestors.

(** C3. The ancestor map is not transitively closed.  With two start
    methods [A] and [A2] that both trigger [B], [B] is visited from [A]
    before [A2] is processed: [A2] is an ancestor of [B] and [B] an
    ancestor of [C], but [A2] is not an ancestor of [C].  The result also
    depends on the order of [flow._methods]: with the listener [B] before
    its trigger [A], [A] is an ancestor of [B] and [B] of [C], but [A] is
    not an ancestor of [C]; with [A] first it is. *)
Theorem ancestors_not_transitively_closed :
  let two_starts :=
    build_ancestor_dict (enough_fuel flow_two_starts) flow_two_starts in
  let listener_first :=
    build_ancestor_dict (enough_fuel flow_listener_first) flow_listener_first in
  let start_first :=
    build_ancestor_dict (enough_fuel flow_start_first) flow_start_first in
  (ancestor_query two_starts "C" "B" = Some true ∧
   ancestor_query two_starts "B" "A2" = Some true ∧
   ancestor_query two_starts "C" "A2" = Some false) ∧
  (ancestor_query listener_first "C" "B" = Some true ∧
   ancestor_query listener_first "B" "A" = Some true ∧
   ancestor_query listener_first "C" "A" = Some false ∧
   ancestor_query start_first "C" "A" = Some true).
Proof. by vm_compute. Qed.



End ancestors_claims.

(** ** The order of strings and the sorted child list *)

Lemma string_compare_trans (s1 s2 s3 : string) :
  String.compare s1 s2 ≠ Gt → String.compare s2 s3 ≠ Gt →
  String.compare s1 s3 ≠ Gt.
Proof.
  revert s2 s3. induction s1 as [|a1 s1 IH]; intros [|a2 s2] [|a3 s3]; simpl;
    try done.
  unfold Ascii.compare.
  destruct (N.compare_spec (N_of_ascii a1) (N_of_ascii a2)) as [H12|H12|H12];
    destruct (N.compare_spec (N_of_ascii a2) (N_of_ascii a3)) as [H23|H23|H23];
    destruct (N.compare_spec (N_of_ascii a1) (N_of_ascii a3)) as [H13|H13|H13];
    try done; try lia.
  apply IH.
Qed.

#[global] Instance string_le_trans : Transitive string_le.
Proof.
  intros s1 s2 s3. unfold string_le, String.leb. intros H12 H23.
  pose proof (string_compare_trans s1 s2 s3) as H13.
  destruct (String.compare s1 s2); [| |done];
    (destruct (String.compare s2 s3); [| |done]);
    (destruct (String.compare s1 s3); [done | done | by destruct H13]).
Qed.

#[global] Instance string_le_total : Total string_le.
Proof. intros s1 s2. apply String.leb_total. Qed.

#[global] Instance string_le_antisym : AntiSymm (=) string_le.
Proof. intros s1 s2. apply String.leb_antisym. Qed.

Section children_facts.
Import Children.

Lemma sort_sorted cs : Sorted string_le (sort cs).
Proof. apply Sorted_merge_sort, _. Qed.

Lemma sort_permutation cs : sort cs ≡ₚ cs.
Proof. apply merge_sort_Permutation. Qed.

(** Sorting forgets the order of insertion. *)
Lemma sort_order_independent cs cs' : cs' ≡ₚ cs → sort cs' = sort cs.
Proof.
  intros Hperm. apply (Sorted_unique string_le); try apply sort_sorted.
  by rewrite !sort_permutation.
Qed.

Lemma index_Some child cs i :
  index child cs = Some i ↔
  cs !! i = Some child ∧ ∀ j, j < i → cs !! j ≠ Some child.
Proof.
  revert i. induction cs as [|c cs IH]; intros i; simpl.
  { split; [done | by intros [? _]]. }
  case_decide as Hc.
  - subst c. split.
    + intros [= <-]. split; [done|]. intros j Hj. lia.
    + intros [Hi Hfirst]. destruct i as [|i]; [done|].
      by destruct (Hfirst 0); [lia|].
  - destruct (index child cs) as [k|]; simpl.
    + split.
      * intros [= <-]. destruct (proj1 (IH k) eq_refl) as [Hk Hfirst].
        split; [done|].
        intros [|j] Hj; simpl; [congruence | apply Hfirst; lia].
      * intros [Hi Hfirst]. destruct i as [|i]; simpl in Hi; [congruence|].
        f_equal. assert (Some k = Some i) as Hki; [|congruence].
        apply IH. split; [done|].
        intros j Hj. apply (Hfirst (S j)). lia.
    + split; [done|]. intros [Hi Hfirst]. destruct i as [|i]; simpl in Hi; [congruence|].
      assert (None = Some i) as Hi'; [|done].
      apply IH. split; [done|]. intros j Hj. apply (Hfirst (S j)). lia.
Qed.

Lemma index_None child cs : index child cs = None ↔ child ∉ cs.
Proof.
  induction cs as [|c cs IH]; simpl.
  { split; [intros _; apply not_elem_of_nil | done]. }
  case_decide as Hc.
  - subst c. split; [done|]. intros Hnot. destruct Hnot. left.
  - destruct (index child cs) as [k|]; simpl.
    + split; [done|]. intros Hnot. exfalso.
      assert (child ∉ cs) as Hcs by set_solver. by apply IH in Hcs.
    + split; [|done]. intros _. apply not_elem_of_cons. split; [done|]. by apply IH.
Qed.

Lemma add_child_has_child parent child pc : has_child parent child (add_child parent child pc).
Proof.
  unfold add_child, has_child.
  destruct (pc !! parent) as [cs|] eqn:Hcs.
  - rewrite Hcs. case_decide.
    + by exists cs.
    + rewrite lookup_insert_eq. eexists. split; [done|]. set_solver.
  - rewrite lookup_insert_eq. rewrite decide_False by apply not_elem_of_nil.
    rewrite lookup_insert_eq. eexists. split; [done|]. set_solver.
Qed.

Lemma add_child_keeps parent child p c pc :
  has_child p c pc → has_child p c (add_child parent child pc).
Proof.
  unfold add_child, has_child. intros (cs & Hcs & Hc).
  destruct (decide (p = parent)) as [->|Hp].
  - rewrite Hcs. rewrite Hcs. case_decide; [by exists cs|].
    rewrite lookup_insert_eq. eexists. split; [done|]. set_solver.
  - destruct (pc !! parent) as [cs'|] eqn:Hcs'.
    + rewrite Hcs'. case_decide; [by exists cs|].
      rewrite lookup_insert_ne by done. by exists cs.
    + rewrite lookup_insert_eq. rewrite decide_False by apply not_elem_of_nil.
      rewrite !lookup_insert_ne by done. by exists cs.
Qed.

Lemma add_listener_keeps e p c pc : has_child p c pc → has_child p c (add_listener pc e).
Proof.
  destruct e as [name [ct ts]]. simpl. intros Hpc.
  apply (foldl_invariant (has_child p c)); [done|].
  intros s t _. apply add_child_keeps.
Qed.

Lemma add_listener_has_child name ct ts t pc :
  t ∈ ts → has_child t name (add_listener pc (name, (ct, ts))).
Proof.
  intros Ht. simpl.
  apply (foldl_establish (λ _, True) (λ t pc, has_child t name pc)); try done.
  - intros s a _ _. apply add_child_has_child.
  - intros s a b _ _. apply add_child_keeps.
Qed.

Lemma add_router f e p c pc : has_child p c pc → has_child p c (add_router f pc e).
Proof.
  destruct e as [router paths]. simpl. intros Hpc.
  apply (foldl_invariant (has_child p c)); [done|]. intros s path _ Hs.
  apply (foldl_invariant (has_child p c)); [done|]. intros s' [name [ct ts]] _ Hs'.
  case_decide; [by apply add_child_keeps | done].
Qed.

(** Every trigger of every listener gets an entry that holds the
    listener, whatever the trigger names. *)
Lemma build_parent_children_dict_trigger f name ct ts t :
  (name, (ct, ts)) ∈ _listeners f → t ∈ ts →
  has_child t name (build_parent_children_dict f).
Proof.
  intros He Ht. unfold build_parent_children_dict.
  apply (foldl_invariant (has_child t name)); [|intros s e _; apply add_router].
  apply (foldl_establish (λ _, True)
           (λ e pc, ∀ t, t ∈ e.2.2 → has_child t e.1 pc)
           add_listener (_listeners f) ∅ I) with (a := (name, (ct, ts))); try done.
  - intros s [n [c l]] _ _ t' Ht'. by apply add_listener_has_child.
  - intros s a b _ _ Ha t' Ht'. by apply add_listener_keeps, Ha.
Qed.
End children_facts.

(** ** Claims on the child index *)

Section children_claims.
Import Children.

(** C7. For a parent with an entry and a child in its list,
    [get_child_index] returns the zero-based position of the child in the
    list sorted by name, stores the sorted list in place of the list, and
    the position does not depend on the order of insertion; children
    inserted as b, a, c get the indices a = 0, b = 1, c = 2. *)
Theorem get_child_index_sorted_position
    (parent_children : gmap string (list string))
    (parent child : string) (children : list string) :
  parent_children !! parent = Some children →
  child ∈ children →
  (∃ i, get_child_index parent child parent_children =
          (Done i, <[parent := sort children]> parent_children) ∧
        sort children !! i = Some child ∧
        (∀ j, j < i → sort children !! j ≠ Some child) ∧
        ∀ children', children' ≡ₚ children →
          (get_child_index parent child (<[parent := children']> parent_children)).1
          = Done i) ∧
  Sorted string_le (sort children) ∧ sort children ≡ₚ children ∧
  (∀ pc, pc !! parent = Some ["b"; "a"; "c"] →
     (get_child_index parent "a" pc).1 = Done 0 ∧
     (get_child_index parent "b" pc).1 = Done 1 ∧
     (get_child_index parent "c" pc).1 = Done 2).
Proof.
  intros Hparent Hchild. split; [|split; [apply sort_sorted|split; [apply sort_permutation|]]].
  - assert (child ∈ sort children) as Hin by by rewrite sort_permutation.
    destruct (index child (sort children)) as [i|] eqn:Hi;
      [|by apply index_None in Hi].
    exists i. unfold get_child_index. rewrite Hparent. simpl. rewrite Hi.
    split; [done|]. apply index_Some in Hi as Hi'. destruct Hi' as [Hi1 Hi2].
    split; [done|]. split; [done|].
    intros children' Hperm. rewrite lookup_insert_eq. simpl.
    by rewrite (sort_order_independent _ _ Hperm), Hi.
  - intros pc Hpc. unfold get_child_index. rewrite Hpc. simpl.
    by vm_compute.
Qed.

Lemma get_child_index_sorted_position_witness :
  (∃ i, get_child_index "P" "a" {["P" := ["b"; "a"; "c"]]} =
          (Done i, <["P" := sort ["b"; "a"; "c"]]> {["P" := ["b"; "a"; "c"]]}) ∧
        sort ["b"; "a"; "c"] !! i = Some "a" ∧
        (∀ j, j < i → sort ["b"; "a"; "c"] !! j ≠ Some "a") ∧
        ∀ children', children' ≡ₚ ["b"; "a"; "c"] →
          (get_child_index "P" "a" (<["P" := children']> {["P" := ["b"; "a"; "c"]]})).1
          = Done i) ∧
  Sorted string_le (sort ["b"; "a"; "c"]) ∧ sort ["b"; "a"; "c"] ≡ₚ ["b"; "a"; "c"] ∧
  (∀ pc, pc !! "P" = Some ["b"; "a"; "c"] →
     (get_child_index "P" "a" pc).1 = Done 0 ∧
     (get_child_index "P" "b" pc).1 = Done 1 ∧
     (get_child_index "P" "c" pc).1 = Done 2).
Proof.
  apply (get_child_index_sorted_position {["P" := ["b"; "a"; "c"]]} "P" "a").
  - reflexivity.
  - by_computation.
Defined.

(** C10. [get_child_index] raises [ValueError] when the child is not in
    the list of the parent; for a parent without an entry the list is
    empty, so every query raises, and the map is left as it is. *)
Theorem get_child_index_raises
    (parent_children : gmap string (list string)) (parent child : string) :
  child ∉ default [] (parent_children !! parent) →
  get_child_index parent child parent_children =
    (Raise ValueError,
     match parent_children !! parent with
     | Some children => <[parent := sort children]> parent_children
     | None => parent_children
     end) ∧
  (parent_children !! parent = None →
   ∀ c, get_child_index parent c parent_children = (Raise ValueError, parent_children)).
Proof.
  intros Hchild. split.
  - unfold get_child_index.
    assert (index child (sort (default [] (parent_children !! parent))) = None) as ->.
    { apply index_None. by rewrite sort_permutation. }
    by destruct (parent_children !! parent).
  - intros Hnone c. unfold get_child_index. by rewrite Hnone.
Qed.

Lemma get_child_index_raises_witness :
  get_child_index "Q" "a" {["P" := ["b"; "a"; "c"]]} =
    (Raise ValueError,
     match ({["P" := ["b"; "a"; "c"]]} : gmap string (list string)) !! "Q" with
     | Some children => <["Q" := sort children]> {["P" := ["b"; "a"; "c"]]}
     | None => {["P" := ["b"; "a"; "c"]]}
     end) ∧
  (({["P" := ["b"; "a"; "c"]]} : gmap string (list string)) !! "Q" = None →
   ∀ c, get_child_index "Q" c {["P" := ["b"; "a"; "c"]]} =
        (Raise ValueError, {["P" := ["b"; "a"; "c"]]})).
Proof.
  apply (get_child_index_raises {["P" := ["b"; "a"; "c"]]} "Q" "a").
  by_computation.
Defined.
End children_claims.

(** ** An unmatched trigger in the three traversals *)

Section unmatched_trigger.
Import Levels.

(** C5, as stated, fails for [build_parent_children_dict]: the trigger
    [ghost] names no method, no listener and no router path, and gets an
    entry in the parent-children map. *)
Lemma unmatched_trigger_gets_entry :
  ("ghost" ∉ method_names flow_ghost) ∧ ("ghost" ∉ listener_names flow_ghost) ∧
  (∀ r, "ghost" ∉ get_or_empty (_router_paths flow_ghost) r) ∧
  Children.build_parent_children_dict flow_ghost !! "ghost" = Some ["L"].
Proof.
  split; [by_computation|]. split; [by_computation|]. split.
  - intros r. simpl. apply not_elem_of_nil.
  - by vm_compute.
Qed.

(** C5 (as amended). A trigger that names no method and no listener is
    tolerated: [calculate_node_levels] returns, the trigger is never
    queued, dequeued or given a level; [build_ancestor_dict] returns (the
    listeners being registered methods) and the trigger is in no ancestor
    set and is no key; [build_parent_children_dict], which cannot raise,
    does record it, as a parent of the listener. *)
Theorem unmatched_trigger_tolerated (f : flow) (fuel : nat)
    (name ct : string) (ts : list string) (ghost : string) :
  (name, (ct, ts)) ∈ _listeners f → ghost ∈ ts →
  ghost ∉ method_names f → ghost ∉ listener_names f →
  (∀ n, n ∈ listener_names f → n ∈ method_names f) →
  Ancestors.enough_fuel f ≤ fuel →
  (∀ st, reachable f st →
     levels st !! ghost = None ∧ (ghost ∉ queue st) ∧ (ghost ∉ visited st)) ∧
  (∃ lv, (∀ fuel', enough_fuel f ≤ fuel' →
            calculate_node_levels fuel' f = Done lv) ∧ lv !! ghost = None) ∧
  (∃ anc, Ancestors.build_ancestor_dict fuel f = Done anc ∧
          anc !! ghost = None ∧ ∀ x S, anc !! x = Some S → ghost ∉ S) ∧
  (∃ children, Children.build_parent_children_dict f !! ghost = Some children ∧
               name ∈ children).
Proof.
  intros He Hts Hmethod Hlistener Hreg Hfuel.
  assert (ghost ∉ start_methods f) as Hstart.
  { intros Hin. apply Hmethod. unfold start_methods in Hin.
    apply list_elem_of_fmap in Hin as ([n m] & -> & Hin).
    apply list_elem_of_filter in Hin as [_ Hin].
    apply list_elem_of_fmap. by exists (n, m). }
  assert (∀ st, reachable f st →
     levels st !! ghost = None ∧ (ghost ∉ queue st) ∧ (ghost ∉ visited st)) as Hnever.
  { intros st Hreach. destruct (reachable_frontier f st Hreach) as [c Hfr].
    assert (levels st !! ghost = None) as Hnone.
    { destruct (levels st !! ghost) as [l|] eqn:Hl; [|done].
      destruct (fr_dom _ _ _ Hfr ghost) as [?|?]; [by eexists | done | done]. }
    split; [done|]. split.
    - intros Hin. destruct (fr_queue _ _ _ Hfr) as (qa & qb & Hq & Hqa & Hqb).
      rewrite Hq in Hin. apply elem_of_app in Hin as [Hin|Hin].
      + rewrite Forall_forall in Hqa. specialize (Hqa _ Hin). simpl in Hqa. congruence.
      + rewrite Forall_forall in Hqb. specialize (Hqb _ Hin). simpl in Hqb. congruence.
    - intros Hin. destruct (fr_visited _ _ _ Hfr _ Hin) as (l & Hl & _). congruence. }
  split; [done|]. split; [|split].
  - destruct (final_state f) as (st & Hrun & Hreach & _).
    exists (levels st). split; [done|]. by apply Hnever.
  - destruct (build_ancestor_dict_total f Hreg fuel Hfuel) as [anc Hanc].
    pose proof (build_ancestor_dict_sound f fuel anc Hanc) as [Helem Hkeys].
    exists anc. split; [done|]. split.
    + destruct (anc !! ghost) as [S|] eqn:HS; [|done].
      destruct Hmethod. apply Hkeys. by eexists.
    + intros x S HS Hin. destruct (Helem _ _ _ HS Hin) as [[?|?] _]; done.
  - by eapply build_parent_children_dict_trigger.
Qed.

Lemma unmatched_trigger_tolerated_witness :
  (∀ st, reachable flow_ghost st →
     levels st !! "ghost" = None ∧ ("ghost" ∉ queue st) ∧ ("ghost" ∉ visited st)) ∧
  (∃ lv, (∀ fuel', enough_fuel flow_ghost ≤ fuel' →
            calculate_node_levels fuel' flow_ghost = Done lv) ∧
         lv !! "ghost" = None) ∧
  (∃ anc, Ancestors.build_ancestor_dict 3 flow_ghost = Done anc ∧
          anc !! "ghost" = None ∧ ∀ x S, anc !! x = Some S → "ghost" ∉ S) ∧
  (∃ children, Children.build_parent_children_dict flow_ghost !! "ghost" = Some children ∧
               "L" ∈ children).
Proof.
  apply (unmatched_trigger_tolerated flow_ghost 3 "L" "OR" ["A"; "ghost"] "ghost").
  - by_computation.
  - by_computation.
  - by_computation.
  - by_computation.
  - apply Forall_forall. by_computation.
  - vm_compute. lia.
Defined.
End unmatched_trigger.

(** ** The two passes of the outcome extractor *)

Section outcomes_facts.
Import Outcomes.

Lemma foldl_concat_map {A B S} (g : S → B → S) (w : A → list B) (l : list A) (s : S) :
  foldl g s (concat (map w l)) = foldl (λ s a, foldl g s (w a)) s l.
Proof.
  revert s. induction l as [|a l IH]; intros s; simpl; [done|].
  by rewrite foldl_app, IH.
Qed.

Lemma foldl_ext_Forall {A S} (g h : S → A → S) (l : list A) (s : S) :
  Forall (λ a, ∀ s, g s a = h s a) l → foldl g s l = foldl h s l.
Proof.
  intros Hall. revert s. induction Hall as [|a l Ha _ IH]; intros s; simpl; [done|].
  by rewrite Ha, IH.
Qed.

(** A visitor applies its handler to the nodes of the tree in the order
    of [walk]. *)
Lemma visit_walk {S} (handler : node → S → S) (n : node) (s : S) :
  visit handler n s = foldl (λ s m, handler m s) s (walk n).
Proof.
  revert s. induction n as [targets value Htargets Hvalue|value Hvalue
    |keys values Hkeys Hvalues|c|id|value slice Hvalue Hslice|children Hchildren]
    using node_nested_ind; intros s; cbn [visit walk foldl].
  - rewrite foldl_app, foldl_concat_map, Hvalue. f_equal.
    by apply foldl_ext_Forall.
  - destruct value as [v|]; [apply Hvalue | done].
  - rewrite foldl_app, !foldl_concat_map.
    rewrite (foldl_ext_Forall _ (λ s a, foldl (λ s m, handler m s) s (walk a)) values);
      [|done].
    f_equal. apply foldl_ext_Forall.
    eapply Forall_impl; [exact Hkeys|]. intros [k|] Hk s'; [apply Hk | done].
  - done.
  - done.
  - by rewrite foldl_app, Hvalue, Hslice.
  - rewrite foldl_concat_map. by apply foldl_ext_Forall.
Qed.

Lemma visit_Assign_binding n d :
  visit_Assign n d =
  match binding_of n with Some (var, vals) => <[var := vals]> d | None => d end.
Proof.
  destruct n as [[|[] []] []| | | | | |]; simpl; try done.
  by destruct (string_values _).
Qed.

Lemma visit_Assign_lookup n d var :
  visit_Assign n d !! var =
  match binding_of n with
  | Some (v, vals) => if decide (v = var) then Some vals else d !! var
  | None => d !! var
  end.
Proof.
  rewrite visit_Assign_binding. destruct (binding_of n) as [[v vals]|]; [|done].
  by rewrite lookup_insert.
Qed.

(** The loop of [visit_Assign] collects the string literals among the
    values. *)
Lemma string_values_literals values s :
  s ∈ string_values values ↔ Constant (CStr s) ∈ values.
Proof.
  unfold string_values. rewrite list_elem_of_omap. split.
  - intros (val & Hval & Hs). destruct val as [| | |[]| | |]; try done.
    by injection Hs as ->.
  - intros Hs. by exists (Constant (CStr s)).
Qed.

Lemma string_values_nil values :
  string_values values = [] ↔ ¬ ∃ s, Constant (CStr s) ∈ values.
Proof.
  split.
  - intros Hnil [s Hs]. apply string_values_literals in Hs.
    rewrite Hnil in Hs. by apply elem_of_nil in Hs.
  - intros Hnone. destruct (string_values values) as [|s vals] eqn:Hvals; [done|].
    destruct Hnone. exists s. apply string_values_literals. rewrite Hvals. left.
Qed.

(** What [visit_Assign] records for a node that binds a dictionary. *)
Lemma binding_of_binds n var vals :
  binding_of n = Some (var, vals) ↔
  ∃ values, binds n var values ∧ vals = string_values values.
Proof.
  split.
  - destruct n as [[|[] []] []| | | | | |]; simpl; try done.
    destruct (string_values _) as [|v vs] eqn:Hvals; [done|].
    intros [= <- <-]. eexists. split; [|by rewrite Hvals].
    eexists. split; [done|]. exists v. apply string_values_literals.
    rewrite Hvals. left.
  - intros (values & (keys & -> & Hsome) & ->). simpl.
    destruct (string_values values) eqn:Hvals; [|done].
    by apply string_values_nil in Hvals.
Qed.

(** The first pass keeps, for every variable, the last binding met. *)
Lemma first_pass_lookup (l : list node) (var : string) (vals : list string) :
  foldl (λ d m, visit_Assign m d) ∅ l !! var = Some vals ↔
  ∃ l1 n l2, l = l1 ++ n :: l2 ∧ binding_of n = Some (var, vals) ∧
             ∀ m vals', m ∈ l2 → binding_of m ≠ Some (var, vals').
Proof.
  revert vals. induction l as [|n l IH] using rev_ind; intros vals.
  { simpl. split; [done|]. intros (l1 & n & l2 & Hl & _). by destruct l1. }
  rewrite foldl_app. simpl. rewrite visit_Assign_lookup.
  assert ((∃ l1 n0 l2, l ++ [n] = l1 ++ n0 :: l2 ∧
             binding_of n0 = Some (var, vals) ∧
             ∀ m vals', m ∈ l2 → binding_of m ≠ Some (var, vals')) ↔
          binding_of n = Some (var, vals) ∨
          ((∀ vals', binding_of n ≠ Some (var, vals')) ∧
           ∃ l1 n0 l2, l = l1 ++ n0 :: l2 ∧ binding_of n0 = Some (var, vals) ∧
             ∀ m vals', m ∈ l2 → binding_of m ≠ Some (var, vals'))) as ->.
  { split.
    - intros (l1 & n0 & l2 & Hl & Hb & Hlast).
      destruct l2 as [|x l2 _] using rev_ind.
      + apply app_inj_tail in Hl as [_ ->]. by left.
      + rewrite app_comm_cons, app_assoc in Hl. apply app_inj_tail in Hl as [-> ->].
        right. split.
        * intros vals'. apply Hlast. apply elem_of_app. right. left.
        * exists l1, n0, l2. split; [done|]. split; [done|].
          intros m vals' Hm. apply Hlast. apply elem_of_app. by left.
    - intros [Hb|(Hn & l1 & n0 & l2 & -> & Hb & Hlast)].
      + exists l, n, []. split; [done|]. split; [done|].
        intros m vals' Hm. by apply elem_of_nil in Hm.
      + exists l1, n0, (l2 ++ [n]). split; [by rewrite <- app_assoc|].
        split; [done|]. intros m vals' Hm. apply elem_of_app in Hm as [Hm|Hm].
        * by apply Hlast.
        * apply list_elem_of_singleton in Hm as ->. apply Hn. }
  destruct (binding_of n) as [[v vs]|] eqn:Hn.
  - case_decide as Hv.
    + subst v. split.
      * intros [= <-]. by left.
      * intros [Hb|[Hnot _]]; [congruence | by destruct (Hnot vs)].
    + rewrite IH. split.
      * intros Hrec. right. split; [|done]. congruence.
      * intros [Hb|[_ Hrec]]; [congruence | done].
  - rewrite IH. split.
    + intros Hrec. right. by split.
    + intros [Hb|[_ Hrec]]; [done | done].
Qed.

Lemma first_pass_recorded tree var vals :
  visit visit_Assign tree ∅ !! var = Some vals ↔
  ∃ values, recorded_binding tree var values ∧ vals = string_values values.
Proof.
  rewrite visit_walk, first_pass_lookup. split.
  - intros (l1 & n & l2 & Hwalk & Hn & Hlast).
    apply binding_of_binds in Hn as (values & Hn & ->).
    exists values. split; [|done]. exists l1, n, l2. split; [done|].
    split; [done|]. intros m values' Hm Hb.
    apply (Hlast m (string_values values') Hm).
    apply binding_of_binds. by exists values'.
  - intros (values & (l1 & n & l2 & Hwalk & Hn & Hlast) & ->).
    exists l1, n, l2. split; [done|]. split.
    + apply binding_of_binds. by exists values.
    + intros m vals' Hm Hb. apply binding_of_binds in Hb as (values' & Hb & _).
      by apply (Hlast m values').
Qed.

Lemma visit_Return_union dd n rv : visit_Return dd n rv = rv ∪ visit_Return dd n ∅.
Proof.
  destruct n as [|[[| | |[] | | [] |]|]| | | | |]; simpl;
    try (destruct (dd !! _)); set_solver.
Qed.

Lemma visit_Return_elem dd n s :
  s ∈ visit_Return dd n ∅ ↔
  n = Return (Some (Constant (CStr s))) ∨
  ∃ var sl vals, n = Return (Some (Subscript (Name var) sl)) ∧
                 dd !! var = Some vals ∧ s ∈ vals.
Proof.
  destruct n as [|[[| | |[] | | [] |]|]| | | | |]; simpl;
    try (split; [set_solver | by intros [?|(? & ? & ? & ? & _)]]).
  - split.
    + intros Hs. left. apply elem_of_union in Hs as [Hs|Hs]; [set_solver|].
      apply elem_of_singleton in Hs. by subst.
    + intros [[= <-]|(? & ? & ? & ? & _)]; [set_solver | done].
  - destruct (dd !! id) as [vals|] eqn:Hid.
    + split.
      * intros Hs. right. exists id, slice, vals. split; [done|]. split; [done|].
        set_solver.
      * intros [?|(var & sl & vals' & [= <- <-] & Hvar & Hs)]; [done|].
        assert (vals' = vals) as -> by congruence. set_solver.
    + split; [set_solver|].
      intros [?|(var & sl & vals' & [= <- <-] & Hvar & Hs)]; [done | congruence].
Qed.

Lemma second_pass_elem dd (l : list node) (rv : gset string) (s : string) :
  s ∈ foldl (λ rv m, visit_Return dd m rv) rv l ↔
  s ∈ rv ∨ ∃ n, n ∈ l ∧ s ∈ visit_Return dd n ∅.
Proof.
  revert rv. induction l as [|n l IH]; intros rv; simpl.
  { split; [by left|]. intros [?|(n & Hn & _)]; [done|]. by apply elem_of_nil in Hn. }
  rewrite IH, visit_Return_union. split.
  - intros [Hs|(m & Hm & Hs)].
    + apply elem_of_union in Hs as [Hs|Hs]; [by left|].
      right. exists n. split; [left | done].
    + right. exists m. split; [by right | done].
  - intros [Hs|(m & Hm & Hs)]; [left; set_solver|].
    apply elem_of_cons in Hm as [->|Hm]; [left; set_solver|].
    right. by exists m.
Qed.

(** The set computed by the two passes is the set of contributed
    strings. *)
Lemma passes_contribute tree s :
  s ∈ visit (visit_Return (visit visit_Assign tree ∅)) tree ∅ ↔ contributes tree s.
Proof.
  rewrite visit_walk, second_pass_elem. unfold contributes. split.
  - intros [Hs|(n & Hn & Hs)]; [set_solver|]. exists n. split; [done|].
    apply visit_Return_elem in Hs as [?|(var & sl & vals & ? & Hvar & Hs)]; [by left|].
    apply first_pass_recorded in Hvar as (values & Hrec & ->).
    right. exists var, sl, values. split; [done|]. split; [done|].
    by apply string_values_literals.
  - intros (n & Hn & Hs). right. exists n. split; [done|].
    apply visit_Return_elem.
    destruct Hs as [?|(var & sl & values & ? & Hrec & Hs)]; [by left|].
    right. exists var, sl, (string_values values). split; [done|]. split.
    + apply first_pass_recorded. by exists values.
    + by apply string_values_literals.
Qed.

(** *** The recursion limit *)

Lemma max_list_le (l : list nat) (m : nat) :
  max_list l ≤ m ↔ Forall (λ n, n ≤ m) l.
Proof.
  induction l as [|n l IH]; simpl.
  - split; [constructor | lia].
  - rewrite Forall_cons, <- IH. lia.
Qed.

Lemma each_within {A T} (body : T → A → outcome T) (g : T → A → T)
    (d : A → nat) (limit : nat) (l : list A) (s : T) :
  Forall (λ a, ∀ s, body s a = if decide (d a ≤ limit) then Returns (g s a)
                               else Raises RecursionError) l →
  each body l s = if decide (max_list (map d l) ≤ limit)
                  then Returns (foldl g s l) else Raises RecursionError.
Proof.
  intros Hall. revert s. induction Hall as [|a l Ha _ IH]; intros s; simpl.
  { done. }
  rewrite Ha. destruct (decide (d a ≤ limit)) as [Hd|Hd]; simpl.
  - rewrite IH. destruct (decide (max_list (map d l) ≤ limit)).
    + by rewrite decide_True by lia.
    + by rewrite decide_False by lia.
  - by rewrite decide_False by lia.
Qed.

Ltac settle_limit :=
  first [done | by rewrite decide_True by lia | by rewrite decide_False by lia].

(** Under a limit, a visitor does what [visit] does if the tree is no
    deeper than the limit, and raises [RecursionError] if it is. *)
Lemma visit_within_depth {T} (handler : node → T → T) (n : node) :
  ∀ limit s,
    visit_within handler limit n s =
    if decide (depth n ≤ limit) then Returns (visit handler n s)
    else Raises RecursionError.
Proof.
  induction n as [targets value Htargets Hvalue|value Hvalue
    |keys values Hkeys Hvalues|c|id|value slice Hvalue Hslice|children Hchildren]
    using node_nested_ind; intros [|limit] s;
    try (cbn [visit_within depth]; settle_limit; fail);
    cbn [visit_within visit depth].
  - rewrite (each_within _ (λ s c, visit handler c s) depth limit);
      [|eapply Forall_impl; [exact Htargets|]; intros c Hc s'; apply Hc].
    destruct (decide (max_list (map depth targets) ≤ limit)); simpl.
    + rewrite Hvalue. destruct (decide (depth value ≤ limit)).
      * settle_limit.
      * settle_limit.
    + settle_limit.
  - destruct value as [v|]; simpl in *.
    + rewrite Hvalue. destruct (decide (depth v ≤ limit)).
      * settle_limit.
      * settle_limit.
    + settle_limit.
  - rewrite (each_within _
      (λ s k, match k with Some k => visit handler k s | None => s end)
      (λ k, match k with Some k => depth k | None => 0 end) limit).
    2:{ eapply Forall_impl; [exact Hkeys|]. intros [k|] Hk s'; simpl in *.
        - apply Hk.
        - settle_limit. }
    destruct (decide (max_list (map _ keys) ≤ limit)); simpl.
    + rewrite (each_within _ (λ s c, visit handler c s) depth limit);
        [|eapply Forall_impl; [exact Hvalues|]; intros c Hc s'; apply Hc].
      destruct (decide (max_list (map depth values) ≤ limit)).
      * settle_limit.
      * settle_limit.
    + settle_limit.
  - rewrite Hvalue. destruct (decide (depth value ≤ limit)); simpl.
    + rewrite Hslice. destruct (decide (depth slice ≤ limit)).
      * settle_limit.
      * settle_limit.
    + settle_limit.
  - rewrite (each_within _ (λ s c, visit handler c s) depth limit);
      [|eapply Forall_impl; [exact Hchildren|]; intros c Hc s'; apply Hc].
    destruct (decide (max_list (map depth children) ≤ limit)).
    + settle_limit.
    + settle_limit.
Qed.
End outcomes_facts.

(** ** Claims on the outcome extractor *)

Section outcomes_claims.
Import Outcomes.

Example extract_literal : extract body_literal = Returns (Some ["done"]).
Proof. by vm_compute. Qed.

Example extract_dictionary :
  ∃ l, extract body_dictionary = Returns (Some l) ∧ l ≡ₚ ["go"; "stop"].
Proof. eexists. split; [by vm_compute|]. by_computation. Qed.

Example extract_number : extract body_number = Returns None.
Proof. by vm_compute. Qed.


End outcomes_claims.


(** ** The outgoing-edge counts *)

Section counts_facts.
Import Counts.
Variable f : flow.

Lemma zero_counts_lookup x :
  zero_counts f !! x = if decide (x ∈ method_names f) then Some 0 else None.
Proof.
  unfold zero_counts, method_names.
  assert (∀ l (c0 : gmap string nat),
    foldl (λ c (nm : string * method), <[nm.1 := 0]> c) c0 l !! x =
    if decide (x ∈ l.*1) then Some 0 else c0 !! x) as Hfold.
  { induction l as [|[n m] l IH]; intros c0; [done|].
    cbn [foldl]. rewrite IH, fmap_cons. cbn [fst].
    destruct (decide (x = n)) as [->|Hx].
    - rewrite lookup_insert_eq. rewrite (decide_True (P := n ∈ n :: _)) by left.
      by case_decide.
    - rewrite lookup_insert_ne by done.
      repeat case_decide; try done; exfalso; set_solver. }
  rewrite Hfold. by case_decide.
Qed.

Lemma listener_item_elem d key :
  key ∈ d.*1 → ∃ e, listener_item d key = Done e ∧ (key, e) ∈ d.
Proof.
  induction d as [|[k v] d IH]; simpl; intros Hkey.
  { by apply elem_of_nil in Hkey. }
  case_decide as Hk.
  - subst k. exists v. split; [done | left].
  - apply elem_of_cons in Hkey as [?|Hkey]; [congruence|].
    destruct (IH Hkey) as (e & ? & ?). exists e. split; [done | by right].
Qed.

Lemma count_triggers_spec counts ts :
  counts_methods f counts →
  ∃ counts', count_triggers f counts ts = Done counts' ∧ counts_methods f counts' ∧
    ∀ m, counts' !! m = (λ n, n + occurrences m ts) <$> counts !! m.
Proof.
  revert counts. induction ts as [|t ts IH]; intros counts Hkeys.
  { exists counts. split; [done|]. split; [done|]. intros m.
    destruct (counts !! m); simpl; [f_equal; unfold occurrences; simpl; lia | done]. }
  unfold count_triggers. cbn [for_each].
  destruct (decide (t ∈ method_names f)) as [Ht|Ht].
  - destruct (proj2 (Hkeys t) Ht) as [n Hn]. unfold increment. rewrite Hn.
    cbn [run_bind].
    destruct (IH (<[t := n + 1]> counts)) as (counts' & Hrun & Hkeys' & Hval).
    { intros x. rewrite lookup_insert. case_decide as Hx; [|apply Hkeys].
      subst x. split; [done | by eexists]. }
    exists counts'. split; [exact Hrun|]. split; [done|]. intros m. rewrite Hval.
    unfold occurrences. rewrite filter_cons. rewrite lookup_insert.
    destruct (decide (t = m)) as [->|Htm]; simpl.
    + rewrite Hn. simpl. f_equal. lia.
    + done.
  - cbn [run_bind].
    destruct (IH counts Hkeys) as (counts' & Hrun & Hkeys' & Hval).
    exists counts'. split; [exact Hrun|]. split; [done|]. intros m. rewrite Hval.
    unfold occurrences. rewrite filter_cons.
    destruct (decide (t = m)) as [->|Htm]; [|done].
    destruct (counts !! m) as [n|] eqn:Hm; [|done].
    destruct Ht. apply Hkeys. by eexists.
Qed.

Lemma listener_item_unique key e :
  NoDup (listener_names f) → (key, e) ∈ _listeners f →
  listener_item (_listeners f) key = Done e.
Proof.
  intros Hnd He.
  destruct (listener_item_elem (_listeners f) key) as (e' & -> & He').
  { apply list_elem_of_fmap. by exists (key, e). }
  f_equal. by eapply NoDup_fst_unique.
Qed.

Lemma count_listeners_spec (es : list (string * listener)) counts :
  (∀ e, e ∈ es → listener_item (_listeners f) e.1 = Done e.2) →
  counts_methods f counts →
  ∃ counts',
    for_each (λ counts method_name,
      entry ←ᵣ listener_item (_listeners f) method_name;
      count_triggers f counts entry.2) es.*1 counts = Done counts' ∧
    counts_methods f counts' ∧
    ∀ m, counts' !! m = (λ n, n + total_occurrences m es) <$> counts !! m.
Proof.
  revert counts. induction es as [|[k [ct ts]] es IH]; intros counts Hitem Hkeys.
  { exists counts. split; [done|]. split; [done|]. intros m.
    destruct (counts !! m); simpl; [f_equal; lia | done]. }
  rewrite fmap_cons. cbn [for_each fst].
  pose proof (Hitem (k, (ct, ts))) as Hk. cbn [fst snd] in Hk.
  rewrite Hk by left. cbn [run_bind snd].
  destruct (count_triggers_spec counts ts Hkeys) as (counts1 & -> & Hkeys1 & Hval1).
  cbn [run_bind].
  destruct (IH counts1) as (counts' & Hrun & Hkeys' & Hval); [|done|].
  { intros e He. apply Hitem. by right. }
  exists counts'. split; [exact Hrun|]. split; [done|]. intros m.
  rewrite Hval, Hval1. destruct (counts !! m); simpl; [f_equal; lia | done].
Qed.
End counts_facts.

(** ** Properties of the outgoing-edge counts *)

Section counts_properties.
Import Counts.

(** X1. [count_outgoing_edges] never raises, and the map it returns has exactly
    the methods of the flow as keys: the increment is guarded by
    [trigger in flow._methods], so a trigger that is no method (a router
    path, a misspelt name) is skipped. *)
Theorem count_outgoing_edges_keys (f : flow) :
  ∃ counts, count_outgoing_edges f = Done counts ∧
    ∀ x, is_Some (counts !! x) ↔ x ∈ method_names f.
Proof.
  unfold count_outgoing_edges.
  apply (for_each_total (counts_methods f)).
  - intros x. rewrite zero_counts_lookup. case_decide; [|by split; [intros [??]|]].
    split; [done | by eexists].
  - intros counts k Hk Hkeys.
    destruct (listener_item_elem (_listeners f) k Hk) as (e & -> & _).
    cbn [run_bind].
    destruct (count_triggers_spec f counts e.2 Hkeys) as (counts' & ? & ? & _).
    by exists counts'.
Qed.

(** X2. With distinct listener names, the count of a method is the number of
    times it occurs in the trigger lists of the listeners. *)
Theorem count_outgoing_edges_occurrences (f : flow) :
  NoDup (listener_names f) →
  ∃ counts, count_outgoing_edges f = Done counts ∧
    ∀ m, counts !! m =
         if decide (m ∈ method_names f)
         then Some (total_occurrences m (_listeners f)) else None.
Proof.
  intros Hnd. unfold count_outgoing_edges, listener_names.
  destruct (count_listeners_spec f (_listeners f) (zero_counts f))
    as (counts & Hrun & _ & Hval).
  - intros [k e] He. by apply listener_item_unique.
  - intros x. rewrite zero_counts_lookup. case_decide; [|by split; [intros [??]|]].
    split; [done | by eexists].
  - exists counts. split; [exact Hrun|]. intros m. rewrite Hval, zero_counts_lookup.
    by case_decide.
Qed.

Lemma count_outgoing_edges_occurrences_witness :
  ∃ counts, count_outgoing_edges flow_example = Done counts ∧
    ∀ m, counts !! m =
         if decide (m ∈ method_names flow_example)
         then Some (total_occurrences m (_listeners flow_example)) else None.
Proof. apply (count_outgoing_edges_occurrences flow_example). by_computation. Defined.
End counts_properties.

(** ** Properties of the parent-children map *)

Lemma add_router_keeps f e p c pc :
  has_child p c pc → has_child p c (Children.add_router f pc e).
Proof. apply add_router. Qed.

Section children_properties.
Import Children.

Lemma add_child_lookup parent child pc p :
  add_child parent child pc !! p =
  if decide (p = parent)
  then Some (let cs := default [] (pc !! parent) in
             if decide (child ∈ cs) then cs else cs ++ [child])
  else pc !! p.
Proof.
  unfold add_child. destruct (pc !! parent) as [cs|] eqn:Hcs; simpl.
  - rewrite Hcs. destruct (decide (child ∈ cs)).
    + case_decide; [by subst|done].
    + rewrite lookup_insert. case_decide; [by rewrite decide_True | by rewrite decide_False].
  - rewrite lookup_insert_eq. rewrite decide_False by apply not_elem_of_nil.
    rewrite lookup_insert. case_decide as Hp.
    + by rewrite decide_True.
    + rewrite decide_False by done. by rewrite lookup_insert_ne.
Qed.

Lemma add_child_sound f parent child pc :
  is_child_of f parent child → children_sound f pc →
  children_sound f (add_child parent child pc).
Proof.
  intros Hchild Hpc p cs. rewrite add_child_lookup. case_decide as Hp; [|apply Hpc].
  subst p. intros [= <-]. simpl.
  destruct (pc !! parent) as [cs0|] eqn:Hcs0; simpl.
  - destruct (Hpc _ _ Hcs0) as (Hnd & Hne & Hall). case_decide as Hin; [done|].
    split; [|split].
    + apply NoDup_app. split; [done|]. split; [|apply NoDup_singleton].
      intros x Hx Hx'. apply list_elem_of_singleton in Hx'. by subst.
    + by destruct cs0.
    + intros c Hc. apply elem_of_app in Hc as [Hc|Hc]; [by apply Hall|].
      apply list_elem_of_singleton in Hc. by subst.
  - split; [apply NoDup_singleton|]. split; [done|].
    intros c Hc. apply list_elem_of_singleton in Hc. by subst.
Qed.

Lemma build_parent_children_dict_sound f :
  children_sound f (build_parent_children_dict f).
Proof.
  unfold build_parent_children_dict.
  apply (foldl_invariant (children_sound f)).
  - apply (foldl_invariant (children_sound f)).
    + intros p cs. by rewrite lookup_empty.
    + intros pc [name [ct ts]] He Hpc. simpl.
      apply (foldl_invariant (children_sound f)); [done|].
      intros pc' t Ht. apply add_child_sound. exists ct, ts. split; [done | by left].
  - intros pc [router paths] Hr Hpc. simpl.
    apply (foldl_invariant (children_sound f)); [done|]. intros pc1 path Hpath Hpc1.
    apply (foldl_invariant (children_sound f)); [done|].
    intros pc2 [name [ct ts]] He Hpc2. case_decide as Hts; [|done].
    apply add_child_sound; [|done]. exists ct, ts. split; [done|]. right.
    by exists paths, path.
Qed.

Lemma add_router_path_listeners f r path pc name ct ts :
  (name, (ct, ts)) ∈ _listeners f → path ∈ ts →
  has_child r name
    (foldl (λ pc (e : string * listener),
       let '(listener_name, (_, trigger_methods)) := e in
       if decide (path ∈ trigger_methods)
       then add_child r listener_name pc else pc) pc (_listeners f)).
Proof.
  intros He Hts.
  apply (foldl_establish (λ _, True)
           (λ (e : string * listener) pc, path ∈ e.2.2 → has_child r e.1 pc)
           _ (_listeners f) pc I (λ _ _ _ _, I)) with (a := (name, (ct, ts)));
    try done.
  - intros pc2 [n [c t]] _ _ Hin. simpl in *. rewrite decide_True by done.
    apply add_child_has_child.
  - intros pc2 a [n [c t]] _ _ Ha Hin. case_decide; [|by apply Ha].
    by apply add_child_keeps, Ha.
Qed.

Lemma add_router_serves f r paths pc path name ct ts :
  path ∈ paths → (name, (ct, ts)) ∈ _listeners f → path ∈ ts →
  has_child r name (add_router f pc (r, paths)).
Proof.
  intros Hpath He Hts. simpl.
  apply (foldl_establish (λ _, True)
           (λ path pc, path ∈ ts → has_child r name pc)
           _ paths pc I (λ _ _ _ _, I)) with (a := path); try done.
  - intros pc1 p1 _ _ Hts1. by eapply add_router_path_listeners.
  - intros pc1 a p1 _ _ Ha Hts1.
    apply (foldl_invariant (has_child r name)); [by apply Ha|].
    intros pc2 [n [c t]] _ Hpc2. case_decide; [by apply add_child_keeps | done].
Qed.

Lemma build_parent_children_dict_router f router paths path name ct ts :
  (router, paths) ∈ _router_paths f → path ∈ paths →
  (name, (ct, ts)) ∈ _listeners f → path ∈ ts →
  has_child router name (build_parent_children_dict f).
Proof.
  intros Hr Hpath He Hts. unfold build_parent_children_dict.
  apply (foldl_establish (λ _, True)
           (λ (e : string * list string) pc, path ∈ e.2 → has_child e.1 name pc)
           (add_router f) (_router_paths f) _ I (λ _ _ _ _, I))
    with (a := (router, paths)); try done.
  - intros pc [r ps] _ _ Hin. simpl in Hin. by eapply add_router_serves.
  - intros pc a b _ _ Ha Hin. apply add_router_keeps. by apply Ha.
Qed.

(** X3. The parent-children map holds exactly the pairs of the graph: [child]
    is in the list of [parent] if and only if it listens to the name of
    [parent] or to one of the paths that [flow._router_paths] gives for
    [parent]; no list is empty and no list has a child twice. *)
Theorem parent_children_are_the_listeners (f : flow) :
  (∀ parent child,
     has_child parent child (build_parent_children_dict f) ↔
     is_child_of f parent child) ∧
  (∀ parent children, build_parent_children_dict f !! parent = Some children →
     NoDup children ∧ children ≠ []).
Proof.
  split.
  - intros parent child. split.
    + intros (cs & Hcs & Hc).
      by apply (build_parent_children_dict_sound f parent cs Hcs).
    + intros (ct & ts & He & [Hin|(paths & path & Hr & Hpath & Hts)]).
      * by eapply build_parent_children_dict_trigger.
      * by eapply build_parent_children_dict_router.
  - intros parent children Hcs.
    destruct (build_parent_children_dict_sound f parent children Hcs) as (? & ? & _).
    done.
Qed.
End children_properties.

(** ** Properties of the child index *)

Lemma StronglySorted_lookup {A} (R : relation A) (l : list A) (i j : nat) (x y : A) :
  StronglySorted R l → l !! i = Some x → l !! j = Some y → i < j → R x y.
Proof.
  intros Hsorted. revert i j. induction Hsorted as [|a l Hl IH Hall];
    intros i j Hi Hj Hlt; [done|].
  destruct j as [|j]; [lia|]. simpl in Hj. destruct i as [|i]; simpl in Hi.
  - injection Hi as <-. rewrite Forall_forall in Hall. apply Hall.
    by eapply list_elem_of_lookup_2.
  - apply (IH i j); [done | done | lia].
Qed.

Section index_properties.
Import Children.

Lemma sort_idempotent cs : sort (sort cs) = sort cs.
Proof. apply sort_order_independent, sort_permutation. Qed.

Lemma sort_strongly_sorted cs : StronglySorted string_le (sort cs).
Proof. apply Sorted_StronglySorted; [apply _ | apply sort_sorted]. Qed.

Lemma index_lookup_lt child cs i : index child cs = Some i → i < length cs.
Proof. intros Hi. apply index_Some in Hi as [Hi _]. by eapply lookup_lt_Some. Qed.

Lemma index_is_Some child cs : child ∈ cs → ∃ i, index child cs = Some i.
Proof.
  intros Hin. destruct (index child cs) as [i|] eqn:Hi; [by exists i|].
  by apply index_None in Hi.
Qed.

(** X5. A lookup does not change the result of a later lookup, for the same
    or another parent, and a repeated lookup leaves the map as the first
    one left it: the stored list is sorted once and stays sorted. *)
Theorem get_child_index_after_lookup
    (parent_children : gmap string (list string))
    (parent1 child1 parent2 child2 : string) :
  (get_child_index parent2 child2
     (get_child_index parent1 child1 parent_children).2).1 =
  (get_child_index parent2 child2 parent_children).1 ∧
  (get_child_index parent1 child2
     (get_child_index parent1 child1 parent_children).2).2 =
  (get_child_index parent1 child1 parent_children).2.
Proof.
  unfold get_child_index. simpl.
  destruct (parent_children !! parent1) as [cs1|] eqn:H1; simpl.
  - split.
    + destruct (decide (parent2 = parent1)) as [->|Hne].
      * rewrite lookup_insert_eq, H1. simpl. by rewrite sort_idempotent.
      * by rewrite lookup_insert_ne.
    + rewrite lookup_insert_eq. simpl. rewrite sort_idempotent.
      by rewrite insert_insert_eq.
  - split; [done|]. by rewrite H1.
Qed.

(** X6. The indices of the children of a parent follow their names: they are
    below the number of children, the index of [child1] is at most that
    of [child2] exactly when [child1] is at most [child2] as a string, and
    two children have the same index only if they are the same. *)
Theorem child_indices_follow_names
    (parent_children : gmap string (list string))
    (parent : string) (children : list string) (child1 child2 : string) :
  parent_children !! parent = Some children →
  child1 ∈ children → child2 ∈ children →
  ∃ i1 i2,
    (get_child_index parent child1 parent_children).1 = Done i1 ∧
    (get_child_index parent child2 parent_children).1 = Done i2 ∧
    i1 < length children ∧ i2 < length children ∧
    (i1 ≤ i2 ↔ string_le child1 child2) ∧
    (i1 = i2 ↔ child1 = child2).
Proof.
  intros Hparent H1 H2.
  assert (child1 ∈ sort children) as H1' by by rewrite sort_permutation.
  assert (child2 ∈ sort children) as H2' by by rewrite sort_permutation.
  destruct (index_is_Some _ _ H1') as [i1 Hi1].
  destruct (index_is_Some _ _ H2') as [i2 Hi2].
  exists i1, i2. unfold get_child_index. rewrite Hparent. simpl.
  rewrite Hi1, Hi2. split; [done|]. split; [done|].
  assert (length (sort children) = length children) as Hlen
    by by rewrite sort_permutation.
  split; [rewrite <- Hlen; by eapply index_lookup_lt|].
  split; [rewrite <- Hlen; by eapply index_lookup_lt|].
  apply index_Some in Hi1 as Hl1. destruct Hl1 as [Hl1 Hfirst1].
  apply index_Some in Hi2 as Hl2. destruct Hl2 as [Hl2 Hfirst2].
  assert (i1 = i2 ↔ child1 = child2) as Heq.
  { split; [intros ->; congruence|]. intros ->. congruence. }
  split; [|done]. split.
  - intros Hle. destruct (decide (i1 = i2)) as [Hi|Hi].
    + apply Heq in Hi as ->.
      destruct (total string_le child2 child2); done.
    + apply (StronglySorted_lookup string_le (sort children) i1 i2);
        [apply sort_strongly_sorted | done | done | lia].
  - intros Hle. destruct (decide (i1 ≤ i2)) as [?|Hgt]; [done|]. exfalso.
    assert (string_le child2 child1) as Hle'.
    { apply (StronglySorted_lookup string_le (sort children) i2 i1);
        [apply sort_strongly_sorted | done | done | lia]. }
    assert (child1 = child2) as Hc by by apply (anti_symm string_le).
    apply Heq in Hc. lia.
Qed.

Lemma child_indices_follow_names_witness :
  ∃ i1 i2,
    (get_child_index "P" "c" {["P" := ["b"; "a"; "c"]]}).1 = Done i1 ∧
    (get_child_index "P" "a" {["P" := ["b"; "a"; "c"]]}).1 = Done i2 ∧
    i1 < length ["b"; "a"; "c"] ∧ i2 < length ["b"; "a"; "c"] ∧
    (i1 ≤ i2 ↔ string_le "c" "a") ∧
    (i1 = i2 ↔ "c" = "a").
Proof.
  apply (child_indices_follow_names {["P" := ["b"; "a"; "c"]]} "P" ["b"; "a"; "c"]).
  - reflexivity.
  - by_computation.
  - by_computation.
Defined.

(** X7. In the map built from a flow, the children of a parent get the indices
    0 to n-1 without gaps: every index below the number of children is the
    index of one of them. *)
Theorem built_children_are_numbered (f : flow) (parent : string)
    (children : list string) (i : nat) :
  build_parent_children_dict f !! parent = Some children →
  i < length children →
  ∃ child, child ∈ children ∧ is_child_of f parent child ∧
    (get_child_index parent child (build_parent_children_dict f)).1 = Done i.
Proof.
  intros Hparent Hi.
  destruct (build_parent_children_dict_sound f parent children Hparent)
    as (Hnd & _ & Hall).
  assert (NoDup (sort children)) as Hnd' by by rewrite sort_permutation.
  assert (i < length (sort children)) as Hi' by by rewrite sort_permutation.
  destruct (lookup_lt_is_Some_2 _ _ Hi') as [child Hchild].
  assert (child ∈ children) as Hin.
  { rewrite <- (sort_permutation children). by eapply list_elem_of_lookup_2. }
  exists child. split; [done|]. split; [by apply Hall|].
  unfold get_child_index. rewrite Hparent. simpl.
  assert (index child (sort children) = Some i) as ->; [|done].
  apply index_Some. split; [done|]. intros j Hj Hj'.
  assert (i = j) by by eapply NoDup_lookup. lia.
Qed.

Lemma built_children_are_numbered_witness :
  ∃ child, child ∈ ["L"] ∧ is_child_of flow_routed "R" child ∧
    (get_child_index "R" child (build_parent_children_dict flow_routed)).1 = Done 0.
Proof.
  apply (built_children_are_numbered flow_routed "R" ["L"] 0).
  - by vm_compute.
  - simpl. lia.
Defined.
End index_properties.

(** ** Properties of the ancestor map *)

Lemma for_each_establish {A S} (I : S → Prop) (Q : A → S → Prop)
    (body : S → A → run S) (l : list A) (st st' : S) :
  I st →
  (∀ s a s', a ∈ l → I s → body s a = Done s' → I s' ∧ Q a s') →
  (∀ s a b s', b ∈ l → I s → Q a s → body s b = Done s' → Q a s') →
  for_each body l st = Done st' → I st' ∧ ∀ a, a ∈ l → Q a st'.
Proof.
  revert st. induction l as [|b l IH]; simpl; intros st Hst Hbody Hkeep.
  { intros [= <-]. split; [done|]. intros a Ha. by apply elem_of_nil in Ha. }
  intros Hrun. apply run_bind_Done in Hrun as (s1 & Hb & Hrest).
  destruct (Hbody st b s1) as [Hs1 HQb]; [left | done | done |].
  destruct (IH s1) as [Hst' Hall]; [done | | | done |].
  { intros s a s' Ha. apply Hbody. by right. }
  { intros s a c s' Hc. apply Hkeep. by right. }
  split; [done|]. intros a Ha. apply elem_of_cons in Ha as [->|Ha]; [|by apply Hall].
  revert Hrest.
  apply (for_each_invariant (λ s, I s ∧ Q b s)); [done|].
  intros s c s' Hc [Hs HQ] Hstep. split.
  - eapply Hbody; [by right | done | done].
  - eapply Hkeep; [by right | done | done | done].
Qed.

Lemma for_each_outcome {A S} (J : S → Prop) (E : exception → Prop)
    (body : S → A → run S) (l : list A) (st : S) :
  J st →
  (∀ s a, a ∈ l → J s →
     (∃ s', body s a = Done s' ∧ J s') ∨ (∃ e, body s a = Raise e ∧ E e)) →
  (∃ st', for_each body l st = Done st' ∧ J st') ∨
  (∃ e, for_each body l st = Raise e ∧ E e).
Proof.
  revert st. induction l as [|a l IH]; simpl; intros st Hst Hbody.
  { left. by exists st. }
  destruct (Hbody st a) as [(s1 & -> & Hs1)|(e & -> & He)]; [left | done | |].
  - simpl. apply IH; [done|]. intros s b Hb. apply Hbody. by right.
  - right. by exists e.
Qed.

Section ancestors_properties.
Import Ancestors.
Variable f : flow.

Lemma grows_refl st : grows st st.
Proof. split; [done|]. intros x S HS. by exists S. Qed.

Lemma grows_trans st1 st2 st3 : grows st1 st2 → grows st2 st3 → grows st1 st3.
Proof.
  intros [Hv1 Ha1] [Hv2 Ha2]. split; [set_solver|]. intros x S HS.
  destruct (Ha1 _ _ HS) as (S' & HS' & ?). destruct (Ha2 _ _ HS') as (S'' & ? & ?).
  exists S''. split; [done | set_solver].
Qed.

Lemma propagated_grows a st st' :
  grows st st' → propagated f a (ancestors st) → propagated f a (ancestors st').
Proof.
  intros [_ Hanc] Hprop x ct ts He. destruct (Hprop x ct ts He) as [Hkey Hin]. split.
  - intros Hf. destruct (Hkey Hf) as [S HS].
    destruct (Hanc _ _ HS) as (S' & ? & _). by exists S'.
  - intros Ha. destruct (Hin Ha) as (S & HS & ?).
    destruct (Hanc _ _ HS) as (S' & ? & ?). exists S'. split; [done | set_solver].
Qed.

Lemma add_node_grows name node st a1 :
  add_node name node (ancestors st) = Done a1 →
  grows st (with_ancestors a1 st) ∧ ∃ S, a1 !! name = Some S ∧ node ∈ S.
Proof.
  unfold add_node, item. destruct (ancestors st !! name) as [s|] eqn:Hs; [|done].
  simpl. intros [= <-]. split.
  - split; [done|]. simpl. intros x S HS. destruct (decide (x = name)) as [->|Hx].
    + rewrite lookup_insert_eq. eexists. split; [done|].
      assert (S = s) as -> by congruence. set_solver.
    + rewrite lookup_insert_ne by done. by exists S.
  - rewrite lookup_insert_eq. eexists. split; [done | set_solver].
Qed.

Lemma update_from_grows name node st a :
  update_from name node (ancestors st) = Done a →
  grows st (with_ancestors a st) ∧ is_Some (a !! name).
Proof.
  unfold update_from, item. destruct (ancestors st !! name) as [s|] eqn:Hs; [|done].
  simpl. destruct (ancestors st !! node) as [sn|]; [|done]. simpl.
  intros [= <-]. split.
  - split; [done|]. simpl. intros x S HS. destruct (decide (x = name)) as [->|Hx].
    + rewrite lookup_insert_eq. eexists. split; [done|].
      assert (S = s) as -> by congruence. set_solver.
    + rewrite lookup_insert_ne by done. by exists S.
  - rewrite lookup_insert_eq. by eexists.
Qed.

(** A call of [dfs_ancestors] that returns has propagated every step it
    visited to the listeners the step fires. *)
Lemma dfs_ancestors_propagates fuel node st st' :
  dfs_ancestors fuel f node st = Done st' →
  grows st st' ∧ node ∈ visited st' ∧
  ∀ a, a ∈ visited st' → a ∈ visited st ∨ propagated f a (ancestors st').
Proof.
  revert node st st'. induction fuel as [|fuel IH]; intros node st st'; simpl; [done|].
  destruct (decide (node ∈ visited st)) as [Hvis|Hvis].
  { intros [= <-]. split; [apply grows_refl|]. split; [done|]. by left. }
  set (st0 := {| ancestors := ancestors st; visited := visited st ∪ {[node]} |}).
  set (I := λ s : state, grows st0 s ∧
    ∀ a, a ∈ visited s → a ∈ visited st0 ∨ propagated f a (ancestors s)).
  assert (∀ s name a s', I s →
            grows s (with_ancestors a s) →
            dfs_ancestors fuel f name (with_ancestors a s) = Done s' →
            I s' ∧ grows s s') as Hcall.
  { intros s name a s' [Hg Hp] Hga Hrun.
    destruct (IH _ _ _ Hrun) as (Hg' & _ & Hp').
    assert (grows s s') as Hss' by by eapply grows_trans.
    split; [|done]. split; [by eapply grows_trans|].
    intros b Hb. destruct (Hp' b Hb) as [Hb'|?]; [|by right]. simpl in Hb'.
    destruct (Hp b Hb') as [?|?]; [by left | right]. by eapply propagated_grows. }
  intros Hrun. apply run_bind_Done in Hrun as (st1 & Hregular & Hrouter).
  assert (I st1 ∧ ∀ e, e ∈ _listeners f →
            node ∈ e.2.2 → ∃ S, ancestors st1 !! e.1 = Some S ∧ node ∈ S)
    as [Hst1 Hnamed].
  { revert Hregular.
    apply (for_each_establish I
      (λ (e : string * listener) s,
         node ∈ e.2.2 → ∃ S, ancestors s !! e.1 = Some S ∧ node ∈ S)).
    - split; [apply grows_refl | by left].
    - intros s [name [ct ts]] s' He Hs.
      destruct (decide (node ∈ ts)) as [Hts|Hts]; [|by intros [= <-]].
      intros Hrun. apply run_bind_Done in Hrun as (a1 & Ha1 & Hrun).
      apply run_bind_Done in Hrun as (a2 & Ha2 & Hrun).
      destruct (add_node_grows _ _ _ _ Ha1) as [Hg1 (S1 & HS1 & Hin1)].
      destruct (update_from_grows name node (with_ancestors a1 s) a2 Ha2)
        as [Hg2 _].
      assert (grows s (with_ancestors a2 s)) as Hg12.
      { eapply grows_trans; [exact Hg1|]. exact Hg2. }
      destruct (Hcall s name a2 s' Hs Hg12 Hrun) as [Hs' Hss'].
      split; [done|]. intros _. simpl.
      destruct Hg2 as [_ Hanc2]. destruct (Hanc2 _ _ HS1) as (S2 & HS2 & ?).
      destruct (IH _ _ _ Hrun) as ([_ Hanc'] & _).
      destruct (Hanc' _ _ HS2) as (S' & ? & ?). exists S'. split; [done | set_solver].
    - intros s e [name [ct ts]] s' He Hs HQ.
      destruct (decide (node ∈ ts)) as [Hts|Hts]; [|by intros [= <-]].
      intros Hrun. apply run_bind_Done in Hrun as (a1 & Ha1 & Hrun).
      apply run_bind_Done in Hrun as (a2 & Ha2 & Hrun).
      destruct (add_node_grows _ _ _ _ Ha1) as [Hg1 _].
      destruct (update_from_grows name node (with_ancestors a1 s) a2 Ha2)
        as [Hg2 _].
      assert (grows s (with_ancestors a2 s)) as Hg12.
      { eapply grows_trans; [exact Hg1|]. exact Hg2. }
      destruct (Hcall s name a2 s' Hs Hg12 Hrun) as [_ [_ Hss']].
      intros Hin. destruct (HQ Hin) as (S & HS & ?).
      destruct (Hss' _ _ HS) as (S' & ? & ?). exists S'. split; [done | set_solver]. }
  set (served := λ s : state,
    node ∈ _routers f → ∀ path e, path ∈ get_or_empty (_router_paths f) node →
      e ∈ _listeners f → path ∈ e.2.2 → is_Some (ancestors s !! e.1)).
  assert (I st' ∧ grows st1 st' ∧ served st') as (Hst' & Hg1' & Hserved).
  { destruct (decide (node ∈ _routers f)) as [Hr|Hr].
    2:{ injection Hrouter as <-. split; [done|]. split; [apply grows_refl|].
        by intros ?. }
    assert ((I st' ∧ grows st1 st') ∧
            ∀ path, path ∈ get_or_empty (_router_paths f) node →
              ∀ e, e ∈ _listeners f → path ∈ e.2.2 →
                is_Some (ancestors st' !! e.1)) as [[? ?] Hall].
    { revert Hrouter.
      apply (for_each_establish (λ s, I s ∧ grows st1 s)
        (λ path s, ∀ e, e ∈ _listeners f → path ∈ e.2.2 →
                     is_Some (ancestors s !! e.1))).
      - split; [done | apply grows_refl].
      - intros s path s' Hpath [Hs Hgs] Hrun.
        assert ((I s' ∧ grows s s') ∧ ∀ e, e ∈ _listeners f → path ∈ e.2.2 →
                  is_Some (ancestors s' !! e.1)) as [[? ?] ?].
        { revert Hrun.
          apply (for_each_establish (λ s2, I s2 ∧ grows s s2)
            (λ (e : string * listener) s2,
               path ∈ e.2.2 → is_Some (ancestors s2 !! e.1))).
          - split; [done | apply grows_refl].
          - intros s2 [name [ct ts]] s2' He [Hs2 Hg2].
            destruct (decide (path ∈ ts)) as [Hts|Hts]; [|by intros [= <-]].
            intros Hrun. apply run_bind_Done in Hrun as (a & Ha & Hrun).
            destruct (update_from_grows _ _ _ _ Ha) as [Hga [S HS]].
            destruct (Hcall s2 name a s2' Hs2 Hga Hrun) as [Hs2' Hss'].
            split; [split; [done | by eapply grows_trans]|]. intros _. simpl.
            destruct (IH _ _ _ Hrun) as ([_ Hanc'] & _).
            destruct (Hanc' _ _ HS) as (S' & ? & _). by exists S'.
          - intros s2 e [name [ct ts]] s2' He [Hs2 Hg2] HQ.
            destruct (decide (path ∈ ts)) as [Hts|Hts]; [|by intros [= <-]].
            intros Hrun. apply run_bind_Done in Hrun as (a & Ha & Hrun).
            destruct (update_from_grows _ _ _ _ Ha) as [Hga _].
            destruct (Hcall s2 name a s2' Hs2 Hga Hrun) as [_ [_ Hss']].
            intros Hin. destruct (HQ Hin) as [S HS].
            destruct (Hss' _ _ HS) as (S' & ? & _). by exists S'. }
        split; [split; [done | by eapply grows_trans]|]. done.
      - intros s path p2 s' Hp2 [Hs Hgs] HQ Hrun e He Hin.
        assert (grows s s') as [_ Hss'].
        { revert Hrun. apply (for_each_invariant (λ s2, grows s s2));
            [apply grows_refl|].
          intros s2 [name [ct ts]] s2' _ Hg2.
          destruct (decide (p2 ∈ ts)) as [Hts|Hts]; [|by intros [= <-]].
          intros Hrun. apply run_bind_Done in Hrun as (a & Ha & Hrun).
          destruct (update_from_grows _ _ _ _ Ha) as [Hga _].
          destruct (IH _ _ _ Hrun) as (Hg' & _).
          eapply grows_trans; [exact Hg2|]. by eapply grows_trans. }
        destruct (HQ e He Hin) as [S HS]. destruct (Hss' _ _ HS) as (S' & ? & _).
        by exists S'. }
    split; [done|]. split; [done|]. intros _ path e Hpath He Hin. by eapply Hall. }
  destruct Hst' as [Hg0 Hp0].
  split; [|split].
  - eapply grows_trans; [|exact Hg0]. split; simpl; [set_solver|].
    intros x S HS. by exists S.
  - destruct Hg0 as [Hv _]. simpl in Hv. set_solver.
  - intros a Ha. destruct (Hp0 a Ha) as [Ha0|?]; [|by right]. simpl in Ha0.
    apply elem_of_union in Ha0 as [?|Ha0]; [by left | right].
    apply elem_of_singleton in Ha0 as ->.
    intros x ct ts He. split.
    + intros [Hin|(Hr & path & Hpath & Hpts)].
      * destruct (Hnamed (x, (ct, ts)) He Hin) as (S & HS & _).
        destruct Hg1' as [_ Hanc]. destruct (Hanc _ _ HS) as (S' & ? & _).
        by exists S'.
      * by apply (Hserved Hr path (x, (ct, ts))).
    + intros Hin. destruct (Hnamed (x, (ct, ts)) He Hin) as (S & HS & ?).
      destruct Hg1' as [_ Hanc]. destruct (Hanc _ _ HS) as (S' & ? & ?).
      exists S'. split; [done | set_solver].
Qed.
End ancestors_properties.

Section ancestors_outcome.
Import Ancestors.
Variable f : flow.

Lemma insert_keys_are_methods name s anc :
  name ∈ method_names f → keys_are_methods f anc →
  keys_are_methods f (<[name := s]> anc).
Proof.
  intros Hname Hanc x. rewrite lookup_insert. case_decide as Hx; [|by apply Hanc].
  subst x. split; [done | by eexists].
Qed.

Lemma add_node_keys name node anc anc' :
  keys_are_methods f anc → add_node name node anc = Done anc' →
  keys_are_methods f anc'.
Proof.
  intros Hanc. unfold add_node, item.
  destruct (anc !! name) as [s|] eqn:Hs; simpl; [|done]. intros [= <-].
  apply insert_keys_are_methods; [|done]. apply Hanc. by eexists.
Qed.

Lemma update_from_keys name node anc anc' :
  keys_are_methods f anc → update_from name node anc = Done anc' →
  keys_are_methods f anc'.
Proof.
  intros Hanc. unfold update_from, item.
  destruct (anc !! name) as [s|] eqn:Hs; simpl; [|done].
  destruct (anc !! node) as [sn|]; simpl; [|done]. intros [= <-].
  apply insert_keys_are_methods; [|done]. apply Hanc. by eexists.
Qed.

Lemma dfs_ancestors_keys fuel node st st' :
  keys_are_methods f (ancestors st) →
  dfs_ancestors fuel f node st = Done st' → keys_are_methods f (ancestors st').
Proof.
  revert node st st'. induction fuel as [|fuel IH]; intros node st st' Hst;
    simpl; [done|].
  case_decide as Hvis; [by intros [= <-]|].
  intros Hrun. apply run_bind_Done in Hrun as (st1 & Hregular & Hrouter).
  assert (keys_are_methods f (ancestors st1)) as Hst1.
  { revert Hregular.
    apply (for_each_invariant (λ s, keys_are_methods f (ancestors s))); [done|].
    intros s [name [ct ts]] s' He Hs.
    destruct (decide (node ∈ ts)) as [Hts|Hts]; [|by intros [= <-]].
    intros Hrun. apply run_bind_Done in Hrun as (a1 & Ha1 & Hrun).
    apply run_bind_Done in Hrun as (a2 & Ha2 & Hrun).
    eapply IH; [|exact Hrun]. simpl.
    eapply update_from_keys; [|exact Ha2]. by eapply add_node_keys. }
  destruct (decide (node ∈ _routers f)) as [Hr|Hr]; [|by injection Hrouter as <-].
  revert Hrouter.
  apply (for_each_invariant (λ s, keys_are_methods f (ancestors s))); [done|].
  intros s path s' Hpath Hs.
  apply (for_each_invariant (λ s, keys_are_methods f (ancestors s))); [done|].
  intros s2 [name [ct ts]] s2' He Hs2.
  destruct (decide (path ∈ ts)) as [Hts|Hts]; [|by intros [= <-]].
  intros Hrun. apply run_bind_Done in Hrun as (a & Ha & Hrun).
  eapply IH; [|exact Hrun]. simpl. by eapply update_from_keys.
Qed.

Lemma empty_sets_keys : keys_are_methods f (empty_sets f).
Proof.
  intros x. rewrite empty_sets_lookup. case_decide; [done|].
  split; [by intros [??] | done].
Qed.

Lemma build_ancestor_dict_keys fuel anc :
  build_ancestor_dict fuel f = Done anc → keys_are_methods f anc.
Proof.
  unfold build_ancestor_dict. intros Hrun.
  apply run_bind_Done in Hrun as (st & Hrun & [= <-]).
  revert Hrun. apply (for_each_invariant (λ s, keys_are_methods f (ancestors s))).
  - apply empty_sets_keys.
  - intros s [n m] s' Hnm Hs. simpl. case_decide; [by intros [= <-]|].
    by apply dfs_ancestors_keys.
Qed.

Lemma add_node_registered name node anc :
  keys_are_methods f anc → name ∈ method_names f →
  ∃ anc', add_node name node anc = Done anc'.
Proof.
  intros Hanc Hname. unfold add_node, item.
  destruct (proj2 (Hanc name) Hname) as [s ->]. simpl. by eexists.
Qed.

Lemma update_from_registered name node anc :
  keys_are_methods f anc → name ∈ method_names f → node ∈ method_names f →
  ∃ anc', update_from name node anc = Done anc'.
Proof.
  intros Hanc Hname Hnode. unfold update_from, item.
  destruct (proj2 (Hanc name) Hname) as [s ->].
  destruct (proj2 (Hanc node) Hnode) as [sn ->]. simpl. by eexists.
Qed.

Lemma add_node_unregistered name node anc :
  keys_are_methods f anc → name ∉ method_names f →
  add_node name node anc = Raise (KeyError name).
Proof.
  intros Hanc Hname. unfold add_node, item.
  destruct (anc !! name) as [s|] eqn:Hs; [|done].
  destruct Hname. apply Hanc. by eexists.
Qed.

Lemma update_from_unregistered name node anc :
  keys_are_methods f anc → name ∉ method_names f →
  update_from name node anc = Raise (KeyError name).
Proof.
  intros Hanc Hname. unfold update_from, item.
  destruct (anc !! name) as [s|] eqn:Hs; [|done].
  destruct Hname. apply Hanc. by eexists.
Qed.

(** Within the fuel, a call of [dfs_ancestors] on a method returns, or
    raises [KeyError] for a listener that a method fires and that is not a
    method. *)
Lemma dfs_ancestors_outcome fuel node st :
  node ∈ method_names f → keys_are_methods f (ancestors st) →
  visited st ⊆ list_to_set (method_names f) →
  size (list_to_set (method_names f) ∖ visited st) < fuel →
  (∃ st', dfs_ancestors fuel f node st = Done st' ∧
          keys_are_methods f (ancestors st') ∧
          visited st' ⊆ list_to_set (method_names f) ∧
          visited st ⊆ visited st') ∨
  (∃ k, dfs_ancestors fuel f node st = Raise (KeyError k) ∧
        unregistered_fired f k).
Proof.
  revert node st. induction fuel as [|fuel IH];
    intros node st Hnode Hkeys Hvisited Hfuel; [lia|].
  simpl. destruct (decide (node ∈ visited st)) as [Hvis|Hvis].
  { left. by exists st. }
  set (J := λ s : state, keys_are_methods f (ancestors s) ∧
    visited s ⊆ list_to_set (method_names f) ∧
    visited st ∪ {[node]} ⊆ visited s).
  set (E := λ e : exception, ∃ k, e = KeyError k ∧ unregistered_fired f k).
  assert (∀ s, J s → size (list_to_set (method_names f) ∖ visited s) < fuel) as Hsize.
  { intros s (_ & _ & Hsub).
    assert (size (list_to_set (method_names f) ∖ visited s) <
            size (list_to_set (method_names f) ∖ visited st)); [|lia].
    apply subset_size. split; [set_solver|]. intros Hsub'.
    assert (node ∈ list_to_set (method_names f) ∖ visited s) by set_solver.
    set_solver. }
  assert (∀ s name a, J s → name ∈ method_names f → keys_are_methods f a →
            (∃ s', dfs_ancestors fuel f name (with_ancestors a s) = Done s' ∧ J s') ∨
            (∃ e, dfs_ancestors fuel f name (with_ancestors a s) = Raise e ∧ E e))
    as Hcall.
  { intros s name a (Hk & Hv & Hsub) Hname Ha.
    destruct (IH name (with_ancestors a s))
      as [(s' & Hs' & Hk' & Hv' & Hmono)|(k & Hs' & Hk')];
      [done | done | done | apply Hsize; by split | |].
    - left. exists s'. split; [done|]. split; [done|]. split; [done|].
      simpl in Hmono. set_solver.
    - right. exists (KeyError k). split; [done|]. by exists k. }
  destruct (for_each_outcome J E
    (λ st (entry : string * listener),
       let '(listener_name, (_, trigger_methods)) := entry in
       if decide (node ∈ trigger_methods) then
         a1 ←ᵣ add_node listener_name node (ancestors st);
         a2 ←ᵣ update_from listener_name node a1;
         dfs_ancestors fuel f listener_name (with_ancestors a2 st)
       else Done st)
    (_listeners f)
    {| ancestors := ancestors st; visited := visited st ∪ {[node]} |})
    as [(st1 & -> & Hst1)|(e & -> & k & -> & Hk)].
  { split; [done|]. simpl. split; [|done].
    assert (node ∈ (list_to_set (method_names f) : gset string)) by set_solver.
    set_solver. }
  { intros s [name [ct ts]] He Hs.
    destruct (decide (node ∈ ts)) as [Hts|Hts]; [|left; by exists s].
    destruct (decide (name ∈ method_names f)) as [Hname|Hname].
    - destruct (add_node_registered name node (ancestors s)) as [a1 Ha1];
        [exact (proj1 Hs) | done |].
      rewrite Ha1. cbn [run_bind].
      assert (keys_are_methods f a1) as Hk1.
      { eapply add_node_keys; [exact (proj1 Hs) | exact Ha1]. }
      destruct (update_from_registered name node a1) as [a2 Ha2]; [done..|].
      rewrite Ha2. cbn [run_bind]. apply Hcall; [done | done |].
      by eapply update_from_keys.
    - right. exists (KeyError name).
      rewrite add_node_unregistered by (done || exact (proj1 Hs)).
      split; [done|]. exists name. split; [done|]. split; [done|].
      exists ct, ts, node. split; [done|]. split; [done | by left]. }
  2:{ right. by exists k. }
  simpl.
  destruct (decide (node ∈ _routers f)) as [Hr|Hr].
  2:{ left. exists st1. split; [done|]. destruct Hst1 as (? & ? & ?).
      split; [done|]. split; [done | set_solver]. }
  destruct (for_each_outcome J E
    (λ st path,
       for_each (λ st (entry : string * listener),
         let '(listener_name, (_, trigger_methods)) := entry in
         if decide (path ∈ trigger_methods) then
           a ←ᵣ update_from listener_name node (ancestors st);
           dfs_ancestors fuel f listener_name (with_ancestors a st)
         else Done st) (_listeners f) st)
    (get_or_empty (_router_paths f) node) st1)
    as [(st' & -> & Hst')|(e & -> & k & -> & Hk)]; [done | | |].
  - intros s path Hpath Hs. apply for_each_outcome; [done|].
    intros s2 [name [ct ts]] He Hs2.
    destruct (decide (path ∈ ts)) as [Hts|Hts]; [|left; by exists s2].
    destruct (decide (name ∈ method_names f)) as [Hname|Hname].
    + destruct (update_from_registered name node (ancestors s2)) as [a Ha];
        [exact (proj1 Hs2) | done | done |].
      rewrite Ha. cbn [run_bind]. apply Hcall; [done | done |].
      eapply update_from_keys; [exact (proj1 Hs2) | exact Ha].
    + right. exists (KeyError name).
      rewrite update_from_unregistered by (done || exact (proj1 Hs2)).
      split; [done|]. exists name. split; [done|]. split; [done|].
      exists ct, ts, node. split; [done|]. split; [done|]. right.
      split; [done|]. by exists path.
  - left. exists st'. split; [done|]. destruct Hst' as (? & ? & ?).
    split; [done|]. split; [done | set_solver].
  - right. by exists k.
Qed.

Lemma build_ancestor_dict_visits fuel st :
  for_each (λ st (nm : string * method),
      if decide (nm.1 ∈ visited st) then Done st
      else dfs_ancestors fuel f nm.1 st)
    (_methods f) {| ancestors := empty_sets f; visited := ∅ |} = Done st →
  ∀ a, a ∈ method_names f → propagated f a (ancestors st).
Proof.
  intros Hrun.
  assert ((∀ a, a ∈ visited st → propagated f a (ancestors st)) ∧
          ∀ nm, nm ∈ _methods f → nm.1 ∈ visited st) as [Hprop Hall].
  { revert Hrun.
    assert (∀ s (b : string * method) s',
      (if decide (b.1 ∈ visited s) then Done s
       else dfs_ancestors fuel f b.1 s) = Done s' →
      grows s s' ∧ b.1 ∈ visited s' ∧
      ∀ a, a ∈ visited s' → a ∈ visited s ∨ propagated f a (ancestors s'))
      as Hbody.
    { intros s b s'. destruct (decide (b.1 ∈ visited s)).
      - intros [= <-]. split; [apply grows_refl|]. split; [done | by left].
      - apply dfs_ancestors_propagates. }
    apply (for_each_establish
      (λ s, ∀ a, a ∈ visited s → propagated f a (ancestors s))
      (λ (nm : string * method) s, nm.1 ∈ visited s)).
    - simpl. set_solver.
    - intros s nm s' _ Hs Hstep.
      destruct (Hbody _ _ _ Hstep) as (Hg & Hin & Hnew). split; [|done].
      intros a Ha. destruct (Hnew a Ha) as [?|?]; [|done].
      eapply propagated_grows; [exact Hg|]. by apply Hs.
    - intros s nm b s' _ _ Hin Hstep.
      destruct (Hbody _ _ _ Hstep) as ([Hv _] & _). set_solver. }
  intros a Ha. apply list_elem_of_fmap in Ha as (nm & -> & Hnm).
  apply Hprop. by apply Hall.
Qed.

Lemma build_ancestor_dict_propagated fuel anc :
  build_ancestor_dict fuel f = Done anc →
  ∀ a, a ∈ method_names f → propagated f a anc.
Proof.
  unfold build_ancestor_dict. intros Hrun.
  apply run_bind_Done in Hrun as (st & Hrun & [= <-]).
  by eapply build_ancestor_dict_visits.
Qed.

Lemma build_ancestor_dict_returns_or_raises fuel :
  enough_fuel f ≤ fuel →
  (∃ anc, build_ancestor_dict fuel f = Done anc) ∨
  (∃ k, build_ancestor_dict fuel f = Raise (KeyError k) ∧ unregistered_fired f k).
Proof.
  intros Hfuel. unfold build_ancestor_dict.
  destruct (for_each_outcome
    (λ s, keys_are_methods f (ancestors s) ∧
          visited s ⊆ list_to_set (method_names f))
    (λ e, ∃ k, e = KeyError k ∧ unregistered_fired f k)
    (λ st (nm : string * method),
       if decide (nm.1 ∈ visited st) then Done st
       else dfs_ancestors fuel f nm.1 st)
    (_methods f) {| ancestors := empty_sets f; visited := ∅ |})
    as [(st & -> & _)|(e & -> & k & -> & Hk)].
  - split; simpl; [apply empty_sets_keys | set_solver].
  - intros s [n m] Hnm [Hk Hv]. simpl.
    destruct (decide (n ∈ visited s)); [left; by exists s|].
    destruct (dfs_ancestors_outcome fuel n s)
      as [(s' & ? & ? & ? & _)|(k & ? & ?)]; [|done|done| | |].
    + apply list_elem_of_fmap. by exists (n, m).
    + pose proof (size_list_to_set_le (method_names f)) as Hle.
      assert (size (list_to_set (method_names f) ∖ visited s) ≤
              size (list_to_set (method_names f) : gset string)).
      { apply subseteq_size. set_solver. }
      unfold enough_fuel, method_names in *. rewrite length_fmap in Hle. lia.
    + left. by exists s'.
    + right. exists (KeyError k). split; [done|]. by exists k.
  - left. simpl. by eexists.
  - right. by exists k.
Qed.

Lemma run_bind_Raise {A B} (m : run A) (k : A → run B) (e : exception) :
  run_bind m k = Raise e → m = Raise e ∨ ∃ a, m = Done a ∧ k a = Raise e.
Proof.
  destruct m as [a| |]; simpl; intros Hk;
    [right | injection Hk as ->; by left | discriminate Hk].
  exists a. by split.
Qed.

Lemma for_each_raises {A S} (I : S → Prop) (E : exception → Prop)
    (body : S → A → run S) (l : list A) (st : S) (e : exception) :
  I st →
  (∀ s a s', a ∈ l → I s → body s a = Done s' → I s') →
  (∀ s a, a ∈ l → I s → body s a = Raise e → E e) →
  for_each body l st = Raise e → E e.
Proof.
  revert st. induction l as [|a l IH]; simpl; intros st Hst Hdone Hraise; [done|].
  intros Hrun. apply run_bind_Raise in Hrun as [Ha|(s1 & Ha & Hrest)].
  - eapply Hraise; [left | done | done].
  - eapply (IH s1); [| | |done].
    + eapply Hdone; [left | done | done].
    + intros s b s' Hb. apply Hdone. by right.
    + intros s b Hb. apply Hraise. by right.
Qed.

(** Whatever the recursion limit, the only exception that a call of
    [dfs_ancestors] on a method raises by itself is the [KeyError] for a
    listener that a method fires and that is not a method. *)
Lemma dfs_ancestors_raises fuel node st e :
  node ∈ method_names f → keys_are_methods f (ancestors st) →
  dfs_ancestors fuel f node st = Raise e →
  ∃ k, e = KeyError k ∧ unregistered_fired f k.
Proof.
  revert node st. induction fuel as [|fuel IH]; intros node st Hnode Hkeys;
    simpl; [done|].
  destruct (decide (node ∈ visited st)) as [Hvis|Hvis]; [done|].
  set (I := λ s : state, keys_are_methods f (ancestors s)).
  set (E := λ e : exception, ∃ k, e = KeyError k ∧ unregistered_fired f k).
  set (regular := λ (st : state) (entry : string * listener),
    let '(listener_name, (_, trigger_methods)) := entry in
    if decide (node ∈ trigger_methods) then
      a1 ←ᵣ add_node listener_name node (ancestors st);
      a2 ←ᵣ update_from listener_name node a1;
      dfs_ancestors fuel f listener_name (with_ancestors a2 st)
    else Done st).
  set (routed := λ (path : string) (st : state) (entry : string * listener),
    let '(listener_name, (_, trigger_methods)) := entry in
    if decide (path ∈ trigger_methods) then
      a ←ᵣ update_from listener_name node (ancestors st);
      dfs_ancestors fuel f listener_name (with_ancestors a st)
    else Done st).
  assert (∀ s entry s', I s → regular s entry = Done s' → I s') as Hregular.
  { intros s [name [ct ts]] s' Hs. unfold regular.
    destruct (decide (node ∈ ts)); [|by intros [= <-]].
    intros Hrun. apply run_bind_Done in Hrun as (a1 & Ha1 & Hrun).
    apply run_bind_Done in Hrun as (a2 & Ha2 & Hrun).
    eapply dfs_ancestors_keys; [|exact Hrun]. simpl.
    eapply update_from_keys; [|exact Ha2]. by eapply add_node_keys. }
  assert (∀ path s entry s', I s → routed path s entry = Done s' → I s')
    as Hrouted.
  { intros path s [name [ct ts]] s' Hs. unfold routed.
    destruct (decide (path ∈ ts)); [|by intros [= <-]].
    intros Hrun. apply run_bind_Done in Hrun as (a & Ha & Hrun).
    eapply dfs_ancestors_keys; [|exact Hrun]. simpl. by eapply update_from_keys. }
  intros Hrun. apply run_bind_Raise in Hrun as [Hrun|(st1 & Hst1 & Hrun)].
  - revert Hrun. apply (for_each_raises I E); [done | | ].
    + intros s entry s' _. apply Hregular.
    + intros s [name [ct ts]] He Hs. unfold regular.
      destruct (decide (node ∈ ts)) as [Hts|Hts]; [|done].
      destruct (decide (name ∈ method_names f)) as [Hname|Hname].
      * destruct (add_node_registered name node (ancestors s)) as [a1 Ha1];
          [done | done |].
        rewrite Ha1. cbn [run_bind].
        assert (keys_are_methods f a1) as Hk1 by by eapply add_node_keys.
        destruct (update_from_registered name node a1) as [a2 Ha2]; [done..|].
        rewrite Ha2. cbn [run_bind]. apply IH; [done|]. simpl.
        by eapply update_from_keys.
      * rewrite add_node_unregistered by done. intros [= <-].
        exists name. split; [done|]. split; [done|].
        exists ct, ts, node. split; [done|]. split; [done | by left].
  - assert (I st1) as Hk1.
    { revert Hst1. apply (for_each_invariant I); [done|].
      intros s entry s' _. apply Hregular. }
    destruct (decide (node ∈ _routers f)) as [Hr|Hr]; [|done].
    revert Hrun. apply (for_each_raises I E); [done | |].
    + intros s path s' _ Hs. apply (for_each_invariant I); [done|].
      intros s2 entry s2' _. apply Hrouted.
    + intros s path Hpath Hs. apply (for_each_raises I E); [done | |].
      * intros s2 entry s2' _. apply Hrouted.
      * intros s2 [name [ct ts]] He Hs2. unfold routed.
        destruct (decide (path ∈ ts)) as [Hts|Hts]; [|done].
        destruct (decide (name ∈ method_names f)) as [Hname|Hname].
        -- destruct (update_from_registered name node (ancestors s2)) as [a Ha];
             [done | done | done |].
           rewrite Ha. cbn [run_bind]. apply IH; [done|]. simpl.
           by eapply update_from_keys.
        -- rewrite update_from_unregistered by done. intros [= <-].
           exists name. split; [done|]. split; [done|].
           exists ct, ts, node. split; [done|]. split; [done|]. right.
           split; [done|]. by exists path.
Qed.

Lemma build_ancestor_dict_raises fuel e :
  build_ancestor_dict fuel f = Raise e →
  ∃ k, e = KeyError k ∧ unregistered_fired f k.
Proof.
  unfold build_ancestor_dict. intros Hrun.
  apply run_bind_Raise in Hrun as [Hrun|(st & _ & ?)]; [|done].
  revert Hrun.
  apply (for_each_raises (λ s, keys_are_methods f (ancestors s))
           (λ e, ∃ k, e = KeyError k ∧ unregistered_fired f k)).
  - apply empty_sets_keys.
  - intros s [n m] s' _ Hs. simpl. case_decide; [by intros [= <-]|].
    by apply dfs_ancestors_keys.
  - intros s [n m] Hnm Hs. simpl. case_decide; [done|].
    apply dfs_ancestors_raises; [|done]. apply list_elem_of_fmap. by exists (n, m).
Qed.

(** X8. Whatever number of nested calls of [dfs_ancestors] the recursion
    limit allows, [build_ancestor_dict] has one of three outcomes: it
    returns a map whose keys are exactly the methods, and then every
    listener fired by a method is itself a method; or it raises [KeyError]
    for a listener that a method fires and that is not a method; or it
    raises [RecursionError], which happens only if fewer than
    [len(flow._methods) + 1] nested calls are allowed. *)
Theorem build_ancestor_dict_outcome fuel :
  (∃ anc, build_ancestor_dict fuel f = Done anc ∧ keys_are_methods f anc ∧
          ∀ k, ¬ unregistered_fired f k) ∨
  (∃ k, build_ancestor_dict fuel f = Raise (KeyError k) ∧
        unregistered_fired f k) ∨
  (build_ancestor_dict fuel f = OutOfFuel ∧ fuel < enough_fuel f).
Proof.
  destruct (build_ancestor_dict fuel f) as [anc|e|] eqn:Hrun.
  - left. exists anc. split; [done|].
    pose proof (build_ancestor_dict_keys _ _ Hrun) as Hkeys. split; [done|].
    intros k (Hk & ct & ts & node & He & Hnode & Hfires). apply Hk, Hkeys.
    by apply (build_ancestor_dict_propagated _ _ Hrun node Hnode k ct ts He).
  - right. left. destruct (build_ancestor_dict_raises _ _ Hrun) as (k & -> & Hk).
    by exists k.
  - right. right. split; [done|].
    destruct (decide (enough_fuel f ≤ fuel)) as [Hfuel|Hfuel]; [|lia].
    destruct (build_ancestor_dict_returns_or_raises fuel Hfuel)
      as [[anc Hanc]|(k & Hk & _)]; congruence.
Qed.

(** X9. Every ancestor that a returned map reports for a step is upstream of
    the step through one or more listener or router-path edges, and the
    step is a method. *)
Theorem reported_ancestors_are_upstream fuel anc x a :
  build_ancestor_dict fuel f = Done anc →
  is_ancestor x a anc = true →
  tc (edge f) a x ∧ x ∈ method_names f.
Proof.
  intros Hanc Hin. apply bool_decide_eq_true in Hin.
  destruct (anc !! x) as [S|] eqn:HS; simpl in Hin; [|set_solver].
  split.
  - destruct (so_elem _ _ (build_ancestor_dict_sound _ _ _ Hanc) _ _ _ HS Hin)
      as (_ & y & (ct & ts & He & Ha) & Hrtc).
    eapply tc_rtc_r; [|exact Hrtc]. apply tc_once. exists ct, ts.
    split; [done | by left].
  - apply (build_ancestor_dict_keys _ _ Hanc). by eexists.
Qed.

(** X10. In a returned map every method that a listener names among its
    triggers is an ancestor of the listener. *)
Theorem direct_triggers_are_ancestors fuel anc x ct ts a :
  build_ancestor_dict fuel f = Done anc →
  (x, (ct, ts)) ∈ _listeners f → a ∈ ts → a ∈ method_names f →
  is_ancestor x a anc = true.
Proof.
  intros Hanc He Ha Hmethod.
  destruct (build_ancestor_dict_propagated _ _ Hanc a Hmethod x ct ts He)
    as [_ Hin].
  destruct (Hin Ha) as (S & HS & ?). apply bool_decide_eq_true.
  by rewrite HS.
Qed.
End ancestors_outcome.

(** The three outcomes on small flows: the chain [A], [B], [C] needs three
    nested calls. *)
Example build_ancestor_dict_outcomes :
  (∃ anc, Ancestors.build_ancestor_dict 3 flow_start_first = Done anc) ∧
  Ancestors.build_ancestor_dict 2 flow_start_first = OutOfFuel ∧
  Ancestors.build_ancestor_dict 2 flow_unregistered = Raise (KeyError "L").
Proof. split; [by eexists|]. split; by vm_compute. Qed.

Lemma reported_ancestors_are_upstream_witness :
  tc (edge flow_start_first) "A" "C" ∧ "C" ∈ method_names flow_start_first.
Proof.
  apply (reported_ancestors_are_upstream flow_start_first 4
           (ancestors_of (Ancestors.build_ancestor_dict 4 flow_start_first))).
  - vm_compute. reflexivity.
  - by_computation.
Defined.

Lemma direct_triggers_are_ancestors_witness :
  Ancestors.is_ancestor "L" "R"
    (ancestors_of (Ancestors.build_ancestor_dict 4 flow_router_named)) = true.
Proof.
  apply (direct_triggers_are_ancestors flow_router_named 4 _ "L" "OR" ["p"; "R"]).
  - vm_compute. reflexivity.
  - by_computation.
  - by_computation.
  - by_computation.
Defined.

(** ** Levels and distances from the start methods *)

Section levels_distances.
Import Levels.
Variable f : flow.
Hypothesis listeners_nodup : NoDup (listener_names f).

Lemma cause_fires lv s ls x ct ts :
  and_listeners_have_triggers f → (x, (ct, ts)) ∈ _listeners f →
  cause f lv s ls (ct, ts) → fires f s ts.
Proof.
  intros Hand Hx Hc.
  inversion Hc as [ts' Hin|ts' [Hin|Hnil] _|ct' ts' p Hr Hp Hpt]; subst.
  - by left.
  - by left.
  - by destruct (proj1 (Forall_forall _ _) Hand _ Hx eq_refl).
  - right. split; [done|]. by exists p.
Qed.

(** A step of level [l] ends a chain of [l] edges from a start method. *)
Lemma level_has_chain st :
  and_listeners_have_triggers f → reachable f st →
  ∀ l x, levels st !! x = Some l →
    ∃ s, s ∈ start_methods f ∧ nsteps (edge f) l s x.
Proof using listeners_nodup.
  intros Hand Hreach.
  destruct (reachable_invariants f listeners_nodup st Hreach) as (_ & Hhi & _).
  induction l as [|l IH]; intros x Hx.
  - destruct (hi_origin _ _ Hhi _ _ Hx) as [[? _]|(s & ls & e & _ & _ & _ & ? & _)];
      [|lia].
    exists x. split; [done | constructor].
  - destruct (hi_origin _ _ Hhi _ _ Hx)
      as [[_ ?]|(s & ls & [ct ts] & He & Hs & Hls & Hl & Hc)]; [done|].
    assert (ls = l) as -> by lia.
    destruct (IH _ Hls) as (s0 & Hs0 & Hchain). exists s0. split; [done|].
    eapply nsteps_r; [done|]. exists ct, ts. split; [done|].
    by eapply cause_fires.
Qed.

(** Where every listener is an OR-listener, the end of a chain of [n]
    edges from a start method has a level of at most [n] once the queue
    is empty. *)
Lemma chain_has_level st :
  or_listeners_only f → reachable f st → queue st = [] →
  ∀ n s x, s ∈ start_methods f → nsteps (edge f) n s x →
    ∃ l, levels st !! x = Some l ∧ l ≤ n.
Proof using listeners_nodup.
  intros Hor Hreach Hq.
  destruct (reachable_invariants f listeners_nodup st Hreach)
    as ([c Hfr] & _ & Hco).
  induction n as [|n IH]; intros s x Hs Hchain.
  - inversion Hchain; subst. exists 0. split; [|done]. by apply (fr_start _ _ _ Hfr).
  - apply nsteps_inv_r in Hchain as (y & Hchain & ct & ts & Hx & Hfires).
    destruct (IH _ _ Hs Hchain) as (ly & Hy & Hle).
    assert (y ∈ visited st) as Hvis.
    { destruct (fr_tracked _ _ _ Hfr y) as [Hin|Hin]; [by eexists | | done].
      rewrite Hq in Hin. by apply elem_of_nil in Hin. }
    assert (ct = "OR") as ->.
    { exact (proj1 (Forall_forall _ _) Hor _ Hx). }
    assert (leveled_after (levels st) y x) as (l & ly' & Hl & Hy' & ?).
    { destruct Hfires as [Hin|(Hr & p & Hp & Hpt)].
      - by eapply co_or.
      - by eapply (co_router _ _ Hco x ("OR", ts) y p). }
    exists l. split; [done|]. assert (ly' = ly) by congruence. lia.
Qed.
End levels_distances.

Section levels_distance_properties.
Import Levels.

(** X11. Provided every AND-listener has a trigger, a step gets the level [l]
    only if a chain of [l] listener or router-path edges leads to it from
    a start method; a step that no start method reaches gets no level. *)
Theorem levels_are_chain_lengths (f : flow) :
  NoDup (listener_names f) → and_listeners_have_triggers f →
  ∃ lv, (∀ fuel, enough_fuel f ≤ fuel →
           calculate_node_levels fuel f = Done lv) ∧
        ∀ x l, lv !! x = Some l →
          ∃ s, s ∈ start_methods f ∧ nsteps (edge f) l s x.
Proof.
  intros Hnd Hand. destruct (final_state f) as (st & Hrun & Hreach & _).
  exists (levels st). split; [done|]. intros x l. by apply level_has_chain.
Qed.

Lemma levels_are_chain_lengths_witness :
  ∃ lv, (∀ fuel, enough_fuel flow_join ≤ fuel →
           calculate_node_levels fuel flow_join = Done lv) ∧
        ∀ x l, lv !! x = Some l →
          ∃ s, s ∈ start_methods flow_join ∧ nsteps (edge flow_join) l s x.
Proof.
  apply (levels_are_chain_lengths flow_join).
  - by_computation.
  - by_computation.
Defined.

(** X12. Where every listener is an OR-listener, the steps with a level are
    exactly those that a start method reaches, and the level of a step is
    the length of the shortest chain of edges from a start method. *)
Theorem or_flow_levels_are_distances (f : flow) :
  NoDup (listener_names f) → or_listeners_only f →
  ∃ lv, (∀ fuel, enough_fuel f ≤ fuel →
           calculate_node_levels fuel f = Done lv) ∧
        ∀ x,
          (is_Some (lv !! x) ↔ ∃ s, s ∈ start_methods f ∧ rtc (edge f) s x) ∧
          ∀ l, lv !! x = Some l →
            (∃ s, s ∈ start_methods f ∧ nsteps (edge f) l s x) ∧
            (∀ s n, s ∈ start_methods f → nsteps (edge f) n s x → l ≤ n).
Proof.
  intros Hnd Hor. destruct (final_state f) as (st & Hrun & Hreach & Hq & _).
  assert (and_listeners_have_triggers f) as Hand.
  { eapply Forall_impl; [exact Hor|]. intros e -> ?. done. }
  exists (levels st). split; [done|]. intros x. split; [split|].
  - intros [l Hl]. destruct (level_has_chain f Hnd st Hand Hreach l x Hl)
      as (s & Hs & Hchain).
    exists s. split; [done|]. apply rtc_nsteps. by exists l.
  - intros (s & Hs & Hrtc). apply rtc_nsteps in Hrtc as [n Hchain].
    destruct (chain_has_level f Hnd st Hor Hreach Hq n s x Hs Hchain) as (l & ? & _).
    by exists l.
  - intros l Hl. split; [by apply (level_has_chain f Hnd st)|].
    intros s n Hs Hchain.
    destruct (chain_has_level f Hnd st Hor Hreach Hq n s x Hs Hchain)
      as (l' & Hl' & ?).
    assert (l' = l) by congruence. lia.
Qed.

Lemma or_flow_levels_are_distances_witness :
  ∃ lv, (∀ fuel, enough_fuel flow_or_path ≤ fuel →
           calculate_node_levels fuel flow_or_path = Done lv) ∧
        ∀ x,
          (is_Some (lv !! x) ↔
             ∃ s, s ∈ start_methods flow_or_path ∧ rtc (edge flow_or_path) s x) ∧
          ∀ l, lv !! x = Some l →
            (∃ s, s ∈ start_methods flow_or_path ∧
                  nsteps (edge flow_or_path) l s x) ∧
            (∀ s n, s ∈ start_methods flow_or_path →
                    nsteps (edge flow_or_path) n s x → l ≤ n).
Proof.
  apply (or_flow_levels_are_distances flow_or_path).
  - by_computation.
  - by_computation.
Defined.
End levels_distance_properties.

(** ** Where the extracted strings come from *)

Section outcomes_literals.
Import Outcomes.

Lemma walk_self n : n ∈ walk n.
Proof. destruct n; left. Qed.

Lemma elem_of_concat_walk (l : list node) (n : node) :
  n ∈ concat (map walk l) ↔ ∃ c, c ∈ l ∧ n ∈ walk c.
Proof.
  rewrite list_elem_of_In, in_concat. split.
  - intros (w & Hw & Hn). apply in_map_iff in Hw as (c & <- & Hc).
    exists c. by rewrite !list_elem_of_In.
  - intros (c & Hc & Hn). exists (walk c). split; [|by apply list_elem_of_In].
    apply in_map. by apply list_elem_of_In.
Qed.

Lemma elem_of_concat_walk_keys (l : list (option node)) (n : node) :
  n ∈ concat (map (λ k, match k with Some k => walk k | None => [] end) l) ↔
  ∃ c, Some c ∈ l ∧ n ∈ walk c.
Proof.
  rewrite list_elem_of_In, in_concat. split.
  - intros (w & Hw & Hn). apply in_map_iff in Hw as ([c|] & <- & Hc); [|done].
    exists c. by rewrite !list_elem_of_In.
  - intros (c & Hc & Hn). exists (walk c). split; [|by apply list_elem_of_In].
    apply (in_map (λ k, match k with Some k => walk k | None => [] end) l (Some c)).
    by apply list_elem_of_In.
Qed.

(** The nodes of a subtree are nodes of the tree. *)
Lemma walk_trans tree n m : n ∈ walk tree → m ∈ walk n → m ∈ walk tree.
Proof.
  revert n m. induction tree as [targets value Htargets Hvalue|value Hvalue
    |keys values Hkeys Hvalues|c|id|value slice Hvalue Hslice|children Hchildren]
    using node_nested_ind; intros n m; cbn [walk]; intros Hn Hm;
    apply elem_of_cons in Hn as [->|Hn]; try done; right.
  - apply elem_of_app in Hn as [Hn|Hn]; apply elem_of_app.
    + left. apply elem_of_concat_walk in Hn as (c & Hc & Hn).
      apply elem_of_concat_walk. exists c. split; [done|].
      by apply (proj1 (Forall_forall _ _) Htargets c Hc n m).
    + right. by apply (Hvalue n m).
  - destruct value as [v|]; [|by apply elem_of_nil in Hn]. by apply (Hvalue n m).
  - apply elem_of_app in Hn as [Hn|Hn]; apply elem_of_app.
    + left. apply elem_of_concat_walk_keys in Hn as (c & Hc & Hn).
      apply elem_of_concat_walk_keys. exists c. split; [done|].
      by apply (proj1 (Forall_forall _ _) Hkeys (Some c) Hc n m).
    + right. apply elem_of_concat_walk in Hn as (c & Hc & Hn).
      apply elem_of_concat_walk. exists c. split; [done|].
      by apply (proj1 (Forall_forall _ _) Hvalues c Hc n m).
  - by apply elem_of_nil in Hn.
  - by apply elem_of_nil in Hn.
  - apply elem_of_app in Hn as [Hn|Hn]; apply elem_of_app.
    + left. by apply (Hvalue n m).
    + right. by apply (Hslice n m).
  - apply elem_of_concat_walk in Hn as (c & Hc & Hn).
    apply elem_of_concat_walk. exists c. split; [done|].
    by apply (proj1 (Forall_forall _ _) Hchildren c Hc n m).
Qed.

(** A handler returns [None] if it returns. *)
Lemma retrieval_failed_None (Function : Type) (name : Function → outcome string)
    (print : string → outcome unit) (show : error → string)
    (function : Function) (e : error) (r : option (list string)) :
  retrieval_failed Function name print show function e = Returns r → r = None.
Proof.
  destruct e; simpl; try done; try (by intros [= <-]);
    (destruct (name function); simpl; [|done]);
    (destruct (print _); simpl; [|done]); by intros [= <-].
Qed.

Lemma parsing_failed_None (Function : Type) (name : Function → outcome string)
    (print : string → outcome unit) (show : error → string)
    (function : Function) (source : string) (e : error)
    (r : option (list string)) :
  parsing_failed Function name print show function source e = Returns r →
  r = None.
Proof.
  destruct e; simpl; try done;
    (destruct (name function); simpl; [|done]);
    (destruct (print _); simpl; [|done]);
    (destruct (print _); simpl; [|done]); by intros [= <-].
Qed.

Lemma contributes_literal tree s :
  contributes tree s → Constant (CStr s) ∈ walk tree.
Proof.
  intros (n & Hn & [->|(var & sl & values & -> & Hrec & Hs)]).
  - apply (walk_trans tree _ _ Hn). cbn [walk]. right. left.
  - destruct Hrec as (l1 & b & l2 & Hwalk & (keys & -> & _) & _).
    apply (walk_trans tree (Assign [Name var] (Dict keys values))).
    + rewrite Hwalk. apply elem_of_app. right. left.
    + cbn [walk]. right. apply elem_of_app. right. right.
      apply elem_of_app. right. apply elem_of_concat_walk.
      exists (Constant (CStr s)). split; [done | left].
Qed.

(** X15. Every string that [get_possible_return_constants] returns is a string
    literal of the parsed source: the function reports no label that the
    function body does not spell out. *)
Theorem returned_constants_are_literals
    (Function : Type) (getsource name : Function → outcome string)
    (dedent : string → outcome string) (parse : string → outcome node)
    (print : string → outcome unit) (show : error → string)
    (recursion_limit : nat) (function : Function)
    (l : list string) (s : string) :
  get_possible_return_constants Function getsource name dedent parse print show
    recursion_limit function = Returns (Some l) →
  s ∈ l →
  ∃ source dedented tree,
    getsource function = Returns source ∧ dedent source = Returns dedented ∧
    parse dedented = Returns tree ∧ Constant (CStr s) ∈ walk tree.
Proof.
  unfold get_possible_return_constants.
  destruct (getsource function) as [source|e] eqn:Hsource;
    [|by intros Hr; apply retrieval_failed_None in Hr].
  destruct (dedent source) as [dedented|e] eqn:Hdedent;
    [|by intros Hr; apply parsing_failed_None in Hr].
  destruct (parse dedented) as [tree|e] eqn:Htree;
    [|by intros Hr; apply parsing_failed_None in Hr].
  unfold scan. rewrite visit_within_depth. case_decide; [simpl|done].
  rewrite visit_within_depth, decide_True by done. simpl.
  case_decide; [done|]. intros [= <-] Hs.
  exists source, dedented, tree. split; [done|]. split; [done|]. split; [done|].
  apply contributes_literal, passes_contribute. by apply elem_of_elements.
Qed.

Lemma returned_constants_are_literals_witness :
  ∃ source dedented tree,
    (λ _ : unit, Returns EmptyString) tt = Returns source ∧
    Returns source = Returns dedented ∧
    (λ _ : string, Returns body_dictionary) dedented = Returns tree ∧
    Constant (CStr "stop") ∈ walk tree.
Proof.
  apply (returned_constants_are_literals unit
           (λ _, Returns EmptyString) (λ _, Returns "route") Returns
           (λ _, Returns body_dictionary) (λ _, Returns tt) (λ _, "error") 100 tt
           (returned (extract body_dictionary)) "stop").
  - vm_compute. reflexivity.
  - by_computation.
Defined.
End outcomes_literals.

(** ** Levels during and after the loop *)

Section levels_final.
Import Levels.
Variable f : flow.

Lemma while_queue_after_steps n st0 st fuel st_f :
  steps n f st0 = Some st → while_queue fuel f st0 = Done st_f →
  ∃ fuel', while_queue fuel' f st = Done st_f.
Proof.
  revert st0 fuel. induction n as [|n IH]; intros st0 fuel; simpl.
  - intros [= <-] Hrun. by exists fuel.
  - destruct (step f st0) as [[st1| |]|] eqn:Hstep; try done.
    intros Hsteps Hrun.
    destruct fuel as [|fuel]; simpl in Hrun; rewrite Hstep in Hrun; [done|].
    simpl in Hrun. by eapply IH.
Qed.

Lemma while_queue_levels fuel st st' :
  reachable f st → while_queue fuel f st = Done st' → levels st ⊆ levels st'.
Proof.
  revert st. induction fuel as [|fuel IH]; intros st Hst; simpl.
  - destruct (step f st); [done|]. by intros [= <-].
  - destruct (step f st) as [[st1| |]|] eqn:Hstep; simpl; try done.
    + intros Hrun. trans (levels st1); [by apply (step_keeps_levels f)|].
      apply IH; [by eapply reachable_step | done].
    + by intros [= <-].
Qed.

(** The levels after any number of iterations are part of the map that
    is returned. *)
Lemma steps_levels_final n st :
  steps n f (initial f) = Some st →
  ∃ lv, (∀ fuel, enough_fuel f ≤ fuel →
           calculate_node_levels fuel f = Done lv) ∧
        levels st ⊆ lv.
Proof.
  intros Hsteps. destruct (while_queue_returns f) as (st_f & _ & _ & Hrun).
  exists (levels st_f). split.
  - intros fuel Hfuel. unfold calculate_node_levels. by rewrite Hrun.
  - destruct (while_queue_after_steps _ _ _ _ _ Hsteps (Hrun _ (le_n _)))
      as [fuel' Hrun'].
    eapply while_queue_levels; [|done].
    eapply steps_reachable; [apply reachable_initial | done].
Qed.

(** The first iteration gives an AND-listener without triggers level 1. *)
Lemma first_iteration_and_without_triggers x s0 rest :
  NoDup (listener_names f) → (x, ("AND", [])) ∈ _listeners f →
  x ∉ start_methods f → start_methods f = s0 :: rest →
  levels (loop_body f s0 0 (dequeue s0 rest (initial f))) !! x = Some 1.
Proof.
  intros Hnd Hx Hnot Hstart.
  destruct (list_elem_of_split _ _ Hx) as (before & after & Hsplit).
  assert (∀ e, e ∈ before ++ after → e.1 ≠ x) as Hother.
  { unfold listener_names in Hnd. rewrite Hsplit, fmap_app, fmap_cons in Hnd.
    apply NoDup_app in Hnd as (_ & Hbefore & Hafter).
    apply NoDup_cons in Hafter as [Hafter _]. cbn [fst] in *.
    intros e He <-. apply elem_of_app in He as [He|He].
    - apply (Hbefore e.1); [by apply list_elem_of_fmap_2 | left].
    - apply Hafter. by apply list_elem_of_fmap_2. }
  unfold loop_body. rewrite Hsplit, foldl_app. cbn [foldl].
  set (st1 := foldl (process_listener s0 0) (dequeue s0 rest (initial f)) before).
  assert (same_at x (dequeue s0 rest (initial f)) st1) as [Hl1 Hp1].
  { apply foldl_same_at. intros s e He. apply process_listener_same_at.
    apply Hother, elem_of_app. by left. }
  simpl in Hl1, Hp1. rewrite initial_levels, decide_False in Hl1 by done.
  rewrite initial_pending, lookup_empty in Hp1.
  set (st2 := process_listener s0 0 st1 (x, ("AND", []))).
  assert (levels st2 !! x = Some 1) as Hl2.
  { unfold st2, process_listener. rewrite decide_False by done.
    rewrite decide_True by done. rewrite and_branch_unfold. cbn zeta.
    cbn [pending_and_listeners set_pending].
    rewrite recorded_same, Hp1.
    rewrite (decide_False (P := s0 ∈ [])) by apply not_elem_of_nil.
    rewrite decide_True by (simpl; f_equal; set_solver).
    unfold propose. cbn [levels set_pending]. rewrite Hl1. simpl.
    by rewrite lookup_insert_eq. }
  set (st3 := foldl (process_listener s0 0) st2 after).
  assert (same_at x st2 st3) as [Hl3 _].
  { apply foldl_same_at. intros s e He. apply process_listener_same_at.
    apply Hother, elem_of_app. by right. }
  assert (same_at x st3 (router_part f s0 0 st3)) as [Hl4 _].
  { unfold router_part. case_decide; [|apply same_at_refl].
    apply foldl_same_at. intros s path _. apply foldl_same_at. intros s' e He.
    apply process_path_listener_same_at. intros He1.
    assert (e = (x, ("AND", []))) as ->; [|apply not_elem_of_nil].
    destruct e as [name l]. simpl in He1. subst name. f_equal.
    by eapply NoDup_fst_unique. }
  by rewrite Hl4, Hl3.
Qed.
End levels_final.

Section levels_final_properties.
Import Levels.

(** X13. A level, once assigned, is final: whatever level a step has after
    some iterations of the loop is the level it has in the map returned.
    The comparison with [current_level + 1] never lowers a level. *)
Theorem assigned_levels_are_final (f : flow) (n : nat) (st : state)
    (x : string) (l : nat) :
  steps n f (initial f) = Some st → levels st !! x = Some l →
  ∃ lv, (∀ fuel, enough_fuel f ≤ fuel →
           calculate_node_levels fuel f = Done lv) ∧
        lv !! x = Some l.
Proof.
  intros Hsteps Hl. destruct (steps_levels_final f n st Hsteps) as (lv & Hrun & Hsub).
  exists lv. split; [done|]. by eapply lookup_weaken.
Qed.

Lemma assigned_levels_are_final_witness :
  ∃ lv, (∀ fuel, enough_fuel flow_join ≤ fuel →
           calculate_node_levels fuel flow_join = Done lv) ∧
        lv !! "B" = Some 1.
Proof.
  apply (assigned_levels_are_final flow_join 1
           (default empty_state (steps 1 flow_join (initial flow_join))) "B" 1).
  - vm_compute. reflexivity.
  - by_computation.
Defined.

(** X14. An AND-listener with an empty trigger list, which no step triggers,
    is given level 1 as soon as the first start method is dequeued, unless
    it is itself a start method. *)
Theorem and_listener_without_triggers_has_level_one (f : flow) (x : string) :
  NoDup (listener_names f) → (x, ("AND", [])) ∈ _listeners f →
  x ∉ start_methods f → start_methods f ≠ [] →
  ∃ lv, (∀ fuel, enough_fuel f ≤ fuel →
           calculate_node_levels fuel f = Done lv) ∧
        lv !! x = Some 1.
Proof.
  intros Hnd Hx Hnot Hstart.
  destruct (start_methods f) as [|s0 rest] eqn:Hs; [done|].
  destruct (steps_levels_final f 1
              (loop_body f s0 0 (dequeue s0 rest (initial f))))
    as (lv & Hrun & Hsub).
  { simpl. unfold step. rewrite initial_queue, Hs, initial_levels, Hs.
    by rewrite decide_True by left. }
  exists lv. split; [done|]. eapply lookup_weaken; [|done].
  apply first_iteration_and_without_triggers; try done. by rewrite Hs.
Qed.

Lemma and_listener_without_triggers_has_level_one_witness :
  ∃ lv, (∀ fuel, enough_fuel flow_and_empty ≤ fuel →
           calculate_node_levels fuel flow_and_empty = Done lv) ∧
        lv !! "L" = Some 1.
Proof.
  apply (and_listener_without_triggers_has_level_one flow_and_empty "L").
  - by_computation.
  - by_computation.
  - by_computation.
  - by_computation.
Defined.
End levels_final_properties.

(** ** The parent-children map and the edges of the traversals *)

Lemma get_or_empty_unique (d : list (string * list string)) (key : string)
    (ps : list string) :
  NoDup d.*1 → (key, ps) ∈ d → get_or_empty d key = ps.
Proof.
  induction d as [|[k v] d IH]; simpl; intros Hnd Hin.
  { by apply elem_of_nil in Hin. }
  apply NoDup_cons in Hnd as [Hk Hnd]. apply elem_of_cons in Hin as [[= -> ->]|Hin].
  - by rewrite decide_True.
  - rewrite decide_False; [by apply IH|]. intros ->. apply Hk.
    apply list_elem_of_fmap. by exists (key, ps).
Qed.

Section children_edges.
Import Children.

(** X4. The parent-children map holds the edges along which levels and
    ancestors are propagated: provided [flow._router_paths] has entries
    for routers only, [child] is listed under [parent] exactly when
    [calculate_node_levels] and [dfs_ancestors] go from [parent] to
    [child]. *)
Theorem parent_children_are_the_edges (f : flow) (parent child : string) :
  NoDup (_router_paths f).*1 →
  Forall (λ e : string * list string, e.1 ∈ _routers f) (_router_paths f) →
  has_child parent child (build_parent_children_dict f) ↔ edge f parent child.
Proof.
  intros Hnd Hrouters. rewrite Forall_forall in Hrouters. split.
  - intros (cs & Hcs & Hc).
    destruct (build_parent_children_dict_sound f parent cs Hcs) as (_ & _ & Hall).
    destruct (Hall child Hc)
      as (ct & ts & He & [Hin|(paths & path & Hr & Hpath & Hts)]);
      exists ct, ts; (split; [done|]); [by left | right].
    split; [exact (Hrouters _ Hr)|]. exists path. split; [|done].
    by rewrite (get_or_empty_unique _ _ _ Hnd Hr).
  - intros (ct & ts & He & [Hin|(_ & path & Hpath & Hts)]).
    + by eapply build_parent_children_dict_trigger.
    + apply get_or_empty_elem in Hpath as (paths & Hr & Hpath).
      by eapply build_parent_children_dict_router.
Qed.

Lemma parent_children_are_the_edges_witness :
  has_child "R" "L" (build_parent_children_dict flow_routed) ↔
  edge flow_routed "R" "L".
Proof.
  apply (parent_children_are_the_edges flow_routed "R" "L").
  - by_computation.
  - by_computation.
Defined.
End children_edges.

Section levels_zero.
Import Levels.

(** X16. Level 0 belongs to the start methods alone: in the returned map a
    step has level 0 exactly when it is a start method, and every step
    with a level is a start method or a listener. *)
Theorem level_zero_only_for_start_methods (f : flow) :
  NoDup (listener_names f) →
  ∃ lv, (∀ fuel, enough_fuel f ≤ fuel →
           calculate_node_levels fuel f = Done lv) ∧
        ∀ x l, lv !! x = Some l →
          (l = 0 ↔ x ∈ start_methods f) ∧
          (x ∈ start_methods f ∨ x ∈ listener_names f).
Proof.
  intros Hnd. destruct (final_state f) as (st & Hrun & Hreach & _).
  destruct (reachable_invariants f Hnd st Hreach) as ([c Hfr] & Hhi & _).
  exists (levels st). split; [done|]. intros x l Hl. split; [split|].
  - intros ->.
    destruct (hi_origin _ _ Hhi _ _ Hl) as [[? _]|(s & ls & e & _ & _ & _ & ? & _)];
      [done | lia].
  - intros Hx. pose proof (fr_start _ _ _ Hfr _ Hx). congruence.
  - apply (fr_dom _ _ _ Hfr). by eexists.
Qed.

Lemma level_zero_only_for_start_methods_witness :
  ∃ lv, (∀ fuel, enough_fuel flow_and_empty ≤ fuel →
           calculate_node_levels fuel flow_and_empty = Done lv) ∧
        ∀ x l, lv !! x = Some l →
          (l = 0 ↔ x ∈ start_methods flow_and_empty) ∧
          (x ∈ start_methods flow_and_empty ∨ x ∈ listener_names flow_and_empty).
Proof.
  apply (level_zero_only_for_start_methods flow_and_empty). by_computation.
Defined.
End levels_zero.
